(** * Session-recording blob ingester (SessionRecordingIngesterV2)

    A shallow embedding of
    [plugin-server/src/main/ingestion-queues/session-recording/session-recordings-consumer-v2.ts]
    and the properties of its commit, deduplication, parsing and rebalance
    logic.

    The class is a record of its fields; every method is a function from
    state to state.  Calls that leave the process (broker commits, dropped
    counters, warnings, flushes, lock claims, the shutdown of the services)
    are appended to a chronological effect log kept in the state, so that "was a commit issued" and "which
    flush was started first" are statements about that log.  [await] is
    sequencing: a method runs to completion before the next one starts.  A
    method that throws says so in its result; a batch that is given up
    because of it leaves [Thrown] as the last entry of the log.

    Gauges, histograms, Sentry spans, timeout guards, the broker-offset
    refresher and the progress lines written with [status.info] only feed
    telemetry and are left out; the warnings written with [status.warn] are
    kept.  The services the consumer calls but whose sources are not at hand
    (the high-water marker, the session manager, the replay-events ingester)
    follow the specification; each such definition says so. *)

From Stdlib Require Import ZArith Lia Sorted.
From stdpp Require Import base option list gmap strings pretty fin_maps sorting.

Local Open Scope string_scope.
Local Open Scope list_scope.
Local Open Scope Z_scope.

(** ** JavaScript numbers and operators used by the consumer *)

Module JS.

(** A number that may be [Infinity] (the only non-integer the code writes). *)
Inductive Num := Finite (z : Z) | Infinity.

Definition ltb (a b : Num) : bool :=
  match a, b with
  | Finite x, Finite y => x <? y
  | Finite _, Infinity => true
  | Infinity, _ => false
  end.

(** Truthiness of [number | undefined]: [undefined] and [0] are falsy. *)
Definition truthy (x : option Z) : bool :=
  match x with
  | Some v => negb (v =? 0)
  | None => false
  end.

(** [x || Infinity] *)
Definition or_Infinity (x : option Z) : Num :=
  match x with
  | Some v => if truthy (Some v) then Finite v else Infinity
  | None => Infinity
  end.

(** [x ?? Infinity] *)
Definition nullish_Infinity (x : option Z) : Num :=
  match x with
  | Some v => Finite v
  | None => Infinity
  end.

(** [x || 0] *)
Definition or_0 (x : option Z) : Z :=
  match x with
  | Some v => if truthy (Some v) then v else 0
  | None => 0
  end.

(** [x ?? y] *)
Definition nullish (x : option Z) (y : Z) : Z :=
  match x with
  | Some v => v
  | None => y
  end.

(** Truthiness of [string | undefined]: [undefined] and [''] are falsy. *)
Definition truthy_str (x : option string) : bool :=
  match x with
  | Some s => negb (bool_decide (s = ""))
  | None => false
  end.

(** The names every plain object inherits from [Object.prototype]. *)
Definition Object_prototype : list string :=
  ["constructor"; "__defineGetter__"; "__defineSetter__"; "hasOwnProperty";
   "__lookupGetter__"; "__lookupSetter__"; "isPrototypeOf"; "propertyIsEnumerable";
   "toString"; "valueOf"; "__proto__"; "toLocaleString"].

(** The inherited member of that name inside a template literal:
    [__proto__] is [Object.prototype] itself, [constructor] is the function
    [Object], the others are functions named as the property. *)
Definition inherited_toString (name : string) : string :=
  if bool_decide (name = "__proto__") then "[object Object]"
  else "function " +:+ (if bool_decide (name = "constructor") then "Object" else name)
       +:+ "() { [native code] }".

(** The errors the consumer can throw by itself. *)
Inductive Error := TypeError.

(** How a call ends. *)
Inductive Completion (A : Type) :=
| Returns (a : A)
| Throws (error : Error).
Arguments Returns {A} a.
Arguments Throws {A} error.

End JS.

(** ** Messages *)

(** A byte payload is represented by what [JSON.parse] makes of it: the
    parser throws, or it yields [null], or it yields a value, kept at the
    type the source casts the result to and restricted to the properties the
    consumer reads. *)
Inductive JSONText (A : Type) :=
| Malformed
| Null
| Encodes (a : A).
Arguments Malformed {A}.
Arguments Null {A}.
Arguments Encodes {A} a.

(** [JSON.parse]; [None] is the thrown [SyntaxError], [Some None] the value
    [null]. *)
Definition JSON_parse {A} (text : JSONText A) : option (option A) :=
  match text with
  | Malformed => None
  | Null => Some None
  | Encodes a => Some (Some a)
  end.

(** What [teams[token]] can be: an id the token table holds, or, the table
    being a plain object, the member of [Object.prototype] of that name. *)
Inductive TeamId :=
| Team (id : Z)
| Inherited (name : string).
Coercion Team : Z >-> TeamId.

(** One element of [$snapshot_items], in serialized form. *)
Definition SnapshotItem := string.

(** [event.properties] restricted to the keys the consumer reads. *)
Record Properties := {
  p_snapshot_items : option (list SnapshotItem);
  p_session_id : option string;
  p_window_id : option string;
}.

Record PipelineEvent := {
  pe_event : string;
  pe_properties : option Properties;
}.

(** [rem_data] is what [JSON.parse(messagePayload.data)] makes of the
    [data] property. *)
Record RawEventMessage := {
  rem_team_id : option Z;
  rem_token : option string;
  rem_distinct_id : string;
  rem_data : JSONText PipelineEvent;
}.

(** node-rdkafka [Message]. *)
Record Message := {
  m_value : option (JSONText RawEventMessage);
  m_timestamp : option Z;
  m_partition : Z;
  m_topic : string;
  m_offset : Z;
}.

Record TopicPartition := {
  tp_topic : string;
  tp_partition : Z;
}.

Record Metadata := {
  md_partition : Z;
  md_topic : string;
  md_offset : Z;
  md_timestamp : Z;
}.

Record IncomingRecordingMessage := {
  metadata : Metadata;
  team_id : TeamId;
  distinct_id : string;
  session_id : option string;
  window_id : option string;
  events : list SnapshotItem;
}.

(** ** Effects leaving the process *)

Inductive Effect :=
| Dropped (drop_cause : string)
| Warned (reason : string)
| Commit (topic : string) (partition : Z) (offset : Z)
| Created (key : string)
| Added (key : string) (offset : Z)
| FlushStarted (key : string) (reason : string)
| Uploaded (key : string) (lowest highest : Z)
| Destroyed (key : string)
| Claimed (partitions : list (string * Z))
| Released (partitions : list (string * Z))
| ReplayPublished (key : string) (offset : Z)
| ConsumerStopped
| RealtimeUnsubscribed
| ReplayStopped
| Thrown (error : JS.Error).

Definition HIGH_WATERMARK_KEY : string := "session_replay_blob_ingester".

(** The logical key of the replay-events ingester. *)
Definition REPLAY_HIGH_WATERMARK_KEY : string := "session_replay_events_ingester".

(** ** OffsetHighWaterMarker *)

Module OffsetHighWaterMarker.

(** Modelled from the spec: [services/offset-high-water-marker.ts] is not
    among the sources.  The marker maps (topic, partition, logical key) to
    the highest offset known durably handled.  The local cache is
    write-through over the shared store, so a single worker observes one
    logical map, which is what is kept here. *)
Definition t := gmap (string * Z) (gmap string Z).

Definition getWaterMarks (tp : string * Z) (h : t) : gmap string Z :=
  default ∅ (h !! tp).

Definition mark (tp : string * Z) (key : string) (h : t) : option Z :=
  getWaterMarks tp h !! key.

(** Modelled from the spec: [is_below(meta, key, offset)] is true iff the
    stored mark is at least [offset]. *)
Definition isBelowHighWaterMark (md : Metadata) (key : string) (offset : Z) (h : t) : bool :=
  match mark (md_topic md, md_partition md) key h with
  | Some m => offset <=? m
  | None => false
  end.

(** Modelled from the spec: [add] monotonically raises the mark. *)
Definition add (tp : string * Z) (key : string) (offset : Z) (h : t) : t :=
  let marks := getWaterMarks tp h in
  let raised := match marks !! key with
                | Some m => Z.max m offset
                | None => offset
                end in
  <[tp := <[key := raised]> marks]> h.

(** A mark is per-session unless its key is one of the two fixed ones. *)
Definition fixed_key (key : string) : Prop :=
  key = HIGH_WATERMARK_KEY ∨ key = REPLAY_HIGH_WATERMARK_KEY.

(** Modelled from the spec: [clear] discards the per-session marks whose
    values are at most [up_to_offset]; the marks of the fixed keys stay. *)
Definition clear (tp : string * Z) (up_to_offset : Z) (h : t) : t :=
  match h !! tp with
  | Some marks =>
      <[tp := filter (λ kv, fixed_key kv.1 ∨ up_to_offset < kv.2) marks]> h
  | None => h
  end.

(** Modelled from the spec: [revoke] forgets the local state of the
    partition and leaves the shared store intact, so the logical map is
    unchanged. *)
Definition revoke (tp : string * Z) (h : t) : t := h.

End OffsetHighWaterMarker.

(** ** Configuration *)

(** The fields of [PluginsServerConfig] the consumer and its session managers
    read.  The two flush thresholds are named as in the specification. *)
Record PluginsServerConfig := {
  SESSION_RECORDING_PARTITION_REVOKE_OPTIMIZATION : bool;
  SIZE_LIMIT : Z;
  AGE_LIMIT : Z;
}.

(** ** SessionManager *)

Module SessionManager.

(** Modelled from the spec: [services/session-manager.ts] is not among the
    sources.  The buffer keeps the offsets, timestamps and size of what has
    been appended since the last successful flush. *)
Record SessionBuffer := {
  oldestKafkaTimestamp : option Z;
  newestKafkaTimestamp : option Z;
  offsets : option (Z * Z);
  byte_size : Z;
  event_count : Z;
}.

Definition empty_buffer : SessionBuffer :=
  {| oldestKafkaTimestamp := None; newestKafkaTimestamp := None;
     offsets := None; byte_size := 0; event_count := 0 |}.

Record t := {
  teamId : TeamId;
  sessionId : string;
  partition : Z;
  topic : string;
  buffer : SessionBuffer;
}.

Definition new (team_id : TeamId) (session_id : string) (partition : Z) (topic : string) : t :=
  {| teamId := team_id; sessionId := session_id; partition := partition;
     topic := topic; buffer := empty_buffer |}.

Definition with_buffer (b : SessionBuffer) (sm : t) : t :=
  {| teamId := teamId sm; sessionId := sessionId sm; partition := partition sm;
     topic := topic sm; buffer := b |}.

(** Modelled from the spec: the lowest un-flushed offset, or null if the
    buffer is empty. *)
Definition getLowestOffset (sm : t) : option Z := fst <$> offsets (buffer sm).

Definition isEmpty (sm : t) : bool := bool_decide (offsets (buffer sm) = None).

Definition message_bytes (msg : IncomingRecordingMessage) : Z :=
  foldr (λ item acc, Z.of_nat (String.length item) + acc) 0 (events msg).

(** Modelled from the spec: [append(event, offset, timestamp)]. *)
Definition append (msg : IncomingRecordingMessage) (b : SessionBuffer) : SessionBuffer :=
  let offset := md_offset (metadata msg) in
  let timestamp := md_timestamp (metadata msg) in
  {| oldestKafkaTimestamp :=
       Some (match oldestKafkaTimestamp b with Some t0 => Z.min t0 timestamp | None => timestamp end);
     newestKafkaTimestamp :=
       Some (match newestKafkaTimestamp b with Some t1 => Z.max t1 timestamp | None => timestamp end);
     offsets :=
       Some (match offsets b with
             | Some (lo, hi) => (Z.min lo offset, Z.max hi offset)
             | None => (offset, offset)
             end);
     byte_size := byte_size b + message_bytes msg;
     event_count := event_count b + 1 |}.

(** Modelled from the spec (flush protocol): on an empty buffer a no-op;
    when the upload succeeds the marks for the session and for the
    partition-global key are raised to the highest flushed offset and the
    buffer is reset; when it fails the buffer is left intact.  [key] is the
    key under which the consumer holds the manager, [stored] whether the
    object store accepts the upload. *)
Definition flush (key reason : string) (stored : bool) (sm : t)
    (h : OffsetHighWaterMarker.t) : t * OffsetHighWaterMarker.t * list Effect :=
  match offsets (buffer sm) with
  | None => (sm, h, [FlushStarted key reason])
  | Some (lo, hi) =>
      if stored then
        let tp := (topic sm, partition sm) in
        let h1 := OffsetHighWaterMarker.add tp (sessionId sm) hi h in
        let h2 := OffsetHighWaterMarker.add tp HIGH_WATERMARK_KEY hi h1 in
        (with_buffer empty_buffer sm, h2, [FlushStarted key reason; Uploaded key lo hi])
      else (sm, h, [FlushStarted key reason])
  end.

(** Modelled from the spec: [add] delegates to the buffer and flushes when
    the size limit is reached. *)
Definition add (cfg : PluginsServerConfig) (key : string) (stored : bool)
    (msg : IncomingRecordingMessage) (sm : t) (h : OffsetHighWaterMarker.t)
    : t * OffsetHighWaterMarker.t * list Effect :=
  let sm1 := with_buffer (append msg (buffer sm)) sm in
  let added := [Added key (md_offset (metadata msg))] in
  if SIZE_LIMIT cfg <=? byte_size (buffer sm1) then
    let '(sm2, h2, es) := flush key "buffer_size" stored sm1 h in
    (sm2, h2, added ++ es)
  else (sm1, h, added).

(** Modelled from the spec: flush if
    [reference_time_ms - buffer.oldest_timestamp >= AGE_LIMIT] or
    [buffer.byte_size >= SIZE_LIMIT]. *)
Definition isReady (cfg : PluginsServerConfig) (referenceTime : Z) (sm : t) : bool :=
  match oldestKafkaTimestamp (buffer sm) with
  | Some t0 => AGE_LIMIT cfg <=? referenceTime - t0
  | None => false
  end
  || (SIZE_LIMIT cfg <=? byte_size (buffer sm)).

Definition flushIfSessionBufferIsOld (cfg : PluginsServerConfig) (key : string)
    (stored : bool) (referenceTime : Z) (sm : t) (h : OffsetHighWaterMarker.t)
    : t * OffsetHighWaterMarker.t * list Effect :=
  if isReady cfg referenceTime sm then flush key "buffer_age" stored sm h
  else (sm, h, []).

End SessionManager.

(** ** JavaScript objects used as ordered maps

    [sessions] is a [Record<string, SessionManager>] whose keys all contain a
    dash, so [Object.entries] and [Object.values] enumerate it in insertion
    order and no lookup reaches a member of [Object.prototype]: an
    association list with at most one entry per key. *)

Module JSObject.
Section Object.
Context {V : Type}.

Fixpoint get (key : string) (o : list (string * V)) : option V :=
  match o with
  | [] => None
  | (k, v) :: rest => if bool_decide (k = key) then Some v else get key rest
  end.

(** [o[key] = v]: an existing key keeps its place, a new one goes last. *)
Fixpoint set (key : string) (v : V) (o : list (string * V)) : list (string * V) :=
  match o with
  | [] => [(key, v)]
  | (k, v0) :: rest =>
      if bool_decide (k = key) then (k, v) :: rest else (k, v0) :: set key v rest
  end.

(** [delete o[key]] *)
Fixpoint delete (key : string) (o : list (string * V)) : list (string * V) :=
  match o with
  | [] => []
  | (k, v) :: rest =>
      if bool_decide (k = key) then delete key rest else (k, v) :: delete key rest
  end.

Definition values (o : list (string * V)) : list V := o.*2.
Definition keys (o : list (string * V)) : list string := o.*1.
End Object.
End JSObject.

(** ** Array.prototype.sort

    The order [sort] produces is fixed by the language only for a consistent
    comparator; for any other it is the engine's.  This is the engine of the
    Node runtime on arrays of fewer than 64 elements: the leading run is
    counted (and reversed when strictly descending), then the remaining
    elements are placed by binary insertion.  Only the sign of the
    comparator's result is looked at. *)

Module JSArray.
Section Sort.
Context {A : Type} (comparefn : A → A → JS.Num).

Definition negative (order : JS.Num) : bool :=
  match order with
  | JS.Finite z => z <? 0
  | JS.Infinity => false
  end.

(** Number of further elements that continue the run after [previous]. *)
Fixpoint run_rest (isDescending : bool) (previous : A) (rest : list A) : nat :=
  match rest with
  | [] => O
  | current :: rest' =>
      let order := comparefn current previous in
      let stop := if isDescending then negb (negative order) else negative order in
      if stop then O else S (run_rest isDescending current rest')
  end.

Definition countAndMakeRun (arr : list A) : list A * nat :=
  match arr with
  | a0 :: a1 :: rest =>
      let isDescending := negative (comparefn a1 a0) in
      let runLength := (2 + run_rest isDescending a1 rest)%nat in
      (if isDescending then reverse (take runLength arr) ++ drop runLength arr else arr,
       runLength)
  | _ => (arr, length arr)
  end.

(** The insertion point of [pivot] in [arr[left..right)]. *)
Fixpoint search (fuel : nat) (pivot : A) (arr : list A) (left right : nat) : nat :=
  match fuel with
  | O => left
  | S fuel' =>
      if (left <? right)%nat then
        let mid := (left + (right - left) / 2)%nat in
        match arr !! mid with
        | Some x =>
            if negative (comparefn pivot x)
            then search fuel' pivot arr left mid
            else search fuel' pivot arr (S mid) right
        | None => left
        end
      else left
  end.

Definition place (arr : list A) (start : nat) : list A :=
  match arr !! start with
  | Some pivot =>
      let left := search (S start) pivot arr O start in
      take left arr ++ pivot :: drop left (take start arr) ++ drop (S start) arr
  | None => arr
  end.

Fixpoint binaryInsertionSort (todo start : nat) (arr : list A) : list A :=
  match todo with
  | O => arr
  | S todo' => binaryInsertionSort todo' (S start) (place arr start)
  end.

Definition sort (arr : list A) : list A :=
  let '(arr1, runLength) := countAndMakeRun arr in
  binaryInsertionSort (length arr - runLength) runLength arr1.
End Sort.
End JSArray.

(** ** The consumer *)

Record PartitionMetrics := {
  lastMessageTimestamp : option Z;
  lastMessageOffset : option Z;
  lastKnownCommit : option Z;
}.

(** The fields of the class.  [teamsRefresher] is the token table the
    refresher currently holds, by the properties it holds itself;
    [batchConsumer] whether the consumer has been started, [objectStorage]
    whether the object store accepts uploads. *)
Record Ingester := {
  serverConfig : PluginsServerConfig;
  sessions : list (string * SessionManager.t);
  offsetHighWaterMarker : OffsetHighWaterMarker.t;
  partitionAssignments : gmap Z PartitionMetrics;
  teamsRefresher : gmap string Z;
  batchConsumer : bool;
  objectStorage : bool;
  effects : list Effect;
}.

Definition with_sessions (v : list (string * SessionManager.t)) (s : Ingester) : Ingester :=
  {| serverConfig := serverConfig s; sessions := v;
     offsetHighWaterMarker := offsetHighWaterMarker s;
     partitionAssignments := partitionAssignments s;
     teamsRefresher := teamsRefresher s; batchConsumer := batchConsumer s;
     objectStorage := objectStorage s; effects := effects s |}.

Definition with_marker (v : OffsetHighWaterMarker.t) (s : Ingester) : Ingester :=
  {| serverConfig := serverConfig s; sessions := sessions s;
     offsetHighWaterMarker := v;
     partitionAssignments := partitionAssignments s;
     teamsRefresher := teamsRefresher s; batchConsumer := batchConsumer s;
     objectStorage := objectStorage s; effects := effects s |}.

Definition with_assignments (v : gmap Z PartitionMetrics) (s : Ingester) : Ingester :=
  {| serverConfig := serverConfig s; sessions := sessions s;
     offsetHighWaterMarker := offsetHighWaterMarker s;
     partitionAssignments := v;
     teamsRefresher := teamsRefresher s; batchConsumer := batchConsumer s;
     objectStorage := objectStorage s; effects := effects s |}.

Definition log (es : list Effect) (s : Ingester) : Ingester :=
  {| serverConfig := serverConfig s; sessions := sessions s;
     offsetHighWaterMarker := offsetHighWaterMarker s;
     partitionAssignments := partitionAssignments s;
     teamsRefresher := teamsRefresher s; batchConsumer := batchConsumer s;
     objectStorage := objectStorage s; effects := effects s ++ es |}.

(** The result of a session-manager call written back into the consumer: the
    manager is the object [sessions[key]] refers to, the marker is shared. *)
Definition stored_back (key : string)
    (r : SessionManager.t * OffsetHighWaterMarker.t * list Effect) (s : Ingester) : Ingester :=
  let '(sm, h, es) := r in
  log es (with_marker h (with_sessions (JSObject.set key sm (sessions s)) s)).

(** [`${team_id}`] *)
Definition team_id_string (team_id : TeamId) : string :=
  match team_id with
  | Team id => pretty id
  | Inherited name => JS.inherited_toString name
  end.

(** [`${team_id}-${session_id}`] *)
Definition session_key (team_id : TeamId) (session_id : string) : string :=
  team_id_string team_id +:+ "-" +:+ session_id.

(** A missing [$session_id] prints as [undefined] and is the property name
    [undefined] wherever it is used as a key. *)
Definition session_id_string (session_id : option string) : string :=
  default "undefined" session_id.

Definition consume (event : IncomingRecordingMessage) (s : Ingester) : Ingester :=
  let session_id := session_id_string (session_id event) in
  let key := session_key (team_id event) session_id in
  let offset := md_offset (metadata event) in
  if OffsetHighWaterMarker.isBelowHighWaterMark (metadata event) session_id offset
       (offsetHighWaterMarker s)
  then log [Dropped "high_water_mark"] s
  else if OffsetHighWaterMarker.isBelowHighWaterMark (metadata event) HIGH_WATERMARK_KEY offset
            (offsetHighWaterMarker s)
  then log [Dropped "high_water_mark_partition"] s
  else
    let s1 :=
      match JSObject.get key (sessions s) with
      | Some _ => s
      | None =>
          let sessionManager :=
            SessionManager.new (team_id event) session_id
              (md_partition (metadata event)) (md_topic (metadata event)) in
          log [Created key] (with_sessions (JSObject.set key sessionManager (sessions s)) s)
      end in
    match JSObject.get key (sessions s1) with
    | Some sessionManager =>
        stored_back key
          (SessionManager.add (serverConfig s1) key (objectStorage s1) event sessionManager
             (offsetHighWaterMarker s1)) s1
    | None => s1
    end.

Definition statusWarn (reason : string)
    : JS.Completion (option IncomingRecordingMessage) * list Effect :=
  (JS.Returns None, [Warned reason]).

(** [!event.properties?.$snapshot_items?.length] *)
Definition no_snapshot_items (event : PipelineEvent) : bool :=
  match pe_properties event ≫= p_snapshot_items with
  | Some items => bool_decide (length items = O)
  | None => true
  end.

(** [parseKafkaMessage].  The two [JSON.parse] calls sit in one [try]: a
    [SyntaxError] of either, and the [TypeError] of reading [data] off a
    payload that is [null], end in [invalid_json].  An event that is [null]
    leaves the [try] and throws where [event.event] is read. *)
Definition parseKafkaMessage (message : Message) (getTeamFn : string → option TeamId)
    : JS.Completion (option IncomingRecordingMessage) * list Effect :=
  match m_value message, m_timestamp message with
  | Some value, Some timestamp =>
      if negb (JS.truthy (Some timestamp)) then statusWarn "message value or timestamp is empty"
      else
        match JSON_parse value with
        | None | Some None => statusWarn "invalid_json"
        | Some (Some messagePayload) =>
            match JSON_parse (rem_data messagePayload) with
            | None => statusWarn "invalid_json"
            | Some None => (JS.Throws JS.TypeError, [])
            | Some (Some event) =>
                if negb (bool_decide (pe_event event = "$snapshot_items"))
                   || no_snapshot_items event
                then (JS.Returns None, [Warned "Received non-snapshot message, ignoring"])
                else if bool_decide (rem_team_id messagePayload = None)
                        && negb (JS.truthy_str (rem_token messagePayload))
                then statusWarn "no_token"
                else
                  let token := rem_token messagePayload in
                  let teamId :=
                    match token with
                    | Some tok => if JS.truthy_str token then getTeamFn tok else None
                    | None => None
                    end in
                  match teamId with
                  | None =>
                      (JS.Returns None, [Dropped "team_missing_or_disabled";
                                         Warned "team_missing_or_disabled"])
                  | Some teamId =>
                      (JS.Returns
                         (Some {| metadata := {| md_partition := m_partition message;
                                                 md_topic := m_topic message;
                                                 md_offset := m_offset message;
                                                 md_timestamp := timestamp |};
                                  team_id := teamId;
                                  distinct_id := rem_distinct_id messagePayload;
                                  session_id := pe_properties event ≫= p_session_id;
                                  window_id := pe_properties event ≫= p_window_id;
                                  events :=
                                    default [] (pe_properties event ≫= p_snapshot_items) |}),
                       [])
                  end
            end
        end
  | _, _ => statusWarn "message value or timestamp is empty"
  end.

(** One turn of the loop over [Object.values(this.sessions)] in
    [commitOffset]. *)
Definition blocking (topic : string) (partition : Z)
    (potentiallyBlockingSession : option SessionManager.t)
    (sessionManager : SessionManager.t) : option SessionManager.t :=
  if bool_decide (SessionManager.partition sessionManager = partition)
     && bool_decide (SessionManager.topic sessionManager = topic)
  then
    match SessionManager.getLowestOffset sessionManager with
    | Some lowestOffset =>
        if JS.ltb (JS.Finite lowestOffset)
             (JS.or_Infinity (potentiallyBlockingSession ≫= SessionManager.getLowestOffset))
        then Some sessionManager
        else potentiallyBlockingSession
    | None => potentiallyBlockingSession
    end
  else potentiallyBlockingSession.

Definition potentiallyBlockingOffset (topic : string) (partition : Z)
    (sessions : list (string * SessionManager.t)) : option Z :=
  foldl (blocking topic partition) None (JSObject.values sessions)
    ≫= SessionManager.getLowestOffset.

Definition highestOffsetToCommit (topic : string) (partition offset : Z)
    (sessions : list (string * SessionManager.t)) : Z :=
  match potentiallyBlockingOffset topic partition sessions with
  | Some blockingOffset => if blockingOffset <? offset then blockingOffset else offset
  | None => offset
  end.

Definition with_lastKnownCommit (v : Z) (metrics : PartitionMetrics) : PartitionMetrics :=
  {| lastMessageTimestamp := lastMessageTimestamp metrics;
     lastMessageOffset := lastMessageOffset metrics;
     lastKnownCommit := Some v |}.

Definition commitOffset (topic : string) (partition offset : Z) (s : Ingester) : Ingester :=
  let topicPartition := (topic, partition) in
  let highest := highestOffsetToCommit topic partition offset (sessions s) in
  let lastKnown := JS.or_0 (partitionAssignments s !! partition ≫= lastKnownCommit) in
  if highest <=? lastKnown then s
  else
    let s1 :=
      match partitionAssignments s !! partition with
      | Some metrics =>
          with_assignments
            (<[partition := with_lastKnownCommit highest metrics]> (partitionAssignments s)) s
      | None => s
      end in
    let s2 := if batchConsumer s1 then log [Commit topic partition (highest + 1)] s1 else s1 in
    let h1 := OffsetHighWaterMarker.add topicPartition HIGH_WATERMARK_KEY highest
                (offsetHighWaterMarker s2) in
    let h2 := OffsetHighWaterMarker.clear topicPartition highest h1 in
    with_marker h2 s2.

Definition destroySessions (sessionsToDestroy : list (string * SessionManager.t))
    (s : Ingester) : Ingester :=
  foldl (λ s entry, log [Destroyed entry.1]
                      (with_sessions (JSObject.delete entry.1 (sessions s)) s))
        s sessionsToDestroy.

(** One turn of the loop of [flushAllReadySessions], with the flush and its
    [finally] run to completion. *)
Definition flushReady (s : Ingester) (entry : string * SessionManager.t) : Ingester :=
  let '(key, sessionManager) := entry in
  let referenceTime :=
    partitionAssignments s !! SessionManager.partition sessionManager ≫= lastMessageTimestamp in
  let skipped := log [Warned "blob_ingester_consumer - no referenceTime for partition"] s in
  match referenceTime with
  | Some referenceTime' =>
      if JS.truthy referenceTime then
        let r := SessionManager.flushIfSessionBufferIsOld (serverConfig s) key (objectStorage s)
                   referenceTime' sessionManager (offsetHighWaterMarker s) in
        let s1 := stored_back key r s in
        if SessionManager.isEmpty r.1.1 then destroySessions [(key, r.1.1)] s1 else s1
      else skipped
  | None => skipped
  end.

Definition flushAllReadySessions (s : Ingester) : Ingester :=
  foldl flushReady s (sessions s).

Definition onAssignPartitions (topicPartitions : list TopicPartition) (s : Ingester) : Ingester :=
  let s1 :=
    foldl (λ s topicPartition,
             with_assignments
               (<[tp_partition topicPartition :=
                    {| lastMessageTimestamp := None; lastMessageOffset := None;
                       lastKnownCommit := None |}]> (partitionAssignments s)) s)
          s topicPartitions in
  log [Claimed ((λ x, (tp_topic x, tp_partition x)) <$> topicPartitions)] s1.

(** The comparator handed to [sort] on revoke: [(x) => x.buffer.oldestKafkaTimestamp ?? Infinity]. *)
Definition revokeComparator (x y : string * SessionManager.t) : JS.Num :=
  JS.nullish_Infinity (SessionManager.oldestKafkaTimestamp (SessionManager.buffer x.2)).

Definition flushOnRevoke (s : Ingester) (entry : string * SessionManager.t) : Ingester :=
  stored_back entry.1
    (SessionManager.flush entry.1 "partition_shutdown" (objectStorage s) entry.2
       (offsetHighWaterMarker s)) s.

Definition revokePartition (s : Ingester) (topicPartition : TopicPartition) : Ingester :=
  let partition := tp_partition topicPartition in
  with_marker
    (OffsetHighWaterMarker.revoke (tp_topic topicPartition, partition) (offsetHighWaterMarker s))
    (with_assignments (delete partition (partitionAssignments s)) s).

Definition onRevokePartitions (topicPartitions : list TopicPartition) (s : Ingester) : Ingester :=
  let revokedPartitions := tp_partition <$> topicPartitions in
  if bool_decide (length revokedPartitions = O) then s
  else
    let sessionsToDrop :=
      filter (λ entry, SessionManager.partition entry.2 ∈ revokedPartitions) (sessions s) in
    let s1 :=
      if SESSION_RECORDING_PARTITION_REVOKE_OPTIMIZATION (serverConfig s)
      then foldl flushOnRevoke s (JSArray.sort revokeComparator sessionsToDrop)
      else s in
    let s2 := foldl revokePartition s1 topicPartitions in
    let s3 :=
      if SESSION_RECORDING_PARTITION_REVOKE_OPTIMIZATION (serverConfig s)
      then log [Released ((λ x, (tp_topic x, tp_partition x)) <$> topicPartitions)] s2
      else s2 in
    destroySessions sessionsToDrop s3.

(** ** ReplayEventsIngester *)

Module ReplayEventsIngester.

(** Modelled from the spec: [services/replay-events-ingester.ts] is not
    among the sources.  Each parsed message that is above the mark of the
    ingester's own logical key is published downstream, and the mark is
    raised to its offset. *)
Definition consumeMessage (s : Ingester) (event : IncomingRecordingMessage) : Ingester :=
  let offset := md_offset (metadata event) in
  let md := metadata event in
  if OffsetHighWaterMarker.isBelowHighWaterMark md REPLAY_HIGH_WATERMARK_KEY offset
       (offsetHighWaterMarker s)
  then s
  else
    log [ReplayPublished
           (session_key (team_id event) (session_id_string (session_id event))) offset]
      (with_marker
         (OffsetHighWaterMarker.add (md_topic md, md_partition md) REPLAY_HIGH_WATERMARK_KEY
            offset (offsetHighWaterMarker s)) s).

Definition consumeBatch (messages : list IncomingRecordingMessage) (s : Ingester) : Ingester :=
  foldl consumeMessage s messages.

End ReplayEventsIngester.

(** The body of the first loop of [handleEachBatch] up to the parse. *)
Definition updateMetrics (message : Message) (s : Ingester) : Ingester :=
  match m_timestamp message, partitionAssignments s !! m_partition message with
  | Some timestamp, Some metrics =>
      if JS.truthy (Some timestamp) then
        with_assignments
          (<[m_partition message :=
               {| lastMessageTimestamp := Some timestamp;
                  lastMessageOffset := Some (m_offset message);
                  lastKnownCommit :=
                    Some (JS.nullish (lastKnownCommit metrics) (m_offset message)) |}]>
             (partitionAssignments s)) s
      else s
  | _, _ => s
  end.

(** [(token) => this.teamsRefresher.get().then((teams) => teams[token] || null)].
    A token the table holds itself yields its id, unless that is [0]; any
    other token is looked up in [Object.prototype], whose members are all
    truthy. *)
Definition getTeamFn (s : Ingester) (token : string) : option TeamId :=
  match teamsRefresher s !! token with
  | Some teamId => if JS.truthy (Some teamId) then Some (Team teamId) else None
  | None => if bool_decide (token ∈ JS.Object_prototype) then Some (Inherited token) else None
  end.

(** The body of the first loop of [handleEachBatch]. *)
Definition parseEach (acc : Ingester * list IncomingRecordingMessage) (message : Message)
    : Ingester * JS.Completion (list IncomingRecordingMessage) :=
  let '(s, recordingMessages) := acc in
  let s1 := updateMetrics message s in
  let '(recordingMessage, es) := parseKafkaMessage message (getTeamFn s1) in
  (log es s1,
   match recordingMessage with
   | JS.Returns (Some m) => JS.Returns (recordingMessages ++ [m])
   | JS.Returns None => JS.Returns recordingMessages
   | JS.Throws error => JS.Throws error
   end).

(** The first loop of [handleEachBatch]: a parse that throws ends it. *)
Fixpoint parseAll (messages : list Message) (acc : Ingester * list IncomingRecordingMessage)
    : Ingester * JS.Completion (list IncomingRecordingMessage) :=
  match messages with
  | [] => (acc.1, JS.Returns acc.2)
  | message :: rest =>
      match parseEach acc message with
      | (s, JS.Returns recordingMessages) => parseAll rest (s, recordingMessages)
      | (s, JS.Throws error) => (s, JS.Throws error)
      end
  end.

Definition commitEach (s : Ingester) (message : Message) : Ingester :=
  commitOffset (m_topic message) (m_partition message) (m_offset message) s.

(** [handleEachBatch].  Nothing in it catches: when a parse throws, the
    batch is given up where it stands and the promise rejects, which is
    logged as [Thrown]. *)
Definition handleEachBatch (messages : list Message) (s : Ingester) : Ingester :=
  let s0 :=
    if SESSION_RECORDING_PARTITION_REVOKE_OPTIMIZATION (serverConfig s)
    then log [Claimed ((λ m, (m_topic m, m_partition m)) <$> messages)] s
    else s in
  match parseAll messages (s0, []) with
  | (s1, JS.Throws error) => log [Thrown error] s1
  | (s1, JS.Returns recordingMessages) =>
      let s2 := foldl (λ s message, consume message s) s1 recordingMessages in
      let s3 := foldl commitEach s2 messages in
      let s4 := ReplayEventsIngester.consumeBatch recordingMessages s3 in
      flushAllReadySessions s4
  end.

(** [Object.keys(this.partitionAssignments).map(parseInt)]: the keys of an
    object that are array indices come in ascending order. *)
Definition assignedPartitions (s : Ingester) : list Z :=
  merge_sort Z.le (map_to_list (partitionAssignments s)).*1.

(** [stop].  [topic] is [this.topic], the constant
    [KAFKA_SESSION_RECORDING_SNAPSHOT_ITEM_EVENTS] of [config/kafka-topics],
    taken as a parameter.  The batch consumer is stopped if there is one,
    the partitions held are revoked, the realtime manager and the replay
    ingester are shut down, and what is left of [sessions] is destroyed.
    The timer of the partition locks, which [stop] clears, is not part of
    the state, and the status line is a progress line like the others. *)
Definition stop (topic : string) (s : Ingester) : Ingester :=
  let s0 := if batchConsumer s then log [ConsumerStopped] s else s in
  let s1 :=
    onRevokePartitions
      ((λ partition, {| tp_topic := topic; tp_partition := partition |})
         <$> assignedPartitions s0) s0 in
  let s2 := log [RealtimeUnsubscribed; ReplayStopped] s1 in
  let s3 := destroySessions (sessions s2) s2 in
  with_sessions [] s3.

(** * Vocabulary of the properties *)

(** ** Reading the effect log *)

(** The offsets handed to the broker for one partition, oldest first.  The
    consumer reads a single topic, so the number names the topic-partition. *)
Definition commits (partition : Z) (es : list Effect) : list Z :=
  omap (λ e, match e with
             | Commit _ p o => if bool_decide (p = partition) then Some o else None
             | _ => None
             end) es.

Definition is_commit (e : Effect) : bool :=
  match e with
  | Commit _ _ _ => true
  | _ => false
  end.

(** The keys whose flush was started, in the order the flushes were started. *)
Definition flushes (es : list Effect) : list string :=
  omap (λ e, match e with
             | FlushStarted key _ => Some key
             | _ => None
             end) es.

(** A stretch of the log without a broker commit. *)
Definition silent (es : list Effect) : Prop :=
  forallb (λ e, negb (is_commit e)) es = true.

(** ** Parsing *)



(** The envelope is in order up to the team: a value and a non-zero
    timestamp, two layers of JSON, the [$snapshot_items] event with a
    non-empty array. *)
Definition well_formed (message : Message) (messagePayload : RawEventMessage) : Prop :=
  ∃ value timestamp event properties items,
    m_value message = Some value
    ∧ m_timestamp message = Some timestamp ∧ timestamp ≠ 0
    ∧ JSON_parse value = Some (Some messagePayload)
    ∧ JSON_parse (rem_data messagePayload) = Some (Some event)
    ∧ pe_event event = "$snapshot_items"
    ∧ pe_properties event = Some properties
    ∧ p_snapshot_items properties = Some items ∧ items ≠ [].

(** The message gets as far as the inner [JSON.parse], and that yields
    [null]. *)
Definition nullData (message : Message) : bool :=
  match m_value message, m_timestamp message with
  | Some value, Some timestamp =>
      JS.truthy (Some timestamp)
      && match JSON_parse value with
         | Some (Some messagePayload) =>
             match JSON_parse (rem_data messagePayload) with
             | Some None => true
             | _ => false
             end
         | _ => false
         end
  | _, _ => false
  end.

(** The message a call has returned, if it has returned one. *)
Definition returned {A} (completion : JS.Completion (option A)) : option A :=
  match completion with
  | JS.Returns a => a
  | JS.Throws _ => None
  end.

(** ** The first loop of a batch *)

(** One turn of the first loop of [handleEachBatch], by what it leaves: the
    state and the messages collected so far. *)
Definition parseStep (acc : Ingester * list IncomingRecordingMessage) (message : Message)
    : Ingester * list IncomingRecordingMessage :=
  let '(s, recordingMessages) := acc in
  let s1 := updateMetrics message s in
  let '(recordingMessage, es) := parseKafkaMessage message (getTeamFn s1) in
  (log es s1,
   match returned recordingMessage with
   | Some m => recordingMessages ++ [m]
   | None => recordingMessages
   end).

(** The messages the first loop gets to: all of them, or those up to and
    including the first one whose parse throws. *)
Fixpoint reached (messages : list Message) : list Message :=
  match messages with
  | [] => []
  | message :: rest => if nullData message then [message] else message :: reached rest
  end.

(** The state in which the first loop of [handleEachBatch] starts. *)
Definition claimed (messages : list Message) (s : Ingester) : Ingester :=
  if SESSION_RECORDING_PARTITION_REVOKE_OPTIMIZATION (serverConfig s)
  then log [Claimed ((λ m, (m_topic m, m_partition m)) <$> messages)] s
  else s.

(** What [handleEachBatch] leaves when no parse throws. *)
Definition completed (messages : list Message) (s : Ingester) : Ingester :=
  let '(s1, recordingMessages) := foldl parseStep (claimed messages s, []) messages in
  let s2 := foldl (λ s message, consume message s) s1 recordingMessages in
  let s3 := foldl commitEach s2 messages in
  let s4 := ReplayEventsIngester.consumeBatch recordingMessages s3 in
  flushAllReadySessions s4.

(** What [handleEachBatch] leaves when a parse throws. *)
Definition aborted (messages : list Message) (s : Ingester) : Ingester :=
  log [Thrown JS.TypeError] (foldl parseStep (claimed messages s, []) (reached messages)).1.

(** ** Marks, quiet steps and blocking offsets *)

(** The partition-global marks of [h'] are at least those of [h]. *)
Definition marks_le (h h' : OffsetHighWaterMarker.t) : Prop :=
  ∀ tp m, OffsetHighWaterMarker.mark tp HIGH_WATERMARK_KEY h = Some m →
          ∃ m', OffsetHighWaterMarker.mark tp HIGH_WATERMARK_KEY h' = Some m' ∧ m ≤ m'.

Record quiet (s s' : Ingester) : Prop := {
  quiet_config : serverConfig s' = serverConfig s;
  quiet_assignments : partitionAssignments s' = partitionAssignments s;
  quiet_teams : teamsRefresher s' = teamsRefresher s;
  quiet_consumer : batchConsumer s' = batchConsumer s;
  quiet_storage : objectStorage s' = objectStorage s;
  quiet_marker : marks_le (offsetHighWaterMarker s) (offsetHighWaterMarker s');
  quiet_effects : ∃ es, effects s' = effects s ++ es ∧ silent es;
}.

Definition raised (s s' : Ingester) : Prop :=
  marks_le (offsetHighWaterMarker s) (offsetHighWaterMarker s').

Definition onPartition (topic : string) (partition : Z) (sm : SessionManager.t) : Prop :=
  SessionManager.partition sm = partition ∧ SessionManager.topic sm = topic.

#[local] Instance onPartition_dec topic partition sm : Decision (onPartition topic partition sm).
Proof. unfold onPartition. apply _. Defined.

(** The lowest un-flushed offsets of the live managers of a topic-partition,
    in the order [Object.values] yields the managers. *)
Definition lowestOffsets (topic : string) (partition : Z)
    (sessions : list (string * SessionManager.t)) : list Z :=
  omap (λ sm, if decide (onPartition topic partition sm)
              then SessionManager.getLowestOffset sm else None)
       (JSObject.values sessions).

(** The loop of [commitOffset] seen through the offset of the manager it
    holds. *)
Definition lower (held : option Z) (lowestOffset : Z) : option Z :=
  if JS.ltb (JS.Finite lowestOffset) (JS.or_Infinity held) then Some lowestOffset else held.

(** The last known commit of a partition after the first loop of
    [handleEachBatch] has seen [messages], all of that partition. *)
Definition knownAfter (known : option Z) (messages : list Message) : option Z :=
  foldl (λ known message,
           if JS.truthy (m_timestamp message)
           then Some (JS.nullish known (m_offset message)) else known)
        known messages.

(** The session would be flushed or removed by [flushAllReadySessions]: its
    partition has a reference time, and its buffer is old, large or empty. *)
Definition due (s : Ingester) (sm : SessionManager.t) : bool :=
  match partitionAssignments s !! SessionManager.partition sm ≫= lastMessageTimestamp with
  | Some referenceTime =>
      JS.truthy (Some referenceTime)
      && (SessionManager.isReady (serverConfig s) referenceTime sm || SessionManager.isEmpty sm)
  | None => false
  end.

(** The state in which [onRevokePartitions] starts to drop the partition
    state: the one it was called in, or the one the flushes leave. *)
Definition flushedOnRevoke (topicPartitions : list TopicPartition) (s : Ingester) : Ingester :=
  if SESSION_RECORDING_PARTITION_REVOKE_OPTIMIZATION (serverConfig s)
  then foldl flushOnRevoke s
         (JSArray.sort revokeComparator
            (filter (λ entry, SessionManager.partition entry.2 ∈ tp_partition <$> topicPartitions)
               (sessions s)))
  else s.

(** ** Sequences of calls *)

(** The entry points of the consumer once it is started. *)
Inductive Call :=
| HandleEachBatch (messages : list Message)
| Consume (event : IncomingRecordingMessage)
| CommitOffset (topic : string) (partition offset : Z)
| FlushAllReadySessions
| OnAssignPartitions (topicPartitions : list TopicPartition)
| OnRevokePartitions (topicPartitions : list TopicPartition).

Definition call (s : Ingester) (c : Call) : Ingester :=
  match c with
  | HandleEachBatch messages => handleEachBatch messages s
  | Consume event => consume event s
  | CommitOffset topic partition offset => commitOffset topic partition offset s
  | FlushAllReadySessions => flushAllReadySessions s
  | OnAssignPartitions topicPartitions => onAssignPartitions topicPartitions s
  | OnRevokePartitions topicPartitions => onRevokePartitions topicPartitions s
  end.

Definition run (calls : list Call) (s : Ingester) : Ingester := foldl call s calls.

(** The call is not a rebalance that touches [partition]. *)
Definition keeps_assigned (partition : Z) (c : Call) : Prop :=
  match c with
  | OnAssignPartitions topicPartitions
  | OnRevokePartitions topicPartitions => partition ∉ tp_partition <$> topicPartitions
  | _ => True
  end.

(** The commits of [partition] logged since [base] are strictly increasing
    and stay within one of the last known commit. *)
Record gated (partition : Z) (base : list Effect) (s : Ingester) : Prop := {
  gated_assigned : is_Some (partitionAssignments s !! partition);
  gated_log :
    ∃ es, effects s = base ++ es
          ∧ StronglySorted Z.lt (commits partition es)
          ∧ match partitionAssignments s !! partition ≫= lastKnownCommit with
            | Some v => Forall (λ o, o ≤ v + 1) (commits partition es)
            | None => commits partition es = []
            end;
}.

(** ** Sample consumers and messages *)

Definition example_config : PluginsServerConfig :=
  {| SESSION_RECORDING_PARTITION_REVOKE_OPTIMIZATION := true;
     SIZE_LIMIT := 1000; AGE_LIMIT := 60000 |}.

Definition example_topic : string := "session_recording_snapshot_item_events".

(** A consumer right after [start], with one team in the token table. *)
Definition started : Ingester :=
  {| serverConfig := example_config; sessions := [];
     offsetHighWaterMarker := ∅; partitionAssignments := ∅;
     teamsRefresher := {["phc_token" := 2]};
     batchConsumer := true; objectStorage := true; effects := [] |}.

(** The object store becomes reachable or unreachable. *)
Definition with_storage (v : bool) (s : Ingester) : Ingester :=
  {| serverConfig := serverConfig s; sessions := sessions s;
     offsetHighWaterMarker := offsetHighWaterMarker s;
     partitionAssignments := partitionAssignments s;
     teamsRefresher := teamsRefresher s; batchConsumer := batchConsumer s;
     objectStorage := v; effects := effects s |}.

Definition snapshot (partition offset timestamp : Z) (session : string) : Message :=
  {| m_value :=
       Some (Encodes
               {| rem_team_id := None; rem_token := Some "phc_token";
                  rem_distinct_id := "user";
                  rem_data :=
                    Encodes {| pe_event := "$snapshot_items";
                               pe_properties :=
                                 Some {| p_snapshot_items := Some ["{}"];
                                         p_session_id := Some session;
                                         p_window_id := None |} |} |});
     m_timestamp := Some timestamp;
     m_partition := partition; m_topic := example_topic; m_offset := offset |}.

Definition malformed (partition offset timestamp : Z) : Message :=
  {| m_value := Some Malformed; m_timestamp := Some timestamp;
     m_partition := partition; m_topic := example_topic; m_offset := offset |}.

(** A malformed payload that comes without a timestamp. *)
Definition untimed (partition offset : Z) : Message :=
  {| m_value := Some Malformed; m_timestamp := None;
     m_partition := partition; m_topic := example_topic; m_offset := offset |}.

(** An envelope in order whose [data] is the JSON text [null]. *)
Definition null_data (partition offset timestamp : Z) : Message :=
  {| m_value :=
       Some (Encodes
               {| rem_team_id := None; rem_token := Some "phc_token";
                  rem_distinct_id := "user"; rem_data := Null |});
     m_timestamp := Some timestamp;
     m_partition := partition; m_topic := example_topic; m_offset := offset |}.

Definition recording (partition offset timestamp : Z) (session : string)
    : IncomingRecordingMessage :=
  {| metadata := {| md_partition := partition; md_topic := example_topic;
                    md_offset := offset; md_timestamp := timestamp |};
     team_id := 2; distinct_id := "user"; session_id := Some session;
     window_id := None; events := ["{}"] |}.

Definition assigned (partitions : list Z) : Ingester :=
  onAssignPartitions
    ((λ p, {| tp_topic := example_topic; tp_partition := p |}) <$> partitions) started.




(** Two partitions, one session on each.  The session of partition 1 was
    created first and its buffer starts at timestamp 2000; the session of
    partition 0 starts at timestamp 1000. *)
Definition two_sessions : Ingester :=
  handleEachBatch [snapshot 1 7 2000 "x"; snapshot 0 3 1000 "y"] (assigned [0; 1]).

Definition both_partitions : list TopicPartition :=
  [{| tp_topic := example_topic; tp_partition := 0 |};
   {| tp_topic := example_topic; tp_partition := 1 |}].

(** A consumer whose last flush failed: while the object store was
    unreachable, a batch left session [a] with a buffer that starts at
    timestamp 1000 and moved the reference time of its partition to 62000;
    the store is reachable again. *)
Definition stalled : Ingester :=
  with_storage true
    (handleEachBatch [snapshot 0 10 1000 "a"; malformed 0 11 62000]
       (with_storage false (assigned [0]))).

(** Partition 0 is assigned and the marker holds offset 50 for session [b]. *)
Definition replayed : Ingester :=
  with_marker (OffsetHighWaterMarker.add (example_topic, 0) "b" 50 ∅) (assigned [0]).

(** ** Managers, keys and reference times *)

(** The reference time [flushAllReadySessions] reads for a manager. *)
Definition referenceTime (s : Ingester) (sm : SessionManager.t) : option Z :=
  partitionAssignments s !! SessionManager.partition sm ≫= lastMessageTimestamp.

(** Every manager sits under the key of the team and session it was created
    for. *)
Definition keyed (s : Ingester) : Prop :=
  ∀ key sm, (key, sm) ∈ sessions s →
    key = session_key (SessionManager.teamId sm) (SessionManager.sessionId sm).

(** Every commit in [es] is for the topic-partition of one of [messages] and
    hands the broker at most that message's offset plus one. *)
Definition within (messages : list Message) (es : list Effect) : Prop :=
  ∀ topic partition offset, Commit topic partition offset ∈ es →
    ∃ m, m ∈ messages ∧ m_topic m = topic ∧ m_partition m = partition
         ∧ offset ≤ m_offset m + 1.

(** [!!referenceTime] for the partition of a manager. *)
Definition hasReference (s : Ingester) (sm : SessionManager.t) : bool :=
  JS.truthy (referenceTime s sm).

(** What a manager is constructed with and never changes. *)
Definition identity (sm : SessionManager.t) : TeamId * string * Z * string :=
  (SessionManager.teamId sm, SessionManager.sessionId sm,
   SessionManager.partition sm, SessionManager.topic sm).

(** The last message of [messages] on [partition] that carries a timestamp. *)
Definition lastTimestamped (partition : Z) (messages : list Message) : option Message :=
  last (filter (λ m, m_partition m = partition ∧ JS.truthy (m_timestamp m) = true) messages).

(** The last message seen on a partition, as the metrics record it. *)
Definition lastSeen (partition : Z) (s : Ingester) : option Z * option Z :=
  (partitionAssignments s !! partition ≫= lastMessageTimestamp,
   partitionAssignments s !! partition ≫= lastMessageOffset).

(** The keys of the messages of a batch that the parser lets through. *)
Definition acceptedKeys (messages : list Message) (s : Ingester) : list string :=
  (λ parsed, session_key (team_id parsed) (session_id_string (session_id parsed)))
    <$> omap (λ m, returned (parseKafkaMessage m (getTeamFn s)).1) messages.

(** What [flushAllReadySessions] has done, once it has left the state [s']
    and logged [es], about a manager it found under [key] on a partition
    with the reference time [reference]: a flush was started if the buffer
    was due; an empty manager was destroyed and removed; and when the object
    store took the upload of a buffer that was due, the emptied manager was
    destroyed and removed and the partition's mark stands at the highest
    offset of the buffer or above. *)
Definition settled (cfg : PluginsServerConfig) (stored : bool) (reference : Z)
    (key : string) (sm : SessionManager.t) (s' : Ingester) (es : list Effect) : Prop :=
  (SessionManager.isReady cfg reference sm = true → FlushStarted key "buffer_age" ∈ es)
  ∧ (SessionManager.isEmpty sm = true →
     JSObject.get key (sessions s') = None ∧ Destroyed key ∈ es)
  ∧ (∀ lo hi,
       SessionManager.isReady cfg reference sm = true → stored = true →
       SessionManager.offsets (SessionManager.buffer sm) = Some (lo, hi) →
       Uploaded key lo hi ∈ es
       ∧ JSObject.get key (sessions s') = None ∧ Destroyed key ∈ es
       ∧ ∃ m, OffsetHighWaterMarker.mark
                (SessionManager.topic sm, SessionManager.partition sm) HIGH_WATERMARK_KEY
                (offsetHighWaterMarker s') = Some m
              ∧ hi ≤ m).

(** ** Tactics *)

(** Case analysis on every scrutinee of the goal. *)
Ltac destruct_matches :=
  repeat match goal with
         | |- context [match ?x with _ => _ end] => destruct x eqn:?; simpl in *
         end.

(** The three facts about the log of the parser, in a branch that returns
    after a single warning. *)
Ltac parse_warned Hwarn :=
  simpl;
  (split; [split; [discriminate|intros [[? ?]|?]; discriminate]|]);
  (split; [eauto|]);
  let cause := fresh "cause" in
  let H := fresh "H" in
  intros cause H; by apply Hwarn in H.

(** * Properties *)

Lemma JS_or_0_default x : JS.or_0 x = default 0 x.
Proof.
  destruct x as [v|]; simpl; [|reflexivity].
  destruct (Z.eqb_spec v 0); simpl; congruence.
Qed.

(** ** Reading the effect log *)

Lemma commits_app partition es1 es2 :
  commits partition (es1 ++ es2) = commits partition es1 ++ commits partition es2.
Proof. apply omap_app. Qed.

Lemma commits_silent partition es : silent es → commits partition es = [].
Proof.
  unfold silent. induction es as [|e es IH]; simpl; [reflexivity|].
  intros H. apply andb_prop in H as [He Hes].
  destruct e; simpl in *; try discriminate; auto.
Qed.

Lemma log_nil s : log [] s = s.
Proof. destruct s. unfold log. simpl. by rewrite app_nil_r. Qed.

Lemma log_log es1 es2 s : log es2 (log es1 s) = log (es1 ++ es2) s.
Proof. unfold log. simpl. by rewrite app_assoc. Qed.

Lemma silent_app es1 es2 : silent es1 → silent es2 → silent (es1 ++ es2).
Proof. unfold silent. intros H1 H2. rewrite forallb_app, H1, H2. reflexivity. Qed.

(** ** The high-water-mark check in [consume] *)

Lemma isBelowHighWaterMark_spec md key offset h :
  OffsetHighWaterMarker.isBelowHighWaterMark md key offset h = true
  ↔ ∃ m, OffsetHighWaterMarker.mark (md_topic md, md_partition md) key h = Some m ∧ offset ≤ m.
Proof.
  unfold OffsetHighWaterMarker.isBelowHighWaterMark.
  destruct (OffsetHighWaterMarker.mark _ key h) as [m|]; split.
  - intros H. exists m. split; [reflexivity|]. by apply Z.leb_le.
  - intros (m' & [= <-] & Hle). by apply Z.leb_le.
  - discriminate.
  - intros (m' & [=] & _).
Qed.

Lemma consume_below_mark (event : IncomingRecordingMessage) (s : Ingester) (m : Z) :
  let md := metadata event in
  let tp := (md_topic md, md_partition md) in
  OffsetHighWaterMarker.mark tp (session_id_string (session_id event))
    (offsetHighWaterMarker s) = Some m
  ∨ OffsetHighWaterMarker.mark tp HIGH_WATERMARK_KEY (offsetHighWaterMarker s) = Some m →
  md_offset md ≤ m →
  ∃ cause,
    (cause = "high_water_mark" ∨ cause = "high_water_mark_partition")
    ∧ consume event s = log [Dropped cause] s.
Proof.
  intros md tp Hmark Hle. unfold consume.
  destruct (OffsetHighWaterMarker.isBelowHighWaterMark (metadata event)
              (session_id_string (session_id event)) _ _) eqn:Hsession.
  { exists "high_water_mark". auto. }
  destruct (OffsetHighWaterMarker.isBelowHighWaterMark (metadata event)
              HIGH_WATERMARK_KEY _ _) eqn:Hpartition.
  { exists "high_water_mark_partition". auto. }
  exfalso. destruct Hmark as [Hm|Hm].
  - assert (OffsetHighWaterMarker.isBelowHighWaterMark (metadata event)
              (session_id_string (session_id event)) (md_offset (metadata event))
              (offsetHighWaterMarker s) = true) as Habs
      by (apply isBelowHighWaterMark_spec; eauto).
    congruence.
  - assert (OffsetHighWaterMarker.isBelowHighWaterMark (metadata event)
              HIGH_WATERMARK_KEY (md_offset (metadata event))
              (offsetHighWaterMarker s) = true) as Habs
      by (apply isBelowHighWaterMark_spec; eauto).
    congruence.
Qed.

(** C3.  An event whose offset is at or below the mark stored for its session
    id, or at or below the mark stored for the partition-global key, is
    dropped by [consume]: the dropped counter is incremented once, with cause
    [high_water_mark] or [high_water_mark_partition], and nothing else
    happens; in particular no session manager is created and none receives
    the event. *)
Theorem consume_drops_below_high_water_mark
    (event : IncomingRecordingMessage) (s : Ingester) (m : Z) :
  let md := metadata event in
  let tp := (md_topic md, md_partition md) in
  OffsetHighWaterMarker.mark tp (session_id_string (session_id event))
    (offsetHighWaterMarker s) = Some m
  ∨ OffsetHighWaterMarker.mark tp HIGH_WATERMARK_KEY (offsetHighWaterMarker s) = Some m →
  md_offset md ≤ m →
  ∃ cause,
    (cause = "high_water_mark" ∨ cause = "high_water_mark_partition")
    ∧ consume event s = log [Dropped cause] s
    ∧ sessions (consume event s) = sessions s
    ∧ effects (consume event s) = effects s ++ [Dropped cause].
Proof.
  intros md tp Hmark Hle.
  destruct (consume_below_mark event s m Hmark Hle) as (cause & Hcause & Hconsume).
  exists cause. rewrite Hconsume. auto.
Qed.

(** ** [parseKafkaMessage] *)

Lemma parseKafkaMessage_null message getTeamFn :
  nullData message = true → parseKafkaMessage message getTeamFn = (JS.Throws JS.TypeError, []).
Proof.
  unfold parseKafkaMessage, nullData, statusWarn.
  destruct (m_value message) as [value|]; [|discriminate].
  destruct (m_timestamp message) as [timestamp|]; [|discriminate].
  destruct (JS.truthy (Some timestamp)); [|discriminate]. simpl.
  destruct (JSON_parse value) as [[messagePayload|]|]; try discriminate.
  by destruct (JSON_parse (rem_data messagePayload)) as [[event|]|].
Qed.

Lemma parseKafkaMessage_returns message getTeamFn :
  nullData message = false →
  (parseKafkaMessage message getTeamFn).1
  = JS.Returns (returned (parseKafkaMessage message getTeamFn).1).
Proof.
  unfold parseKafkaMessage, nullData, statusWarn.
  destruct (m_value message) as [value|]; [|done].
  destruct (m_timestamp message) as [timestamp|]; [|done].
  destruct (JS.truthy (Some timestamp)); [|done]. simpl.
  destruct (JSON_parse value) as [[messagePayload|]|]; try done.
  destruct (JSON_parse (rem_data messagePayload)) as [[event|]|]; try done.
  intros _. destruct_matches; reflexivity.
Qed.




(** ** The marker *)

Lemma marks_le_refl h : marks_le h h.
Proof. intros tp m H. exists m. split; [done|lia]. Qed.

Lemma marks_le_trans h1 h2 h3 : marks_le h1 h2 → marks_le h2 h3 → marks_le h1 h3.
Proof.
  intros H12 H23 tp m H. destruct (H12 _ _ H) as (m2 & H2 & Hle2).
  destruct (H23 _ _ H2) as (m3 & H3 & Hle3). exists m3. split; [done|lia].
Qed.

#[local] Instance marks_le_preorder : PreOrder marks_le.
Proof. split; [exact marks_le_refl | exact marks_le_trans]. Qed.

Lemma mark_add tp key offset h tp' key' :
  OffsetHighWaterMarker.mark tp' key' (OffsetHighWaterMarker.add tp key offset h)
  = if decide (tp = tp' ∧ key = key')
    then Some (match OffsetHighWaterMarker.mark tp key h with
               | Some m => Z.max m offset
               | None => offset
               end)
    else OffsetHighWaterMarker.mark tp' key' h.
Proof.
  unfold OffsetHighWaterMarker.mark, OffsetHighWaterMarker.add,
    OffsetHighWaterMarker.getWaterMarks, OffsetHighWaterMarker.t in *.
  destruct (decide (tp = tp')) as [<-|Htp].
  - rewrite lookup_insert_eq. simpl.
    destruct (decide (key = key')) as [<-|Hkey].
    + rewrite lookup_insert_eq. by rewrite decide_True.
    + rewrite lookup_insert_ne by done. rewrite decide_False by (intros [? ?]; done). done.
  - rewrite lookup_insert_ne by done. rewrite decide_False by (intros [? ?]; done). done.
Qed.

Lemma mark_clear tp up_to h tp' key :
  OffsetHighWaterMarker.mark tp' key (OffsetHighWaterMarker.clear tp up_to h)
  = match OffsetHighWaterMarker.mark tp' key h with
    | Some m =>
        if decide (tp = tp' ∧ ¬ (OffsetHighWaterMarker.fixed_key key ∨ up_to < m))
        then None else Some m
    | None => None
    end.
Proof.
  unfold OffsetHighWaterMarker.mark, OffsetHighWaterMarker.clear,
    OffsetHighWaterMarker.getWaterMarks, OffsetHighWaterMarker.t in *.
  destruct (decide (tp = tp')) as [<-|Htp].
  - destruct (h !! tp) as [marks|] eqn:Hmarks; simpl.
    + rewrite lookup_insert_eq. simpl.
      destruct (marks !! key) as [m|] eqn:Hm.
      * destruct (decide (OffsetHighWaterMarker.fixed_key key ∨ up_to < m)) as [Hkeep|Hdrop].
        -- rewrite decide_False by (intros [? ?]; done).
           apply map_lookup_filter_Some. done.
        -- rewrite decide_True by done.
           apply map_lookup_filter_None. right. intros x Hx. rewrite Hm in Hx.
           injection Hx as <-. done.
      * apply map_lookup_filter_None. left. done.
    + rewrite Hmarks. simpl. by rewrite lookup_empty.
  - assert ((match h !! tp with
             | Some marks =>
                 <[tp := filter (λ kv, OffsetHighWaterMarker.fixed_key kv.1 ∨ up_to < kv.2)
                           marks]> h
             | None => h
             end) !! tp' = h !! tp') as ->.
    { destruct (h !! tp); [by rewrite lookup_insert_ne|done]. }
    destruct (default ∅ (h !! tp') !! key); [|done].
    rewrite decide_False by (intros [? ?]; done). done.
Qed.

Lemma marks_le_add tp key offset h : marks_le h (OffsetHighWaterMarker.add tp key offset h).
Proof.
  intros tp' m H. rewrite mark_add.
  destruct (decide _) as [[<- ->]|_]; [|exists m; split; [done|lia]].
  rewrite H. eexists. split; [reflexivity|lia].
Qed.

Lemma marks_le_clear tp up_to h : marks_le h (OffsetHighWaterMarker.clear tp up_to h).
Proof.
  intros tp' m H. rewrite mark_clear, H.
  rewrite decide_False; [exists m; split; [done|lia]|].
  intros [_ Hno]. apply Hno. left. by left.
Qed.

Lemma flush_raises key reason stored sm h :
  marks_le h (SessionManager.flush key reason stored sm h).1.2.
Proof.
  unfold SessionManager.flush.
  destruct (SessionManager.offsets _) as [[lo hi]|]; [destruct stored|]; simpl;
    try reflexivity.
  etransitivity; apply marks_le_add.
Qed.

Lemma add_raises cfg key stored msg sm h :
  marks_le h (SessionManager.add cfg key stored msg sm h).1.2.
Proof.
  unfold SessionManager.add.
  destruct (SIZE_LIMIT cfg <=? _); [|reflexivity].
  pose proof (flush_raises key "buffer_size" stored
                (SessionManager.with_buffer
                   (SessionManager.append msg (SessionManager.buffer sm)) sm) h) as H.
  by destruct (SessionManager.flush _ _ _ _ _) as [[sm2 h2] es].
Qed.

Lemma flushIfSessionBufferIsOld_raises cfg key stored referenceTime sm h :
  marks_le h (SessionManager.flushIfSessionBufferIsOld cfg key stored referenceTime sm h).1.2.
Proof.
  unfold SessionManager.flushIfSessionBufferIsOld.
  destruct (SessionManager.isReady _ _ _); [apply flush_raises|reflexivity].
Qed.

(** ** Steps that leave the partition metrics alone and commit nothing *)

Lemma quiet_refl s : quiet s s.
Proof. split; try reflexivity. exists []. split; [by rewrite app_nil_r|reflexivity]. Qed.

Lemma quiet_trans s1 s2 s3 : quiet s1 s2 → quiet s2 s3 → quiet s1 s3.
Proof.
  intros [? ? ? ? ? ? (es1 & He1 & Hs1)] [? ? ? ? ? ? (es2 & He2 & Hs2)].
  split; try congruence.
  - by etransitivity.
  - exists (es1 ++ es2). split; [|by apply silent_app].
    rewrite He2, He1. by rewrite app_assoc.
Qed.

#[local] Instance quiet_preorder : PreOrder quiet.
Proof. split; [exact quiet_refl | exact quiet_trans]. Qed.

Lemma foldl_preorder {A B} (R : relation A) `{!PreOrder R} (f : A → B → A) :
  (∀ a b, R a (f a b)) → ∀ l a, R a (foldl f a l).
Proof.
  intros Hf l. induction l as [|b l IH]; intros a; simpl; [reflexivity|].
  etransitivity; [apply Hf | apply IH].
Qed.

Lemma quiet_log es s : silent es → quiet s (log es s).
Proof. intros H. split; try reflexivity. exists es. auto. Qed.

Lemma quiet_with_sessions v s : quiet s (with_sessions v s).
Proof. split; try reflexivity. exists []. split; [by rewrite app_nil_r|reflexivity]. Qed.

Lemma quiet_with_marker v s :
  marks_le (offsetHighWaterMarker s) v → quiet s (with_marker v s).
Proof.
  intros H. split; try reflexivity; [exact H|].
  exists []. split; [by rewrite app_nil_r|reflexivity].
Qed.

Lemma quiet_stored_back key r s :
  silent r.2 → marks_le (offsetHighWaterMarker s) r.1.2 → quiet s (stored_back key r s).
Proof.
  destruct r as [[sm h] es]. simpl. intros H Hm. unfold stored_back.
  split; try reflexivity; [exact Hm|]. exists es. auto.
Qed.

Lemma flush_silent key reason stored sm h :
  silent (SessionManager.flush key reason stored sm h).2.
Proof.
  unfold SessionManager.flush.
  destruct (SessionManager.offsets _) as [[lo hi]|]; [destruct stored|]; reflexivity.
Qed.

Lemma add_silent cfg key stored msg sm h :
  silent (SessionManager.add cfg key stored msg sm h).2.
Proof.
  unfold SessionManager.add.
  destruct (SIZE_LIMIT cfg <=? _); [|reflexivity].
  pose proof (flush_silent key "buffer_size" stored
                (SessionManager.with_buffer
                   (SessionManager.append msg (SessionManager.buffer sm)) sm) h) as H.
  destruct (SessionManager.flush _ _ _ _ _) as [[sm2 h2] es]. simpl in *.
  by apply (silent_app [_]).
Qed.

Lemma flushIfSessionBufferIsOld_silent cfg key stored referenceTime sm h :
  silent (SessionManager.flushIfSessionBufferIsOld cfg key stored referenceTime sm h).2.
Proof.
  unfold SessionManager.flushIfSessionBufferIsOld.
  destruct (SessionManager.isReady _ _ _); [apply flush_silent|reflexivity].
Qed.

Lemma quiet_destroySessions l s : quiet s (destroySessions l s).
Proof.
  unfold destroySessions. apply (foldl_preorder quiet). intros a b.
  etransitivity; [apply quiet_with_sessions|]. by apply quiet_log.
Qed.

Lemma quiet_consume event s : quiet s (consume event s).
Proof.
  unfold consume.
  destruct (OffsetHighWaterMarker.isBelowHighWaterMark _ _ _ _); [by apply quiet_log|].
  destruct (OffsetHighWaterMarker.isBelowHighWaterMark _ _ _ _); [by apply quiet_log|].
  set (s1 := match JSObject.get _ (sessions s) with Some _ => s | None => _ end).
  assert (quiet s s1) as H1.
  { subst s1. destruct (JSObject.get _ (sessions s)); [reflexivity|].
    etransitivity; [apply quiet_with_sessions|]. by apply quiet_log. }
  destruct (JSObject.get _ (sessions s1)); [|exact H1].
  etransitivity; [exact H1|].
  apply quiet_stored_back; [apply add_silent|apply add_raises].
Qed.

Lemma quiet_flushReady s entry : quiet s (flushReady s entry).
Proof.
  unfold flushReady. destruct entry as [key sm].
  destruct (_ ≫= lastMessageTimestamp) as [referenceTime|]; [|by apply quiet_log].
  destruct (JS.truthy _); [|by apply quiet_log].
  set (r := SessionManager.flushIfSessionBufferIsOld _ _ _ _ _ _).
  assert (quiet s (stored_back key r s)) as H
    by (apply quiet_stored_back;
        [apply flushIfSessionBufferIsOld_silent|apply flushIfSessionBufferIsOld_raises]).
  destruct (SessionManager.isEmpty _); [|exact H].
  etransitivity; [exact H|]. apply quiet_destroySessions.
Qed.

Lemma quiet_flushAllReadySessions s : quiet s (flushAllReadySessions s).
Proof. unfold flushAllReadySessions. apply (foldl_preorder quiet), quiet_flushReady. Qed.

Lemma quiet_consumeBatch messages s : quiet s (ReplayEventsIngester.consumeBatch messages s).
Proof.
  unfold ReplayEventsIngester.consumeBatch. apply (foldl_preorder quiet). intros a b.
  unfold ReplayEventsIngester.consumeMessage.
  destruct (OffsetHighWaterMarker.isBelowHighWaterMark _ _ _ _); [reflexivity|].
  etransitivity; [apply quiet_with_marker, marks_le_add|]. by apply quiet_log.
Qed.

Lemma quiet_flushOnRevoke s entry : quiet s (flushOnRevoke s entry).
Proof.
  unfold flushOnRevoke. apply quiet_stored_back; [apply flush_silent|apply flush_raises].
Qed.

(** ** The offset [commitOffset] settles on *)

Lemma blocking_step topic partition pbs sm :
  blocking topic partition pbs sm ≫= SessionManager.getLowestOffset
  = match (if decide (onPartition topic partition sm)
           then SessionManager.getLowestOffset sm else None) with
    | Some lowestOffset => lower (pbs ≫= SessionManager.getLowestOffset) lowestOffset
    | None => pbs ≫= SessionManager.getLowestOffset
    end.
Proof.
  unfold blocking, onPartition.
  destruct (decide _) as [[Hp Ht]|Hno].
  - rewrite !bool_decide_eq_true_2 by done. simpl.
    destruct (SessionManager.getLowestOffset sm) as [lo|] eqn:Hlo; simpl; [|reflexivity].
    unfold lower, JS.ltb.
    destruct (JS.or_Infinity _) as [y|]; [destruct (lo <? y)|]; simpl;
      rewrite ?Hlo; reflexivity.
  - destruct (bool_decide (SessionManager.partition sm = partition)) eqn:Hp; simpl;
      [|reflexivity].
    destruct (bool_decide (SessionManager.topic sm = topic)) eqn:Ht; simpl; [|reflexivity].
    apply bool_decide_eq_true in Hp, Ht. by destruct Hno.
Qed.

Lemma blocking_lower topic partition l pbs :
  foldl (blocking topic partition) pbs l ≫= SessionManager.getLowestOffset
  = foldl lower (pbs ≫= SessionManager.getLowestOffset)
      (omap (λ sm, if decide (onPartition topic partition sm)
                   then SessionManager.getLowestOffset sm else None) l).
Proof.
  revert pbs. induction l as [|sm l IH]; intros pbs; simpl; [reflexivity|].
  rewrite IH, blocking_step.
  by destruct (if decide _ then _ else _).
Qed.

Lemma potentiallyBlockingOffset_lower topic partition sessions :
  potentiallyBlockingOffset topic partition sessions
  = foldl lower None (lowestOffsets topic partition sessions).
Proof. unfold potentiallyBlockingOffset, lowestOffsets. by rewrite blocking_lower. Qed.

Lemma lower_fold_le los held b :
  held ≠ Some 0 → 0 ∉ los →
  foldl lower held los = Some b →
  (∀ h, held = Some h → b ≤ h) ∧ (∀ x, x ∈ los → b ≤ x).
Proof.
  revert held. induction los as [|lo los IH]; intros held Hheld Hzero; simpl.
  - intros ->. split; [intros h [= ->]; lia | intros x Hx; by apply elem_of_nil in Hx].
  - intros Hfold. apply not_elem_of_cons in Hzero as [Hlo Hzero].
    assert (lower held lo ≠ Some 0) as Hnext.
    { unfold lower. destruct (JS.ltb _ _); [|done]. intros [= ->]. done. }
    destruct (IH _ Hnext Hzero Hfold) as [Hb Hxs].
    assert ((∀ h, held = Some h → b ≤ h) ∧ b ≤ lo) as [Hh Hle].
    { unfold lower in Hb. unfold JS.or_Infinity, JS.truthy in Hb.
      destruct held as [h|]; simpl in Hb.
      - destruct (Z.eqb_spec h 0) as [->|Hne]; [done|]. simpl in Hb.
        destruct (Z.ltb_spec lo h).
        + specialize (Hb lo eq_refl). split; [intros ? [= <-]|]; lia.
        + specialize (Hb h eq_refl). split; [intros ? [= <-]|]; lia.
      - specialize (Hb lo eq_refl). split; [done|lia]. }
    split; [exact Hh|]. intros x Hx. apply elem_of_cons in Hx as [->|Hx]; auto.
Qed.

Lemma lower_fold_some los held : is_Some held → is_Some (foldl lower held los).
Proof.
  revert held. induction los as [|lo los IH]; intros held Hheld; simpl; [done|].
  apply IH. unfold lower. destruct (JS.ltb _ _); [eauto|done].
Qed.

Lemma highestOffsetToCommit_le_offset topic partition offset sessions :
  highestOffsetToCommit topic partition offset sessions ≤ offset.
Proof.
  unfold highestOffsetToCommit.
  destruct (potentiallyBlockingOffset _ _ _) as [b|]; [|lia].
  destruct (Z.ltb_spec b offset); lia.
Qed.

(** As long as no live manager of the topic-partition holds offset 0, the
    offset settled on is at most every lowest un-flushed offset. *)
Lemma highestOffsetToCommit_le_lowest topic partition offset sessions x :
  0 ∉ lowestOffsets topic partition sessions →
  x ∈ lowestOffsets topic partition sessions →
  highestOffsetToCommit topic partition offset sessions ≤ x.
Proof.
  intros Hzero Hx. unfold highestOffsetToCommit.
  rewrite potentiallyBlockingOffset_lower.
  destruct (foldl lower None _) as [b|] eqn:Hfold.
  - assert (None ≠ Some 0) as Hnone by discriminate.
    destruct (lower_fold_le _ _ _ Hnone Hzero Hfold) as [_ Hle].
    specialize (Hle x Hx). destruct (Z.ltb_spec b offset); lia.
  - exfalso. destruct (lowestOffsets topic partition sessions) as [|lo los];
      [by apply elem_of_nil in Hx|].
    simpl in Hfold. assert (is_Some (foldl lower (lower None lo) los)) as [? Hs]
      by (apply lower_fold_some; unfold lower; simpl; eauto).
    congruence.
Qed.

Lemma highestOffsetToCommit_unblocked topic partition offset sessions :
  lowestOffsets topic partition sessions = [] →
  highestOffsetToCommit topic partition offset sessions = offset.
Proof.
  intros H. unfold highestOffsetToCommit.
  by rewrite potentiallyBlockingOffset_lower, H.
Qed.

(** ** Commits against live buffers *)

(** C1, at the first offset of a partition.  Partition 0 has just been
    assigned and its first batch holds offset 0 for session [a] and offset 5
    for session [b]; neither buffer is flushed.  The loop of [commitOffset]
    reads the held offset 0 as missing, lets session [b] take its place, and
    the consumer commits 5 (6 to the broker) while session [a] still holds
    offset 0. *)
Theorem commit_passes_lowest_offset_zero :
  let s' := handleEachBatch [snapshot 0 0 1000 "a"; snapshot 0 5 1000 "b"] (assigned [0]) in
  lowestOffsets example_topic 0 (sessions s') = [0; 5]
  ∧ highestOffsetToCommit example_topic 0 5 (sessions s') = 5
  ∧ commits 0 (effects s') = [6]
  ∧ partitionAssignments s' !! 0 ≫= lastKnownCommit = Some 5.
Proof. vm_compute. auto. Qed.

(** C2, on a freshly assigned partition.  The batch holds a malformed payload
    at offset 99 and a snapshot for session [d] at offset 100, which stays in
    the buffer.  The consumer records 100 as committed and hands 101 to the
    broker while the lowest un-flushed offset of [d] is 100. *)
Theorem commit_reaches_lowest_offset :
  let s' := handleEachBatch [malformed 0 99 1000; snapshot 0 100 1000 "d"] (assigned [0]) in
  lowestOffsets example_topic 0 (sessions s') = [100]
  ∧ commits 0 (effects s') = [101]
  ∧ partitionAssignments s' !! 0 ≫= lastKnownCommit = Some 100.
Proof. vm_compute. auto. Qed.

(** ** What one call of [commitOffset] does *)

Lemma commitOffset_skips topic partition offset s :
  highestOffsetToCommit topic partition offset (sessions s)
  ≤ JS.or_0 (partitionAssignments s !! partition ≫= lastKnownCommit) →
  commitOffset topic partition offset s = s.
Proof. intros H. unfold commitOffset. by rewrite (proj2 (Z.leb_le _ _) H). Qed.

Lemma commitOffset_commits topic partition offset s :
  let highest := highestOffsetToCommit topic partition offset (sessions s) in
  JS.or_0 (partitionAssignments s !! partition ≫= lastKnownCommit) < highest →
  let s' := commitOffset topic partition offset s in
  effects s' = effects s ++ (if batchConsumer s then [Commit topic partition (highest + 1)] else [])
  ∧ partitionAssignments s'
    = match partitionAssignments s !! partition with
      | Some metrics => <[partition := with_lastKnownCommit highest metrics]> (partitionAssignments s)
      | None => partitionAssignments s
      end
  ∧ offsetHighWaterMarker s'
    = OffsetHighWaterMarker.clear (topic, partition) highest
        (OffsetHighWaterMarker.add (topic, partition) HIGH_WATERMARK_KEY highest
           (offsetHighWaterMarker s))
  ∧ sessions s' = sessions s
  ∧ serverConfig s' = serverConfig s ∧ teamsRefresher s' = teamsRefresher s
  ∧ batchConsumer s' = batchConsumer s ∧ objectStorage s' = objectStorage s.
Proof.
  intros highest Hlt s'. subst s'. unfold commitOffset. fold highest.
  rewrite (proj2 (Z.leb_gt _ _) Hlt).
  destruct (partitionAssignments s !! partition) as [metrics|]; simpl;
    destruct (batchConsumer s) eqn:Hb; simpl;
    rewrite ?app_nil_r, ?Hb; repeat split; reflexivity.
Qed.

(** ** Sequences of calls *)

Lemma StronglySorted_snoc (l : list Z) (x : Z) :
  StronglySorted Z.lt l → Forall (λ o, o < x) l → StronglySorted Z.lt (l ++ [x]).
Proof.
  induction 1 as [|y l Hl IH Hy]; intros Hx; simpl.
  - repeat constructor.
  - apply Forall_cons in Hx as [Hyx Hx]. constructor; [by apply IH|].
    apply Forall_app. split; [exact Hy|]. by repeat constructor.
Qed.

Lemma gated_calm partition base s s' :
  gated partition base s →
  partitionAssignments s' !! partition = partitionAssignments s !! partition →
  (∃ es, effects s' = effects s ++ es ∧ silent es) →
  gated partition base s'.
Proof.
  intros [Ha (es & He & Hsorted & Hbound)] Hpa (es' & He' & Hsilent).
  split; [by rewrite Hpa|].
  exists (es ++ es'). rewrite He', He, app_assoc, Hpa, commits_app.
  rewrite (commits_silent _ _ Hsilent), app_nil_r. auto.
Qed.

Lemma gated_quiet partition base s s' :
  gated partition base s → quiet s s' → gated partition base s'.
Proof.
  intros Hg [? Hpa ? ? ? ? He]. apply (gated_calm _ _ s); [done| |done]. by rewrite Hpa.
Qed.

Lemma gated_updateMetrics partition base message s :
  gated partition base s → gated partition base (updateMetrics message s).
Proof.
  intros [Ha (es & He & Hsorted & Hbound)]. unfold updateMetrics.
  destruct (m_timestamp message) as [timestamp|]; [|by split; eauto].
  destruct (partitionAssignments s !! m_partition message) as [metrics|] eqn:Hm;
    [|by split; eauto].
  destruct (JS.truthy _); [|by split; eauto].
  destruct (decide (m_partition message = partition)) as [Heq|Hne].
  - rewrite Heq in *. split; simpl; [rewrite lookup_insert_eq; eauto|].
    exists es. rewrite lookup_insert_eq. simpl. rewrite Hm in Hbound. simpl in Hbound.
    repeat split; try done.
    destruct (lastKnownCommit metrics); simpl; [done|]. rewrite Hbound. constructor.
  - split; simpl; [by rewrite lookup_insert_ne|].
    exists es. by rewrite lookup_insert_ne.
Qed.

Lemma gated_commitOffset partition base topic p offset s :
  gated partition base s → gated partition base (commitOffset topic p offset s).
Proof.
  intros Hg.
  destruct (Z.le_gt_cases (highestOffsetToCommit topic p offset (sessions s))
              (JS.or_0 (partitionAssignments s !! p ≫= lastKnownCommit))) as [Hle|Hlt].
  { by rewrite commitOffset_skips. }
  destruct (commitOffset_commits topic p offset s Hlt) as (He' & Hpa' & _).
  set (highest := highestOffsetToCommit topic p offset (sessions s)) in *.
  destruct Hg as [[m0 Ha] (es & He & Hsorted & Hbound)].
  destruct (decide (p = partition)) as [->|Hne].
  - rewrite Ha in Hpa', Hbound, Hlt. simpl in *.
    split; [rewrite Hpa', lookup_insert_eq; eauto|].
    exists (es ++ if batchConsumer s
                  then [Commit topic partition (highest + 1)] else []).
    rewrite He', He, app_assoc, Hpa', lookup_insert_eq, commits_app. simpl.
    split; [reflexivity|].
    assert (Forall (λ o, o < highest + 1) (commits partition es)) as Hbelow.
    { destruct (lastKnownCommit m0) as [v|] eqn:Hv.
      - rewrite JS_or_0_default in Hlt. simpl in Hlt.
        eapply Forall_impl; [exact Hbound|]. simpl. intros; lia.
      - rewrite Hbound. constructor. }
    destruct (batchConsumer s); simpl.
    + rewrite bool_decide_eq_true_2 by done. split.
      * by apply StronglySorted_snoc.
      * apply Forall_app. split; [|repeat constructor; lia].
        eapply Forall_impl; [exact Hbelow|]. simpl. intros; lia.
    + rewrite app_nil_r. split; [done|].
      eapply Forall_impl; [exact Hbelow|]. simpl. intros; lia.
  - assert (partitionAssignments (commitOffset topic p offset s) !! partition
            = partitionAssignments s !! partition) as Hsame.
    { rewrite Hpa'. destruct (partitionAssignments s !! p); [|done].
      by rewrite lookup_insert_ne. }
    split; [rewrite Hsame; eauto|].
    exists (es ++ if batchConsumer s then [Commit topic p (highest + 1)] else []).
    rewrite He', He, app_assoc, Hsame, commits_app.
    assert (commits partition (if batchConsumer s
                               then [Commit topic p (highest + 1)] else []) = []) as ->.
    { destruct (batchConsumer s); simpl; [|done]. by rewrite bool_decide_eq_false_2. }
    rewrite app_nil_r. auto.
Qed.

Lemma foldl_invariant {A B} (P : A → Prop) (f : A → B → A) :
  (∀ a b, P a → P (f a b)) → ∀ l a, P a → P (foldl f a l).
Proof.
  intros Hf l. induction l as [|b l IH]; intros a Ha; simpl; [exact Ha|].
  apply IH, Hf, Ha.
Qed.

Lemma parseKafkaMessage_silent message getTeam :
  silent (parseKafkaMessage message getTeam).2.
Proof.
  unfold parseKafkaMessage, statusWarn.
  repeat (match goal with
          | |- context [match ?x with _ => _ end] => destruct x
          end; try reflexivity).
Qed.

(** The first loop of [handleEachBatch] only touches the partition metrics
    and the log. *)
Lemma parseStep_frame acc message :
  let acc' := parseStep acc message in
  sessions acc'.1 = sessions acc.1
  ∧ offsetHighWaterMarker acc'.1 = offsetHighWaterMarker acc.1
  ∧ serverConfig acc'.1 = serverConfig acc.1
  ∧ teamsRefresher acc'.1 = teamsRefresher acc.1
  ∧ batchConsumer acc'.1 = batchConsumer acc.1
  ∧ objectStorage acc'.1 = objectStorage acc.1
  ∧ partitionAssignments acc'.1 = partitionAssignments (updateMetrics message acc.1)
  ∧ ∃ es, effects acc'.1 = effects acc.1 ++ es ∧ silent es.
Proof.
  destruct acc as [s recordingMessages]. unfold parseStep. simpl.
  pose proof (parseKafkaMessage_silent message (getTeamFn (updateMetrics message s))) as Hs.
  destruct (parseKafkaMessage _ _) as [recordingMessage es]. simpl in *.
  assert (∀ (f : Ingester → Ingester), True) as _ by done.
  unfold updateMetrics.
  destruct (m_timestamp message); destruct (partitionAssignments s !! m_partition message);
    try destruct (JS.truthy _); simpl; repeat split; eauto.
Qed.

Lemma gated_parseStep partition base acc message :
  gated partition base acc.1 → gated partition base (parseStep acc message).1.
Proof.
  intros Hg. destruct (parseStep_frame acc message) as (_ & _ & _ & _ & _ & _ & Hpa & He).
  apply (gated_calm _ _ (updateMetrics message acc.1)).
  - by apply gated_updateMetrics.
  - by rewrite Hpa.
  - destruct He as (es & He & Hs). exists es. split; [|done].
    rewrite He. f_equal. unfold updateMetrics.
    destruct (m_timestamp message); destruct (partitionAssignments acc.1 !! m_partition message);
      try destruct (JS.truthy _); reflexivity.
Qed.

(** The loop as the code runs it and the loop by what it leaves. *)
Lemma parseEach_parseStep acc message :
  parseEach acc message
  = ((parseStep acc message).1,
     if nullData message then JS.Throws JS.TypeError
     else JS.Returns (parseStep acc message).2).
Proof.
  destruct acc as [s recordingMessages]. unfold parseEach, parseStep.
  destruct (nullData message) eqn:Hnull.
  - by rewrite (parseKafkaMessage_null _ _ Hnull).
  - pose proof (parseKafkaMessage_returns message (getTeamFn (updateMetrics message s)) Hnull)
      as H.
    destruct (parseKafkaMessage _ _) as [completion es]. simpl in H. rewrite H. simpl.
    by destruct (returned completion).
Qed.

Lemma parseAll_reached messages :
  ∀ acc,
    parseAll messages acc
    = ((foldl parseStep acc (reached messages)).1,
       if existsb nullData messages then JS.Throws JS.TypeError
       else JS.Returns (foldl parseStep acc (reached messages)).2).
Proof.
  induction messages as [|m messages IH]; intros acc; [done|].
  cbn [parseAll reached existsb]. rewrite parseEach_parseStep.
  destruct (nullData m); [done|]. cbn [orb foldl].
  rewrite <- IH. by destruct (parseStep acc m).
Qed.

Lemma reached_all messages : existsb nullData messages = false → reached messages = messages.
Proof.
  induction messages as [|m messages IH]; [done|]. cbn [existsb reached].
  destruct (nullData m); [discriminate|]. intros H. by rewrite IH.
Qed.

(** A batch runs to its end, or stops at the first parse that throws. *)
Lemma handleEachBatch_cases messages s :
  handleEachBatch messages s
  = if existsb nullData messages then aborted messages s else completed messages s.
Proof.
  unfold handleEachBatch, aborted, completed. fold (claimed messages s).
  rewrite parseAll_reached. destruct (existsb nullData messages) eqn:H; [done|].
  rewrite (reached_all _ H). by destruct (foldl parseStep _ _).
Qed.

Lemma quiet_claimed messages s : quiet s (claimed messages s).
Proof.
  unfold claimed. destruct (SESSION_RECORDING_PARTITION_REVOKE_OPTIMIZATION _);
    [by apply quiet_log|reflexivity].
Qed.

Lemma gated_aborted partition base messages s :
  gated partition base s → gated partition base (aborted messages s).
Proof.
  intros Hg. unfold aborted.
  eapply gated_quiet; [|by apply quiet_log].
  apply (foldl_invariant (λ acc, gated partition base acc.1) parseStep
           (gated_parseStep partition base)).
  eapply gated_quiet; [exact Hg|apply quiet_claimed].
Qed.

Lemma gated_completed partition base messages s :
  gated partition base s → gated partition base (completed messages s).
Proof.
  intros Hg. unfold completed, claimed.
  set (s0 := if SESSION_RECORDING_PARTITION_REVOKE_OPTIMIZATION (serverConfig s)
             then _ else s).
  assert (gated partition base s0) as H0.
  { subst s0. destruct (SESSION_RECORDING_PARTITION_REVOKE_OPTIMIZATION _); [|done].
    eapply gated_quiet; [exact Hg|]. by apply quiet_log. }
  pose proof (foldl_invariant (λ acc, gated partition base acc.1) parseStep
                (gated_parseStep partition base) messages (s0, []) H0) as H1.
  destruct (foldl parseStep (s0, []) messages) as [s1 recordingMessages]. simpl in H1.
  eapply gated_quiet; [|apply quiet_flushAllReadySessions].
  eapply gated_quiet; [|apply quiet_consumeBatch].
  apply (foldl_invariant (gated partition base)).
  { intros a b Ha. by apply gated_commitOffset. }
  apply (foldl_invariant (gated partition base)); [|exact H1].
  intros a b Ha. eapply gated_quiet; [exact Ha|apply quiet_consume].
Qed.

Lemma gated_handleEachBatch partition base messages s :
  gated partition base s → gated partition base (handleEachBatch messages s).
Proof.
  rewrite handleEachBatch_cases. destruct (existsb nullData messages);
    [apply gated_aborted|apply gated_completed].
Qed.

(** ** Rebalances *)

Lemma onAssignPartitions_frame topicPartitions s :
  let s' := onAssignPartitions topicPartitions s in
  sessions s' = sessions s
  ∧ offsetHighWaterMarker s' = offsetHighWaterMarker s
  ∧ (∀ partition, partition ∉ tp_partition <$> topicPartitions →
       partitionAssignments s' !! partition = partitionAssignments s !! partition)
  ∧ ∃ es, effects s' = effects s ++ es ∧ silent es.
Proof.
  unfold onAssignPartitions. simpl.
  set (assign := λ (s : Ingester) (topicPartition : TopicPartition), with_assignments _ s).
  set (claimed := [Claimed _]).
  assert (silent claimed) as Hclaimed by done. clearbody claimed.
  assert (∀ s, sessions (foldl assign s topicPartitions) = sessions s
               ∧ offsetHighWaterMarker (foldl assign s topicPartitions)
                 = offsetHighWaterMarker s
               ∧ effects (foldl assign s topicPartitions) = effects s
               ∧ ∀ partition, partition ∉ tp_partition <$> topicPartitions →
                   partitionAssignments (foldl assign s topicPartitions) !! partition
                   = partitionAssignments s !! partition) as Hfold.
  { induction topicPartitions as [|tp tps IH]; intros s0; simpl; [done|].
    destruct (IH (assign s0 tp)) as (Hs & Hh & He & Hpa).
    rewrite Hs, Hh, He. repeat split; try reflexivity.
    intros partition Hnot. apply not_elem_of_cons in Hnot as [Hne Hnot].
    rewrite (Hpa _ Hnot). simpl. by rewrite lookup_insert_ne. }
  destruct (Hfold s) as (Hs & Hh & He & Hpa).
  repeat split; try done.
  exists claimed. by rewrite He.
Qed.

Lemma revokePartition_fold topicPartitions s :
  let s' := foldl revokePartition s topicPartitions in
  sessions s' = sessions s
  ∧ offsetHighWaterMarker s' = offsetHighWaterMarker s
  ∧ effects s' = effects s
  ∧ serverConfig s' = serverConfig s
  ∧ (∀ partition, partition ∈ tp_partition <$> topicPartitions →
       partitionAssignments s' !! partition = None)
  ∧ (∀ partition, partition ∉ tp_partition <$> topicPartitions →
       partitionAssignments s' !! partition = partitionAssignments s !! partition).
Proof.
  revert s. induction topicPartitions as [|tp tps IH]; intros s; simpl.
  - repeat split; try reflexivity. intros partition H. by apply elem_of_nil in H.
  - destruct (IH (revokePartition s tp)) as (Hs & Hh & He & Hc & Hin & Hout).
    rewrite Hs, Hh, He, Hc. repeat split; try reflexivity.
    + intros partition H.
      destruct (decide (partition ∈ tp_partition <$> tps)) as [Hi|Hni]; [by apply Hin|].
      apply elem_of_cons in H as [->|H]; [|done].
      rewrite (Hout _ Hni). simpl. apply lookup_delete_eq.
    + intros partition H. apply not_elem_of_cons in H as [Hne H].
      rewrite (Hout _ H). simpl. by apply lookup_delete_ne.
Qed.

Lemma destroySessions_frame l s :
  let s' := destroySessions l s in
  partitionAssignments s' = partitionAssignments s
  ∧ offsetHighWaterMarker s' = offsetHighWaterMarker s
  ∧ sessions s' = foldl (λ o entry, JSObject.delete entry.1 o) (sessions s) l.
Proof.
  unfold destroySessions. revert s. induction l as [|entry l IH]; intros s; simpl; [done|].
  destruct (IH (log [Destroyed entry.1]
                  (with_sessions (JSObject.delete entry.1 (sessions s)) s)))
    as (Hpa & Hh & Hs).
  rewrite Hpa, Hh, Hs. done.
Qed.

Lemma quiet_flushedOnRevoke topicPartitions s : quiet s (flushedOnRevoke topicPartitions s).
Proof.
  unfold flushedOnRevoke. destruct (SESSION_RECORDING_PARTITION_REVOKE_OPTIMIZATION _);
    [|reflexivity].
  apply (foldl_preorder quiet), quiet_flushOnRevoke.
Qed.

Lemma onRevokePartitions_calm partition topicPartitions s :
  partition ∉ tp_partition <$> topicPartitions →
  let s' := onRevokePartitions topicPartitions s in
  partitionAssignments s' !! partition = partitionAssignments s !! partition
  ∧ ∃ es, effects s' = effects s ++ es ∧ silent es.
Proof.
  intros Hnot. unfold onRevokePartitions. simpl.
  case_bool_decide as Hlen; [split; [done|]; exists []; by rewrite app_nil_r|].
  fold (flushedOnRevoke topicPartitions s).
  pose proof (quiet_flushedOnRevoke topicPartitions s) as [_ Hpa1 _ _ _ _ (es1 & He1 & Hs1)].
  set (s1 := flushedOnRevoke topicPartitions s) in *.
  destruct (revokePartition_fold topicPartitions s1) as (_ & _ & He2 & _ & _ & Hout).
  set (s2 := foldl revokePartition s1 topicPartitions) in *.
  set (s3 := if SESSION_RECORDING_PARTITION_REVOKE_OPTIMIZATION (serverConfig s)
             then _ else s2).
  assert (quiet s2 s3) as [_ Hpa3 _ _ _ _ (es3 & He3 & Hs3)].
  { subst s3. destruct (SESSION_RECORDING_PARTITION_REVOKE_OPTIMIZATION _); [|reflexivity].
    by apply quiet_log. }
  match goal with |- context [destroySessions ?l s3] =>
    pose proof (quiet_destroySessions l s3) as [_ Hpa4 _ _ _ _ (es4 & He4 & Hs4)] end.
  split.
  - rewrite Hpa4, Hpa3, (Hout _ Hnot), Hpa1. reflexivity.
  - exists (es1 ++ es3 ++ es4). split; [|by repeat apply silent_app].
    rewrite He4, He3, He2, He1. by rewrite <- !app_assoc.
Qed.

Lemma gated_call partition base c s :
  keeps_assigned partition c → gated partition base s → gated partition base (call s c).
Proof.
  intros Hkeep Hg. destruct c; simpl in *.
  - by apply gated_handleEachBatch.
  - eapply gated_quiet; [exact Hg|apply quiet_consume].
  - by apply gated_commitOffset.
  - eapply gated_quiet; [exact Hg|apply quiet_flushAllReadySessions].
  - destruct (onAssignPartitions_frame topicPartitions s) as (_ & _ & Hpa & He).
    apply (gated_calm _ _ s); auto.
  - destruct (onRevokePartitions_calm partition topicPartitions s Hkeep) as (Hpa & He).
    apply (gated_calm _ _ s); auto.
Qed.

Lemma gated_run partition base calls s :
  Forall (keeps_assigned partition) calls →
  gated partition base s → gated partition base (run calls s).
Proof.
  unfold run. revert s. induction calls as [|c calls IH]; intros s Hkeep Hg; simpl; [done|].
  apply Forall_cons in Hkeep as [Hc Hkeep]. apply IH; [done|]. by apply gated_call.
Qed.

(** C8.  [commitOffset] hands an offset to the broker only when the offset it
    settled on is strictly greater than the partition's last known commit
    (0 when there is none); the broker gets that offset plus one and the last
    known commit of an assigned partition becomes that offset.  Consequently,
    over any sequence of calls that does not rebalance the partition, the
    offsets committed for it are strictly increasing. *)
Theorem commitOffset_gating (topic : string) (partition offset : Z) (s : Ingester) :
  let highest := highestOffsetToCommit topic partition offset (sessions s) in
  let lastKnown := JS.or_0 (partitionAssignments s !! partition ≫= lastKnownCommit) in
  let s' := commitOffset topic partition offset s in
  (highest ≤ lastKnown → s' = s)
  ∧ (lastKnown < highest →
       effects s'
       = effects s ++ (if batchConsumer s then [Commit topic partition (highest + 1)] else [])
       ∧ (is_Some (partitionAssignments s !! partition) →
            partitionAssignments s' !! partition ≫= lastKnownCommit = Some highest))
  ∧ (∀ calls,
       is_Some (partitionAssignments s !! partition) →
       Forall (keeps_assigned partition) calls →
       ∃ es, effects (run calls s) = effects s ++ es
             ∧ StronglySorted Z.lt (commits partition es)).
Proof.
  intros highest lastKnown s'. split; [|split].
  - apply commitOffset_skips.
  - intros Hlt. destruct (commitOffset_commits topic partition offset s Hlt) as (He & Hpa & _).
    split; [exact He|]. intros [metrics Hm]. subst s'. rewrite Hpa, Hm.
    by rewrite lookup_insert_eq.
  - intros calls Ha Hkeep.
    assert (gated partition (effects s) s) as Hg.
    { split; [done|]. exists []. rewrite app_nil_r. split; [done|]. split; [constructor|].
      by destruct (_ ≫= lastKnownCommit). }
    destruct (gated_run _ _ calls s Hkeep Hg) as [_ (es & He & Hsorted & _)]. eauto.
Qed.

Lemma commitOffset_gating_witness :
  ∃ es,
    effects (run [HandleEachBatch [malformed 0 99 1000; malformed 0 100 1001];
                  CommitOffset example_topic 0 120;
                  CommitOffset example_topic 0 110] (assigned [0]))
    = effects (assigned [0]) ++ es
    ∧ StronglySorted Z.lt (commits 0 es).
Proof.
  apply (commitOffset_gating example_topic 0 0 (assigned [0])).
  - vm_compute. eauto.
  - repeat constructor.
Defined.

(** ** Marks only grow *)

Lemma commitOffset_raises topic partition offset s :
  marks_le (offsetHighWaterMarker s)
    (offsetHighWaterMarker (commitOffset topic partition offset s)).
Proof.
  destruct (Z.le_gt_cases (highestOffsetToCommit topic partition offset (sessions s))
              (JS.or_0 (partitionAssignments s !! partition ≫= lastKnownCommit))) as [Hle|Hlt].
  { by rewrite commitOffset_skips. }
  destruct (commitOffset_commits topic partition offset s Hlt) as (_ & _ & -> & _).
  etransitivity; [apply marks_le_add|apply marks_le_clear].
Qed.

#[local] Instance raised_preorder : PreOrder raised.
Proof.
  split; [intros s; apply marks_le_refl|].
  intros s1 s2 s3. apply marks_le_trans.
Qed.

Lemma raised_quiet s s' : quiet s s' → raised s s'.
Proof. by intros []. Qed.

(** The first loop leaves everything but the partition metrics and the log
    as it found it. *)
Lemma parse_loop_frame messages :
  ∀ acc,
    let acc' := foldl parseStep acc messages in
    sessions acc'.1 = sessions acc.1
    ∧ offsetHighWaterMarker acc'.1 = offsetHighWaterMarker acc.1
    ∧ serverConfig acc'.1 = serverConfig acc.1
    ∧ teamsRefresher acc'.1 = teamsRefresher acc.1
    ∧ batchConsumer acc'.1 = batchConsumer acc.1
    ∧ objectStorage acc'.1 = objectStorage acc.1
    ∧ ∃ es, effects acc'.1 = effects acc.1 ++ es ∧ silent es.
Proof.
  induction messages as [|m messages IH]; intros acc.
  { simpl. repeat split; try done. exists []. by rewrite app_nil_r. }
  cbn [foldl]. cbv zeta.
  destruct (IH (parseStep acc m)) as (-> & -> & -> & -> & -> & -> & es & -> & Hs).
  destruct (parseStep_frame acc m) as (-> & -> & -> & -> & -> & -> & _ & es1 & -> & Hs1).
  repeat split; try done. exists (es1 ++ es). rewrite app_assoc.
  split; [done|by apply silent_app].
Qed.

(** What a batch that is given up leaves of the state it started in. *)
Lemma aborted_frame messages s :
  sessions (aborted messages s) = sessions s
  ∧ offsetHighWaterMarker (aborted messages s) = offsetHighWaterMarker s
  ∧ serverConfig (aborted messages s) = serverConfig s
  ∧ teamsRefresher (aborted messages s) = teamsRefresher s
  ∧ batchConsumer (aborted messages s) = batchConsumer s
  ∧ objectStorage (aborted messages s) = objectStorage s
  ∧ partitionAssignments (aborted messages s)
    = partitionAssignments (foldl parseStep (claimed messages s, []) (reached messages)).1
  ∧ ∃ es, effects (aborted messages s) = effects s ++ es ∧ silent es.
Proof.
  unfold aborted.
  destruct (parse_loop_frame (reached messages) (claimed messages s, []))
    as (Hs & Hh & Hc & Ht & Hb & Ho & es & He & Hsil).
  destruct (quiet_claimed messages s) as [Hc0 _ Ht0 Hb0 Ho0 _ (es0 & He0 & Hsil0)].
  simpl in *. rewrite Hs, Hh, Hc, Ht, Hb, Ho, He, He0, Hc0, Ht0, Hb0, Ho0.
  assert (sessions (claimed messages s) = sessions s
          ∧ offsetHighWaterMarker (claimed messages s) = offsetHighWaterMarker s) as [-> ->]
    by (unfold claimed; by destruct (SESSION_RECORDING_PARTITION_REVOKE_OPTIMIZATION _)).
  repeat split; try done.
  exists (es0 ++ es ++ [Thrown JS.TypeError]). rewrite <- !app_assoc. split; [done|].
  repeat apply silent_app; done.
Qed.

Lemma raised_completed messages s : raised s (completed messages s).
Proof.
  unfold completed, claimed.
  set (s0 := if SESSION_RECORDING_PARTITION_REVOKE_OPTIMIZATION (serverConfig s)
             then _ else s).
  assert (raised s s0) as H0.
  { subst s0. destruct (SESSION_RECORDING_PARTITION_REVOKE_OPTIMIZATION _);
      unfold raised; simpl; reflexivity. }
  pose proof (foldl_invariant
                (λ acc, offsetHighWaterMarker acc.1 = offsetHighWaterMarker s0) parseStep
                (λ acc m H, eq_trans (proj1 (proj2 (parseStep_frame acc m))) H)
                messages (s0, []) eq_refl) as H1.
  destruct (foldl parseStep (s0, []) messages) as [s1 recordingMessages]. simpl in H1.
  etransitivity; [exact H0|].
  assert (raised s0 s1) as H01 by (unfold raised; rewrite H1; reflexivity).
  etransitivity; [exact H01|].
  etransitivity; [|apply raised_quiet, quiet_flushAllReadySessions].
  etransitivity; [|apply raised_quiet, quiet_consumeBatch].
  etransitivity; [|apply (foldl_preorder raised); intros a b; apply commitOffset_raises].
  apply (foldl_preorder raised). intros a b. apply raised_quiet, quiet_consume.
Qed.

Lemma raised_handleEachBatch messages s : raised s (handleEachBatch messages s).
Proof.
  rewrite handleEachBatch_cases. destruct (existsb nullData messages);
    [|apply raised_completed].
  destruct (aborted_frame messages s) as (_ & Hh & _).
  unfold raised. rewrite Hh. reflexivity.
Qed.

Lemma raised_onRevokePartitions topicPartitions s :
  raised s (onRevokePartitions topicPartitions s).
Proof.
  unfold onRevokePartitions. case_bool_decide; [reflexivity|].
  fold (flushedOnRevoke topicPartitions s).
  etransitivity; [apply raised_quiet, (quiet_flushedOnRevoke topicPartitions)|].
  set (s1 := flushedOnRevoke topicPartitions s).
  destruct (revokePartition_fold topicPartitions s1) as (_ & Hh & _).
  etransitivity; [|apply raised_quiet, quiet_destroySessions].
  unfold raised in *.
  destruct (SESSION_RECORDING_PARTITION_REVOKE_OPTIMIZATION _); simpl; rewrite Hh; reflexivity.
Qed.

Lemma raised_call s c : raised s (call s c).
Proof.
  destruct c; simpl.
  - apply raised_handleEachBatch.
  - apply raised_quiet, quiet_consume.
  - apply commitOffset_raises.
  - apply raised_quiet, quiet_flushAllReadySessions.
  - destruct (onAssignPartitions_frame topicPartitions s) as (_ & Hh & _).
    unfold raised. rewrite Hh. reflexivity.
  - apply raised_onRevokePartitions.
Qed.

Lemma raised_run calls s : raised s (run calls s).
Proof. unfold run. apply (foldl_preorder raised), raised_call. Qed.

(** C9.  When [commitOffset] commits for a topic-partition, with [highest]
    the offset it settled on, the partition-global mark of that
    topic-partition is afterwards at least [highest] and every per-session
    mark left for it is above [highest]; and after any further calls, an
    event of that topic-partition with offset at most [highest] is dropped by
    [consume] as being below a high-water mark. *)
Theorem commit_raises_partition_mark (topic : string) (partition offset : Z) (s : Ingester) :
  let highest := highestOffsetToCommit topic partition offset (sessions s) in
  JS.or_0 (partitionAssignments s !! partition ≫= lastKnownCommit) < highest →
  let s' := commitOffset topic partition offset s in
  (∃ m, OffsetHighWaterMarker.mark (topic, partition) HIGH_WATERMARK_KEY
          (offsetHighWaterMarker s') = Some m ∧ highest ≤ m)
  ∧ (∀ key m, ¬ OffsetHighWaterMarker.fixed_key key →
       OffsetHighWaterMarker.mark (topic, partition) key (offsetHighWaterMarker s') = Some m →
       highest < m)
  ∧ (∀ calls event,
       md_topic (metadata event) = topic →
       md_partition (metadata event) = partition →
       md_offset (metadata event) ≤ highest →
       let later := run calls s' in
       ∃ cause,
         (cause = "high_water_mark" ∨ cause = "high_water_mark_partition")
         ∧ consume event later = log [Dropped cause] later).
Proof.
  intros highest Hlt s'.
  destruct (commitOffset_commits topic partition offset s Hlt) as (_ & _ & Hh & _).
  fold highest in Hh. fold s' in Hh.
  assert (∃ m, OffsetHighWaterMarker.mark (topic, partition) HIGH_WATERMARK_KEY
                 (offsetHighWaterMarker s') = Some m ∧ highest ≤ m) as (m & Hm & Hle).
  { rewrite Hh, mark_clear, mark_add. rewrite decide_True by done.
    eexists. rewrite decide_False.
    - split; [reflexivity|]. destruct (OffsetHighWaterMarker.mark _ _ _); lia.
    - intros [_ Hno]. apply Hno. left. by left. }
  split; [eauto|]. split.
  - intros key m' Hkey. rewrite Hh, mark_clear.
    destruct (OffsetHighWaterMarker.mark _ key _) as [m0|]; [|discriminate].
    destruct (decide _) as [|Hkeep]; [discriminate|]. intros [= <-].
    destruct (decide (highest < m0)) as [|Hge]; [done|].
    exfalso. apply Hkeep. split; [done|]. intros [?|?]; done.
  - intros calls event Ht Hp Ho later.
    destruct (raised_run calls s' _ _ Hm) as (m' & Hm' & Hle').
    apply (consume_below_mark event later m'); [|lia].
    right. by rewrite Ht, Hp.
Qed.

(** ** Objects and arrays *)

Lemma JSObject_elem_of_set {V} key (v : V) o entry :
  entry ∈ JSObject.set key v o → entry.1 = key ∨ entry ∈ o.
Proof.
  induction o as [|[k v0] o IH]; simpl.
  - intros H. apply list_elem_of_singleton in H as ->. by left.
  - case_bool_decide as Hk.
    + intros H. apply elem_of_cons in H as [->|H]; [by left|].
      right. by apply elem_of_cons; right.
    + intros H. apply elem_of_cons in H as [->|H]; [right; by apply elem_of_cons; left|].
      destruct (IH H) as [?|?]; [by left|right; by apply elem_of_cons; right].
Qed.

Lemma JSObject_elem_of_delete {V} key (o : list (string * V)) entry :
  entry ∈ JSObject.delete key o ↔ entry.1 ≠ key ∧ entry ∈ o.
Proof.
  induction o as [|[k v0] o IH]; simpl.
  - split; [intros H; by apply elem_of_nil in H|intros [_ H]; by apply elem_of_nil in H].
  - case_bool_decide as Hk.
    + rewrite IH. split.
      * intros [? ?]. split; [done|]. by apply elem_of_cons; right.
      * intros [Hne H]. split; [done|]. apply elem_of_cons in H as [->|H]; [|done].
        by destruct Hne.
    + rewrite !elem_of_cons, IH. split.
      * intros [->|[? ?]]; [split; [done|by left]|split; [done|by right]].
      * intros [Hne [->|H]]; [by left|by right].
Qed.

Lemma JSObject_get_elem_of {V} key (v : V) o :
  NoDup (JSObject.keys o) → (key, v) ∈ o → JSObject.get key o = Some v.
Proof.
  unfold JSObject.keys. induction o as [|[k v0] o IH]; simpl; intros Hnd H.
  - by apply elem_of_nil in H.
  - apply NoDup_cons in Hnd as [Hk Hnd]. apply elem_of_cons in H as [[= <- <-]|H].
    + by rewrite bool_decide_eq_true_2.
    + rewrite bool_decide_eq_false_2; [by apply IH|].
      intros ->. apply Hk. apply list_elem_of_fmap. by exists (key, v).
Qed.

Lemma JSObject_set_get {V} key (v : V) o : JSObject.get key o = Some v → JSObject.set key v o = o.
Proof.
  induction o as [|[k v0] o IH]; simpl; [discriminate|].
  case_bool_decide as Hk; [by intros [= ->]|]. intros H. by rewrite IH.
Qed.

Lemma search_bounds {A} (comparefn : A → A → JS.Num) fuel pivot arr left right :
  (left ≤ right)%nat →
  (left ≤ JSArray.search comparefn fuel pivot arr left right ≤ right)%nat.
Proof.
  revert left right.
  induction fuel as [|fuel IH]; intros left right Hle; cbn -[Nat.div Nat.ltb]; [lia|].
  destruct (Nat.ltb_spec left right) as [Hlt|Hge]; [|lia].
  assert (left + (right - left) / 2 < right)%nat as Hmid.
  { assert ((right - left) / 2 < right - left)%nat by (apply Nat.div_lt; lia). lia. }
  destruct (arr !! _); [|lia].
  destruct (JSArray.negative _).
  - assert (left ≤ left + (right - left) / 2)%nat as H by lia.
    specialize (IH _ _ H). lia.
  - assert (S (left + (right - left) / 2) ≤ right)%nat as H by lia.
    specialize (IH _ _ H). lia.
Qed.

Lemma place_Permutation {A} (comparefn : A → A → JS.Num) arr start :
  JSArray.place comparefn arr start ≡ₚ arr.
Proof.
  unfold JSArray.place. destruct (arr !! start) as [pivot|] eqn:Hp; [|done].
  set (left := JSArray.search _ _ _ _ _ _).
  assert (left ≤ start)%nat as Hle by (apply (search_bounds comparefn); lia).
  assert (take left arr = take left (take start arr)) as ->
    by (rewrite take_take; f_equal; lia).
  pose proof (take_drop_middle arr start pivot Hp) as Harr.
  set (before := take start arr) in *. set (after := drop (S start) arr) in *.
  clearbody before after left. rewrite <- Harr.
  transitivity ((take left before ++ drop left before) ++ pivot :: after);
    [|by rewrite take_drop].
  rewrite <- app_assoc. apply Permutation_app_head, Permutation_middle.
Qed.

Lemma binaryInsertionSort_Permutation {A} (comparefn : A → A → JS.Num) todo start arr :
  JSArray.binaryInsertionSort comparefn todo start arr ≡ₚ arr.
Proof.
  revert start arr. induction todo as [|todo IH]; intros start arr; simpl; [done|].
  rewrite IH. apply place_Permutation.
Qed.

Lemma sort_Permutation {A} (comparefn : A → A → JS.Num) arr :
  JSArray.sort comparefn arr ≡ₚ arr.
Proof.
  unfold JSArray.sort.
  assert ((JSArray.countAndMakeRun comparefn arr).1 ≡ₚ arr) as Hrun.
  { unfold JSArray.countAndMakeRun. destruct arr as [|a0 [|a1 rest]]; try done.
    destruct (JSArray.negative _); [|done]. simpl.
    rewrite reverse_Permutation. simpl. by rewrite take_drop. }
  destruct (JSArray.countAndMakeRun comparefn arr) as [arr1 runLength]. simpl in Hrun.
  by rewrite binaryInsertionSort_Permutation.
Qed.

(** A comparator that never answers with a negative number leaves the array
    as it is. *)
Lemma sort_never_negative {A} (comparefn : A → A → JS.Num) arr :
  (∀ x y, JSArray.negative (comparefn x y) = false) →
  JSArray.sort comparefn arr = arr.
Proof.
  intros Hcmp. unfold JSArray.sort, JSArray.countAndMakeRun.
  destruct arr as [|a0 [|a1 rest]]; try reflexivity.
  rewrite Hcmp.
  assert (∀ previous l, JSArray.run_rest comparefn false previous l = length l) as Hrun.
  { intros previous l. revert previous. induction l as [|x l IH]; intros previous; simpl;
      [done|]. by rewrite Hcmp, IH. }
  rewrite Hrun. simpl length.
  replace (S (S (length rest)) - (2 + length rest))%nat with O by lia. reflexivity.
Qed.

(** The comparator of the revoke path is of that kind whenever no buffer
    carries a negative timestamp. *)
Lemma sort_revokeComparator (entries : list (string * SessionManager.t)) :
  (∀ entry t, entry ∈ entries →
     SessionManager.oldestKafkaTimestamp (SessionManager.buffer entry.2) = Some t → 0 ≤ t) →
  JSArray.sort revokeComparator entries = entries.
Proof.
  intros Hts.
  assert (JSArray.sort revokeComparator entries ≡ₚ entries) as Hperm
    by apply sort_Permutation.
  unfold JSArray.sort, JSArray.countAndMakeRun in *.
  destruct entries as [|a0 [|a1 rest]]; try reflexivity.
  assert (∀ x y, x ∈ a0 :: a1 :: rest → JSArray.negative (revokeComparator x y) = false)
    as Hcmp.
  { intros x y Hx. unfold revokeComparator.
    destruct (SessionManager.oldestKafkaTimestamp _) as [t|] eqn:Ht; simpl; [|done].
    apply Z.ltb_ge. eauto. }
  rewrite (Hcmp a1) by (apply elem_of_cons; right; apply elem_of_cons; by left).
  assert (∀ previous l, (∀ x, x ∈ l → x ∈ a0 :: a1 :: rest) →
            JSArray.run_rest revokeComparator false previous l = length l) as Hrun.
  { intros previous l. revert previous. induction l as [|x l IH]; intros previous Hl; simpl;
      [done|].
    rewrite (Hcmp x) by (apply Hl, elem_of_cons; by left).
    rewrite IH; [done|]. intros z Hz. apply Hl, elem_of_cons. by right. }
  rewrite Hrun by (intros x Hx; apply elem_of_cons; right; apply elem_of_cons; by right).
  simpl length.
  replace (S (S (length rest)) - (2 + length rest))%nat with O by lia. reflexivity.
Qed.

(** ** Revoking partitions *)

Lemma elem_of_deleted {V} (l o : list (string * V)) (entry : string * V) :
  entry ∈ foldl (λ o (e : string * V), JSObject.delete (e.1) o) o l
  ↔ (entry.1 ∉ l.*1) ∧ entry ∈ o.
Proof.
  revert o. induction l as [|e l IH]; intros o; simpl.
  - split; [intros H; split; [apply not_elem_of_nil|done]|by intros [_ H]].
  - rewrite IH, JSObject_elem_of_delete, not_elem_of_cons.
    split; [intros (? & ? & ?)|intros ([? ?] & ?)]; auto.
Qed.

Lemma elem_of_flushed l s entry :
  entry ∈ sessions (foldl flushOnRevoke s l) → entry.1 ∈ l.*1 ∨ entry ∈ sessions s.
Proof.
  revert s. induction l as [|e l IH]; intros s; simpl; [by right|].
  intros H. destruct (IH _ H) as [Hin|Hin].
  - left. by apply elem_of_cons; right.
  - unfold flushOnRevoke, stored_back in Hin.
    destruct (SessionManager.flush _ _ _ _ _) as [[sm h] es]. simpl in Hin.
    apply JSObject_elem_of_set in Hin as [->|Hin]; [left; by apply elem_of_cons; left|].
    by right.
Qed.

Lemma elem_of_flushedOnRevoke topicPartitions s entry :
  entry ∈ sessions (flushedOnRevoke topicPartitions s) →
  entry.1 ∈ (filter (λ entry, SessionManager.partition entry.2 ∈ tp_partition <$> topicPartitions)
               (sessions s)).*1
  ∨ entry ∈ sessions s.
Proof.
  unfold flushedOnRevoke.
  destruct (SESSION_RECORDING_PARTITION_REVOKE_OPTIMIZATION _); [|by right].
  intros H. apply elem_of_flushed in H as [H|H]; [left|by right].
  by rewrite (sort_Permutation revokeComparator) in H.
Qed.

(** C5.  After [onRevokePartitions] has been called with a non-empty list of
    topic-partitions, no session manager of a revoked partition is left in
    [sessions], and [partitionAssignments] has no entry for a revoked
    partition. *)
Theorem onRevokePartitions_drops (topicPartitions : list TopicPartition) (s : Ingester) :
  topicPartitions ≠ [] →
  let s' := onRevokePartitions topicPartitions s in
  (∀ key sm, (key, sm) ∈ sessions s' →
     SessionManager.partition sm ∉ tp_partition <$> topicPartitions)
  ∧ (∀ tp, tp ∈ topicPartitions → partitionAssignments s' !! tp_partition tp = None).
Proof.
  intros Hne s'. subst s'. unfold onRevokePartitions.
  rewrite bool_decide_eq_false_2
    by (rewrite length_fmap; destruct topicPartitions; [done|discriminate]).
  fold (flushedOnRevoke topicPartitions s).
  set (s1 := flushedOnRevoke topicPartitions s).
  destruct (revokePartition_fold topicPartitions s1) as (Hs2 & _ & _ & _ & Hin & _).
  set (s2 := foldl revokePartition s1 topicPartitions) in *.
  set (s3 := if SESSION_RECORDING_PARTITION_REVOKE_OPTIMIZATION (serverConfig s)
             then _ else s2).
  assert (sessions s3 = sessions s1 ∧ partitionAssignments s3 = partitionAssignments s2)
    as [Hs3 Hpa3].
  { subst s3. by destruct (SESSION_RECORDING_PARTITION_REVOKE_OPTIMIZATION _). }
  set (sessionsToDrop := filter _ (sessions s)).
  destruct (destroySessions_frame sessionsToDrop s3) as (Hpa4 & _ & Hs4).
  split.
  - intros key sm Hentry Hrevoked. rewrite Hs4, Hs3 in Hentry.
    apply elem_of_deleted in Hentry as [Hkey Hentry]. simpl in Hkey.
    assert ((key, sm) ∈ sessionsToDrop) as Hdrop.
    { apply elem_of_flushedOnRevoke in Hentry as [Hk|Hentry]; [done|].
      apply list_elem_of_filter. done. }
    apply Hkey. apply list_elem_of_fmap. by exists (key, sm).
  - intros tp Htp. rewrite Hpa4, Hpa3. apply Hin. apply list_elem_of_fmap. by exists tp.
Qed.

Lemma flushes_app es1 es2 : flushes (es1 ++ es2) = flushes es1 ++ flushes es2.
Proof. apply omap_app. Qed.

Lemma flushes_flush key reason stored sm h :
  flushes (SessionManager.flush key reason stored sm h).2 = [key].
Proof.
  unfold SessionManager.flush.
  destruct (SessionManager.offsets _) as [[lo hi]|]; [destruct stored|]; reflexivity.
Qed.

Lemma flushOnRevoke_effects l s :
  ∃ es, effects (foldl flushOnRevoke s l) = effects s ++ es ∧ flushes es = l.*1.
Proof.
  revert s. induction l as [|entry l IH]; intros s; simpl.
  - exists []. by rewrite app_nil_r.
  - destruct (IH (flushOnRevoke s entry)) as (es & He & Hf).
    unfold flushOnRevoke, stored_back in He.
    pose proof (flushes_flush entry.1 "partition_shutdown" (objectStorage s) entry.2
                  (offsetHighWaterMarker s)) as Hflush.
    unfold flushOnRevoke, stored_back.
    destruct (SessionManager.flush _ _ _ _ _) as [[sm h] es0]. simpl in *.
    exists (es0 ++ es). rewrite He, app_assoc. split; [done|].
    by rewrite flushes_app, Hflush, Hf.
Qed.

Lemma destroySessions_effects l s :
  effects (destroySessions l s) = effects s ++ (Destroyed <$> l.*1).
Proof.
  unfold destroySessions. revert s. induction l as [|entry l IH]; intros s; simpl.
  - by rewrite app_nil_r.
  - rewrite IH. simpl. by rewrite <- app_assoc.
Qed.

Lemma flushes_Destroyed keys : flushes (Destroyed <$> keys) = [].
Proof. by induction keys. Qed.

(** With the revoke optimization on, and no negative timestamp in the
    buffers, the flushes of a revoke are started in the order in which the
    sessions sit in [sessions], whatever their oldest timestamps are. *)
Lemma onRevokePartitions_flush_order (topicPartitions : list TopicPartition) (s : Ingester) :
  SESSION_RECORDING_PARTITION_REVOKE_OPTIMIZATION (serverConfig s) = true →
  topicPartitions ≠ [] →
  (∀ entry t, entry ∈ sessions s →
     SessionManager.oldestKafkaTimestamp (SessionManager.buffer entry.2) = Some t → 0 ≤ t) →
  ∃ es, effects (onRevokePartitions topicPartitions s) = effects s ++ es
        ∧ flushes es
          = (filter (λ entry, SessionManager.partition entry.2 ∈ tp_partition <$> topicPartitions)
               (sessions s)).*1.
Proof.
  intros Hopt Hne Hts. unfold onRevokePartitions.
  rewrite bool_decide_eq_false_2
    by (rewrite length_fmap; destruct topicPartitions; [done|discriminate]).
  rewrite Hopt. set (sessionsToDrop := filter _ (sessions s)).
  rewrite sort_revokeComparator.
  2:{ intros entry t Hentry. apply Hts.
      by apply list_elem_of_filter in Hentry as [_ Hentry]. }
  destruct (flushOnRevoke_effects sessionsToDrop s) as (es1 & He1 & Hf1).
  set (s1 := foldl flushOnRevoke s sessionsToDrop) in *.
  destruct (revokePartition_fold topicPartitions s1) as (_ & _ & He2 & _).
  rewrite destroySessions_effects. simpl. rewrite He2, He1.
  eexists. rewrite <- !app_assoc. split; [reflexivity|].
  rewrite !flushes_app, Hf1, flushes_Destroyed. simpl. by rewrite app_nil_r.
Qed.

(** C6, on two sessions.  With the revoke optimization on, both partitions
    are revoked.  The buffer of session [y] is the older one (1000 against
    2000), yet the flush of session [x] is started first: the comparator
    passed to [sort] answers with the first argument's timestamp, never with
    a negative number, and the array keeps the order of [sessions]. *)
Theorem revoke_flush_order_by_insertion :
  SESSION_RECORDING_PARTITION_REVOKE_OPTIMIZATION (serverConfig two_sessions) = true
  ∧ (SessionManager.oldestKafkaTimestamp ∘ SessionManager.buffer <$>
       JSObject.get "2-x" (sessions two_sessions)) = Some (Some 2000)
  ∧ (SessionManager.oldestKafkaTimestamp ∘ SessionManager.buffer <$>
       JSObject.get "2-y" (sessions two_sessions)) = Some (Some 1000)
  ∧ ∃ es, effects (onRevokePartitions both_partitions two_sessions)
          = effects two_sessions ++ es
          ∧ flushes es = ["2-x"; "2-y"].
Proof.
  split; [reflexivity|]. split; [by vm_compute|]. split; [by vm_compute|].
  eexists. split; [vm_compute; reflexivity|reflexivity].
Qed.

(** ** A batch of invalid envelopes *)

Lemma getTeamFn_teams s s' : teamsRefresher s' = teamsRefresher s → getTeamFn s' = getTeamFn s.
Proof. unfold getTeamFn. by intros ->. Qed.

Lemma parse_loop_invalid partition messages :
  ∀ s metrics,
    Forall (λ m, m_partition m = partition
                 ∧ (parseKafkaMessage m (getTeamFn s)).1 = JS.Returns None)
      messages →
    partitionAssignments s !! partition = Some metrics →
    ∃ s1 metrics1,
      foldl parseStep (s, []) messages = (s1, [])
      ∧ sessions s1 = sessions s
      ∧ batchConsumer s1 = batchConsumer s
      ∧ partitionAssignments s1 !! partition = Some metrics1
      ∧ lastKnownCommit metrics1 = knownAfter (lastKnownCommit metrics) messages
      ∧ ∃ es, effects s1 = effects s ++ es ∧ silent es.
Proof.
  induction messages as [|m messages IH]; intros s metrics Hall Hpa.
  { exists s, metrics. repeat split; try done. exists []. by rewrite app_nil_r. }
  apply Forall_cons in Hall as [[Hp Hparse] Hall].
  destruct (parseStep_frame (s, []) m) as (Hs & _ & _ & Ht & Hb & _ & Hpa1 & es1 & He1 & Hs1).
  cbn [foldl].
  assert ((parseStep (s, []) m).2 = []) as Hnone.
  { unfold parseStep.
    rewrite (getTeamFn_teams s (updateMetrics m s)).
    - destruct (parseKafkaMessage m (getTeamFn s)) as [completion ?].
      simpl in Hparse. by subst completion.
    - unfold updateMetrics.
      destruct (m_timestamp m); destruct (partitionAssignments s !! m_partition m);
        try destruct (JS.truthy _); reflexivity. }
  destruct (parseStep (s, []) m) as [s' recordingMessages] eqn:Hstep.
  simpl in *. subst recordingMessages.
  assert (∃ metrics', partitionAssignments s' !! partition = Some metrics'
                      ∧ lastKnownCommit metrics'
                        = (if JS.truthy (m_timestamp m)
                           then Some (JS.nullish (lastKnownCommit metrics) (m_offset m))
                           else lastKnownCommit metrics)) as (metrics' & Hpa' & Hk').
  { rewrite Hpa1. unfold updateMetrics. rewrite Hp, Hpa.
    destruct (m_timestamp m) as [timestamp|]; [|by exists metrics].
    destruct (JS.truthy (Some timestamp)); [|by exists metrics].
    simpl. rewrite lookup_insert_eq. eauto. }
  destruct (IH s' metrics') as (s1 & metrics1 & Hfold & Hs' & Hb' & Hpa'' & Hk'' & es & He & Hsil).
  { eapply Forall_impl; [exact Hall|]. simpl. intros m' [? ?].
    split; [done|]. by rewrite (getTeamFn_teams s s'). }
  { exact Hpa'. }
  exists s1, metrics1. rewrite Hfold, Hs', Hs, Hb', Hb, Hpa'', Hk'', Hk'.
  repeat split; try done.
  exists (es1 ++ es). rewrite He, He1, app_assoc. split; [done|by apply silent_app].
Qed.

(** The commit loop over the messages of one topic-partition that no
    session manager blocks. *)
Lemma commit_loop_unblocked topic partition messages :
  ∀ s metrics,
    Forall (λ m, m_topic m = topic ∧ m_partition m = partition) messages →
    lowestOffsets topic partition (sessions s) = [] →
    batchConsumer s = true →
    partitionAssignments s !! partition = Some metrics →
    let known := JS.or_0 (lastKnownCommit metrics) in
    let highest := foldl Z.max known (m_offset <$> messages) in
    let s' := foldl commitEach s messages in
    (highest ≤ known → s' = s)
    ∧ (known < highest →
       ∃ es, effects s' = effects s ++ es
             ∧ last (commits partition es) = Some (highest + 1)
             ∧ partitionAssignments s' !! partition ≫= lastKnownCommit = Some highest).
Proof.
  assert (∀ l k, k ≤ foldl Z.max k l) as Hmono.
  { induction l as [|x l IH]; intros k; simpl; [lia|]. specialize (IH (Z.max k x)). lia. }
  induction messages as [|m messages IH]; intros s metrics Hall Hfree Hb Hpa known highest s'.
  { subst highest s'. simpl. split; [done|lia]. }
  apply Forall_cons in Hall as [[Ht Hp] Hall].
  subst highest s'. cbn [foldl fmap list_fmap].
  change (commitEach s m) with (commitOffset (m_topic m) (m_partition m) (m_offset m) s).
  rewrite Ht, Hp.
  pose proof (highestOffsetToCommit_unblocked topic partition (m_offset m) _ Hfree) as Hh.
  destruct (Z.le_gt_cases (m_offset m) known) as [Hle|Hgt].
  - rewrite commitOffset_skips by (rewrite Hh, Hpa; exact Hle).
    rewrite Z.max_l by lia. by apply IH.
  - destruct (commitOffset_commits topic partition (m_offset m) s) as
      (He & Hpa' & _ & Hs' & _ & _ & Hb' & _).
    { rewrite Hh, Hpa. exact Hgt. }
    rewrite Hh, Hpa, Hb in *.
    set (s1 := commitOffset topic partition (m_offset m) s) in *.
    rewrite Z.max_r by lia.
    destruct (IH s1 (with_lastKnownCommit (m_offset m) metrics)) as [Hskip Hcommit];
      [done|by rewrite Hs'|by rewrite Hb'|by rewrite Hpa', lookup_insert_eq|].
    assert (JS.or_0 (lastKnownCommit (with_lastKnownCommit (m_offset m) metrics))
            = m_offset m) as Hor by (rewrite JS_or_0_default; reflexivity).
    cbv zeta in Hskip, Hcommit. rewrite Hor in Hskip, Hcommit.
    pose proof (Hmono (m_offset <$> messages) (m_offset m)) as Hge.
    split; [lia|]. intros _.
    destruct (Z.le_gt_cases (foldl Z.max (m_offset m) (m_offset <$> messages)) (m_offset m))
      as [Hsame|Hmore].
    + rewrite (Hskip Hsame). exists [Commit topic partition (m_offset m + 1)].
      split; [done|]. simpl. rewrite bool_decide_eq_true_2 by done.
      assert (foldl Z.max (m_offset m) (m_offset <$> messages) = m_offset m) as -> by lia.
      split; [done|]. by rewrite Hpa', lookup_insert_eq.
    + destruct (Hcommit Hmore) as (es & He' & Hlast & Hk).
      exists (Commit topic partition (m_offset m + 1) :: es).
      rewrite He', He, <- app_assoc. split; [done|]. split; [|done].
      simpl. rewrite bool_decide_eq_true_2 by done.
      destruct (commits partition es); [discriminate|done].
Qed.

Lemma foldl_max_highest (l : list Z) (k highest : Z) :
  highest ∈ l → Forall (λ o, o ≤ highest) l → foldl Z.max k l = Z.max k highest.
Proof.
  assert (∀ l k, Forall (λ o, o ≤ highest) l → highest ≤ k → foldl Z.max k l = k) as Hafter.
  { clear. induction l as [|x l IH]; intros k Hl Hk; simpl; [done|].
    apply Forall_cons in Hl as [Hx Hl]. rewrite IH; [lia|done|lia]. }
  revert k. induction l as [|x l IH]; intros k Hin Hall; [by apply elem_of_nil in Hin|].
  apply Forall_cons in Hall as [Hx Hall]. simpl.
  apply elem_of_cons in Hin as [<-|Hin].
  - rewrite Hafter; [done|done|lia].
  - rewrite IH by done. lia.
Qed.

Lemma lowestOffsets_nobody topic partition (sessions : list (string * SessionManager.t)) :
  (∀ entry, entry ∈ sessions → ¬ onPartition topic partition entry.2) →
  lowestOffsets topic partition sessions = [].
Proof.
  unfold lowestOffsets, JSObject.values.
  induction sessions as [|entry sessions IH]; intros Hno; simpl; [done|].
  rewrite decide_False by (apply Hno, elem_of_cons; by left).
  apply IH. intros e He. apply Hno, elem_of_cons. by right.
Qed.

(** When a batch of invalid envelopes commits.  A batch on an assigned
    partition in which every message is of that topic-partition and is
    turned down by the parser, while no session manager exists for the
    topic-partition, commits the batch's highest offset plus one exactly when
    that offset is above the partition's last known commit as the metrics
    loop leaves it: the one recorded before the batch or, for a partition
    without one, the offset of the first message of the batch that carries a
    timestamp. *)
Lemma invalid_batch_commits_above_known (topic : string) (partition highest : Z)
    (messages : list Message) (metrics : PartitionMetrics) (s : Ingester) :
  Forall (λ m, m_topic m = topic ∧ m_partition m = partition
               ∧ (parseKafkaMessage m (getTeamFn s)).1 = JS.Returns None) messages →
  highest ∈ m_offset <$> messages →
  Forall (λ o, o ≤ highest) (m_offset <$> messages) →
  (∀ entry, entry ∈ sessions s → ¬ onPartition topic partition entry.2) →
  batchConsumer s = true →
  partitionAssignments s !! partition = Some metrics →
  let known := JS.or_0 (knownAfter (lastKnownCommit metrics) messages) in
  let s' := handleEachBatch messages s in
  ∃ es, effects s' = effects s ++ es
        ∧ (known < highest →
             last (commits partition es) = Some (highest + 1)
             ∧ partitionAssignments s' !! partition ≫= lastKnownCommit = Some highest)
        ∧ (highest ≤ known → commits partition es = []).
Proof.
  intros Hall Hin Hmax Hnobody Hb Hpa known s'. subst s'.
  assert (existsb nullData messages = false) as Hreturn.
  { clear -Hall. induction Hall as [|m messages (_ & _ & Hm) _ IH]; [done|].
    cbn [existsb]. rewrite IH. destruct (nullData m) eqn:Hnull; [|done].
    by rewrite (parseKafkaMessage_null _ _ Hnull) in Hm. }
  rewrite handleEachBatch_cases, Hreturn. unfold completed, claimed.
  set (s0 := if SESSION_RECORDING_PARTITION_REVOKE_OPTIMIZATION (serverConfig s)
             then _ else s).
  assert (quiet s s0 ∧ sessions s0 = sessions s) as [Hq0 Hs0].
  { subst s0. destruct (SESSION_RECORDING_PARTITION_REVOKE_OPTIMIZATION _).
    - split; [by apply quiet_log|done].
    - split; [reflexivity|done]. }
  destruct Hq0 as [_ Hpa0 Ht0 Hb0 _ _ (es0 & He0 & Hsil0)].
  destruct (parse_loop_invalid partition messages s0 metrics)
    as (s1 & metrics1 & Hfold & Hs1 & Hb1 & Hpa1 & Hk1 & es1 & He1 & Hsil1).
  { eapply Forall_impl; [exact Hall|]. simpl. intros m (_ & ? & ?).
    split; [done|]. by rewrite (getTeamFn_teams s s0). }
  { by rewrite Hpa0. }
  rewrite Hfold. cbn [foldl].
  destruct (commit_loop_unblocked topic partition messages s1 metrics1)
    as [Hskip Hcommit].
  { eapply Forall_impl; [exact Hall|]. simpl. by intros m (? & ? & _). }
  { rewrite Hs1, Hs0. by apply lowestOffsets_nobody. }
  { by rewrite Hb1, Hb0. }
  { exact Hpa1. }
  cbv zeta in Hskip, Hcommit. rewrite Hk1 in Hskip, Hcommit. fold known in Hskip, Hcommit.
  rewrite (foldl_max_highest _ known highest Hin Hmax) in Hskip, Hcommit.
  set (s3 := foldl commitEach s1 messages) in *.
  unfold ReplayEventsIngester.consumeBatch. cbn [foldl].
  destruct (quiet_flushAllReadySessions s3) as [_ Hpa4 _ _ _ _ (es4 & He4 & Hsil4)].
  destruct (Z.le_gt_cases highest known) as [Hle|Hgt].
  - rewrite Hskip in He4, Hpa4 |- * by lia.
    exists (es0 ++ es1 ++ es4). rewrite He4, He1, He0, <- !app_assoc.
    split; [done|]. split; [lia|]. intros _.
    rewrite !commits_app, !commits_silent by done. done.
  - destruct Hcommit as (es3 & He3 & Hlast & Hk3); [lia|].
    rewrite Z.max_r in Hlast, Hk3 by lia.
    exists (es0 ++ es1 ++ es3 ++ es4). rewrite He4, He3, He1, He0, <- !app_assoc.
    split; [done|]. split; [|lia]. intros _.
    rewrite !commits_app, (commits_silent _ es0), (commits_silent _ es1),
      (commits_silent _ es4) by done.
    rewrite app_nil_r. simpl. by rewrite Hpa4.
Qed.

(** C7, on the first batch of a partition.  Partition 0 has just been
    assigned, no session manager exists, and the batch is one malformed
    payload at offset 10.  The metrics loop records 10, which was never
    committed, as the last known commit, and [commitOffset] then takes
    offset 10 for committed already: nothing is handed to the broker.  The
    same payload without a timestamp, which the metrics loop passes over,
    and the same payload after a commit of offset 9, are committed as 11.
    An envelope whose [data] is [null] makes the parser throw: the batch is
    given up before the commit loop, whatever else it holds. *)
Theorem invalid_batch_without_commit :
  let s' := handleEachBatch [malformed 0 10 1000] (assigned [0]) in
  (parseKafkaMessage (malformed 0 10 1000) (getTeamFn (assigned [0]))).1 = JS.Returns None
  ∧ sessions (assigned [0]) = []
  ∧ sessions s' = []
  ∧ commits 0 (effects s') = []
  ∧ partitionAssignments s' !! 0 ≫= lastKnownCommit = Some 10
  ∧ commits 0 (effects (handleEachBatch [untimed 0 10] (assigned [0]))) = [11]
  ∧ commits 0 (effects (handleEachBatch [malformed 0 10 1000]
                          (commitOffset example_topic 0 9 (assigned [0])))) = [10; 11]
  ∧ commits 0 (effects (handleEachBatch [null_data 0 10 1000; malformed 0 11 1001]
                          (assigned [0]))) = []
  ∧ last (effects (handleEachBatch [null_data 0 10 1000; malformed 0 11 1001]
                     (assigned [0]))) = Some (Thrown JS.TypeError).
Proof. vm_compute. repeat split; reflexivity. Qed.

(** ** Further instances *)

Lemma consume_drops_below_high_water_mark_witness :
  ∃ cause,
    (cause = "high_water_mark" ∨ cause = "high_water_mark_partition")
    ∧ consume (recording 0 48 1000 "b") replayed = log [Dropped cause] replayed
    ∧ sessions (consume (recording 0 48 1000 "b") replayed) = sessions replayed
    ∧ effects (consume (recording 0 48 1000 "b") replayed)
      = effects replayed ++ [Dropped cause].
Proof.
  apply (consume_drops_below_high_water_mark (recording 0 48 1000 "b") replayed 50).
  - left. by vm_compute.
  - simpl. lia.
Defined.

Lemma onRevokePartitions_drops_witness :
  (∀ key sm, (key, sm) ∈ sessions (onRevokePartitions both_partitions two_sessions) →
     SessionManager.partition sm ∉ tp_partition <$> both_partitions)
  ∧ (∀ tp, tp ∈ both_partitions →
       partitionAssignments (onRevokePartitions both_partitions two_sessions)
         !! tp_partition tp = None).
Proof.
  apply (onRevokePartitions_drops both_partitions two_sessions). discriminate.
Defined.

Lemma commit_raises_partition_mark_witness :
  ∃ cause,
    (cause = "high_water_mark" ∨ cause = "high_water_mark_partition")
    ∧ consume (recording 0 20 1000 "c")
        (run [HandleEachBatch [snapshot 0 30 2000 "c"]]
           (commitOffset example_topic 0 20 (assigned [0])))
      = log [Dropped cause]
          (run [HandleEachBatch [snapshot 0 30 2000 "c"]]
             (commitOffset example_topic 0 20 (assigned [0]))).
Proof.
  apply (commit_raises_partition_mark example_topic 0 20 (assigned [0])).
  - by vm_compute.
  - reflexivity.
  - reflexivity.
  - simpl. by vm_compute.
Defined.

(** * Further properties of the consumer *)

(** ** Lookups in an object *)

Lemma JSObject_get_set {V} key (v : V) o key' :
  JSObject.get key' (JSObject.set key v o)
  = if decide (key = key') then Some v else JSObject.get key' o.
Proof.
  induction o as [|[k v0] o IH]; simpl.
  - destruct (decide (key = key')) as [->|Hne].
    + by rewrite bool_decide_eq_true_2.
    + by rewrite bool_decide_eq_false_2.
  - destruct (decide (k = key)) as [->|Hk].
    + rewrite (bool_decide_eq_true_2 (key = key)) by done. simpl.
      destruct (decide (key = key')) as [->|Hne].
      * by rewrite bool_decide_eq_true_2.
      * by rewrite bool_decide_eq_false_2.
    + rewrite (bool_decide_eq_false_2 (k = key)) by done. simpl.
      destruct (decide (k = key')) as [->|Hk'].
      * rewrite bool_decide_eq_true_2 by done. by rewrite decide_False.
      * rewrite bool_decide_eq_false_2 by done. exact IH.
Qed.

Lemma JSObject_get_delete {V} key (o : list (string * V)) key' :
  JSObject.get key' (JSObject.delete key o)
  = if decide (key = key') then None else JSObject.get key' o.
Proof.
  induction o as [|[k v0] o IH]; simpl.
  - by destruct (decide _).
  - destruct (decide (k = key)) as [->|Hk].
    + rewrite (bool_decide_eq_true_2 (key = key)) by done. rewrite IH.
      destruct (decide (key = key')) as [->|Hne]; [done|].
      by rewrite bool_decide_eq_false_2.
    + rewrite (bool_decide_eq_false_2 (k = key)) by done. simpl. rewrite IH.
      destruct (decide (k = key')) as [->|Hk'].
      * rewrite bool_decide_eq_true_2 by done. by rewrite decide_False.
      * by rewrite bool_decide_eq_false_2.
Qed.

Lemma JSObject_get_Some {V} key (v : V) o : JSObject.get key o = Some v → (key, v) ∈ o.
Proof.
  induction o as [|[k v0] o IH]; simpl; [discriminate|].
  case_bool_decide as Hk.
  - intros [= ->]. subst. apply elem_of_cons. by left.
  - intros H. apply elem_of_cons. right. by apply IH.
Qed.

Lemma JSObject_get_None {V} key (o : list (string * V)) :
  JSObject.get key o = None ↔ key ∉ JSObject.keys o.
Proof.
  unfold JSObject.keys. induction o as [|[k v0] o IH]; simpl.
  - split; [intros _; apply not_elem_of_nil|done].
  - case_bool_decide as Hk.
    + split; [discriminate|]. intros H. exfalso. apply H. subst. apply elem_of_cons. by left.
    + rewrite IH, not_elem_of_cons. split; [by split|by intros [_ ?]].
Qed.

Lemma JSObject_delete_filter {V} key (o : list (string * V)) :
  JSObject.delete key o = filter (λ e, e.1 ≠ key) o.
Proof.
  induction o as [|[k v0] o IH]; simpl; [done|].
  case_bool_decide as Hk.
  - rewrite filter_cons_False by (simpl; intros H; by apply H). exact IH.
  - rewrite filter_cons_True by done. by rewrite IH.
Qed.

Lemma filter_none {A} (P : A → Prop) `{∀ x, Decision (P x)} (l : list A) :
  (∀ x, ¬ P x) → filter P l = [].
Proof.
  intros HP. induction l as [|x l IH]; [done|]. by rewrite filter_cons_False.
Qed.

Lemma filter_all {A} (P : A → Prop) `{∀ x, Decision (P x)} (l : list A) :
  (∀ x, P x) → filter P l = l.
Proof.
  intros HP. induction l as [|x l IH]; [done|]. by rewrite filter_cons_True, IH.
Qed.

Lemma deleted_filter {V} (l o : list (string * V)) :
  foldl (λ o (e : string * V), JSObject.delete (e.1) o) o l = filter (λ e, e.1 ∉ l.*1) o.
Proof.
  revert o. induction l as [|e l IH]; intros o; simpl.
  - symmetry. apply filter_all. intros x. apply not_elem_of_nil.
  - rewrite IH, JSObject_delete_filter, list_filter_filter.
    apply list_filter_iff. intros x. rewrite not_elem_of_cons. split; intros [? ?]; done.
Qed.

(** ** What a revoke keeps and what it flushes *)

Lemma filter_set_dropped {V} (K : list string) key (v : V) (o : list (string * V)) :
  key ∈ K →
  filter (λ e, e.1 ∉ K) (JSObject.set key v o) = filter (λ e : string * V, e.1 ∉ K) o.
Proof.
  intros HK. induction o as [|[k v0] o IH]; simpl.
  - by rewrite filter_cons_False, filter_nil by (simpl; intros H; by apply H).
  - case_bool_decide as Hk.
    + subst k. rewrite !filter_cons_False by (simpl; intros H; by apply H). done.
    + destruct (decide (k ∈ K)) as [Hin|Hout].
      * rewrite !filter_cons_False by (simpl; intros H; by apply H). exact IH.
      * rewrite !filter_cons_True by done. by rewrite IH.
Qed.

Lemma flushed_filter (K : list string) l s :
  (∀ key, key ∈ l.*1 → key ∈ K) →
  filter (λ e, e.1 ∉ K) (sessions (foldl flushOnRevoke s l))
  = filter (λ e : string * SessionManager.t, e.1 ∉ K) (sessions s).
Proof.
  revert s. induction l as [|entry l IH]; intros s HK; simpl; [done|].
  rewrite IH by (intros key Hkey; apply HK; simpl; apply elem_of_cons; by right).
  unfold flushOnRevoke, stored_back.
  destruct (SessionManager.flush _ _ _ _ _) as [[sm h] es]. simpl.
  apply filter_set_dropped, HK. simpl. apply elem_of_cons. by left.
Qed.

Lemma onRevokePartitions_sessions topicPartitions s :
  sessions (onRevokePartitions topicPartitions s)
  = filter (λ e, e.1 ∉ (filter (λ entry, SessionManager.partition entry.2
                                           ∈ tp_partition <$> topicPartitions)
                          (sessions s)).*1)
      (sessions s).
Proof.
  unfold onRevokePartitions. case_bool_decide as Hlen.
  - destruct topicPartitions; [|discriminate]. simpl.
    rewrite (filter_none (λ entry : string * SessionManager.t,
                            SessionManager.partition entry.2 ∈ @nil Z))
      by (intros x Hx; by apply elem_of_nil in Hx).
    symmetry. apply filter_all. intros x. apply not_elem_of_nil.
  - fold (flushedOnRevoke topicPartitions s).
    set (s1 := flushedOnRevoke topicPartitions s).
    destruct (revokePartition_fold topicPartitions s1) as (Hs2 & _).
    set (s2 := foldl revokePartition s1 topicPartitions) in *.
    set (s3 := if SESSION_RECORDING_PARTITION_REVOKE_OPTIMIZATION (serverConfig s)
               then _ else s2).
    assert (sessions s3 = sessions s1) as Hs3.
    { subst s3. by destruct (SESSION_RECORDING_PARTITION_REVOKE_OPTIMIZATION _). }
    set (sessionsToDrop := filter _ (sessions s)).
    destruct (destroySessions_frame sessionsToDrop s3) as (_ & _ & Hs4).
    rewrite Hs4, Hs3, deleted_filter. subst s1. unfold flushedOnRevoke.
    destruct (SESSION_RECORDING_PARTITION_REVOKE_OPTIMIZATION _); [|done].
    apply flushed_filter. intros key Hkey.
    by rewrite (sort_Permutation revokeComparator) in Hkey.
Qed.

Lemma onRevokePartitions_assignments topicPartitions s partition :
  partitionAssignments (onRevokePartitions topicPartitions s) !! partition
  = if decide (partition ∈ tp_partition <$> topicPartitions)
    then None else partitionAssignments s !! partition.
Proof.
  unfold onRevokePartitions. case_bool_decide as Hlen.
  - destruct topicPartitions; [|discriminate].
    by rewrite decide_False by (intros H; by apply elem_of_nil in H).
  - fold (flushedOnRevoke topicPartitions s).
    pose proof (quiet_flushedOnRevoke topicPartitions s) as [_ Hpa1 _ _ _ _ _].
    set (s1 := flushedOnRevoke topicPartitions s) in *.
    destruct (revokePartition_fold topicPartitions s1) as (_ & _ & _ & _ & Hin & Hout).
    set (s2 := foldl revokePartition s1 topicPartitions) in *.
    set (s3 := if SESSION_RECORDING_PARTITION_REVOKE_OPTIMIZATION (serverConfig s)
               then _ else s2).
    assert (partitionAssignments s3 = partitionAssignments s2) as Hpa3.
    { subst s3. by destruct (SESSION_RECORDING_PARTITION_REVOKE_OPTIMIZATION _). }
    match goal with |- context [destroySessions ?l s3] =>
      destruct (destroySessions_frame l s3) as (Hpa4 & _) end.
    rewrite Hpa4, Hpa3. destruct (decide _) as [Hi|Hni].
    + by apply Hin.
    + by rewrite (Hout _ Hni), Hpa1.
Qed.

Lemma dropped_key_iff (P : string * SessionManager.t → Prop) `{∀ e, Decision (P e)}
    (o : list (string * SessionManager.t)) entry :
  NoDup (JSObject.keys o) → entry ∈ o → entry.1 ∈ (filter P o).*1 ↔ P entry.
Proof.
  intros Hnd Hentry. split.
  - intros Hkey. apply list_elem_of_fmap in Hkey as (e' & Hk & He').
    apply list_elem_of_filter in He' as [HP He'].
    assert (e' = entry) as <-; [|done].
    destruct e' as [k v'], entry as [k' v]. simpl in Hk. subst k'.
    pose proof (JSObject_get_elem_of _ _ _ Hnd He') as H1.
    pose proof (JSObject_get_elem_of _ _ _ Hnd Hentry) as H2. congruence.
  - intros HP. apply list_elem_of_fmap. exists entry. split; [done|].
    by apply list_elem_of_filter.
Qed.

(** X1.  A revoke keeps exactly the session managers of the partitions that
    are not revoked, each unchanged and in the order it had in [sessions],
    and it leaves the metrics of those partitions as they were. *)
Theorem onRevokePartitions_keeps_others (topicPartitions : list TopicPartition) (s : Ingester) :
  NoDup (JSObject.keys (sessions s)) →
  let s' := onRevokePartitions topicPartitions s in
  sessions s'
  = filter (λ entry, SessionManager.partition entry.2 ∉ tp_partition <$> topicPartitions)
      (sessions s)
  ∧ ∀ partition, partition ∉ tp_partition <$> topicPartitions →
      partitionAssignments s' !! partition = partitionAssignments s !! partition.
Proof.
  intros Hnd s'. subst s'. split.
  - rewrite onRevokePartitions_sessions.
    set (P := λ entry : string * SessionManager.t,
                SessionManager.partition entry.2 ∈ tp_partition <$> topicPartitions).
    assert (∀ o : list (string * SessionManager.t), (∀ e, e ∈ o → e ∈ sessions s) →
              filter (λ e, e.1 ∉ (filter P (sessions s)).*1) o
              = filter (λ entry, ¬ P entry) o) as Hfilter.
    { induction o as [|e o IH]; intros Ho; [done|].
      assert (e ∈ sessions s) as He by (apply Ho, elem_of_cons; by left).
      pose proof (dropped_key_iff P (sessions s) e Hnd He) as Hiff.
      assert (∀ x, x ∈ o → x ∈ sessions s) as Ho'
        by (intros x Hx; apply Ho, elem_of_cons; by right).
      destruct (decide (P e)) as [HP|HP].
      - rewrite !filter_cons_False; [by apply IH| |]; [by intros Hn|].
        intros Hn. apply Hn. by apply Hiff.
      - rewrite !filter_cons_True; [by rewrite IH|done|]. by rewrite Hiff. }
    by apply Hfilter.
  - intros partition Hnot. by rewrite onRevokePartitions_assignments, decide_False.
Qed.

Lemma onRevokePartitions_keeps_others_witness :
  sessions (onRevokePartitions
              [{| tp_topic := example_topic; tp_partition := 1 |}] two_sessions)
  = filter (λ entry, SessionManager.partition entry.2
                     ∉ tp_partition <$> [{| tp_topic := example_topic; tp_partition := 1 |}])
      (sessions two_sessions)
  ∧ ∀ partition,
      partition ∉ tp_partition <$> [{| tp_topic := example_topic; tp_partition := 1 |}] →
      partitionAssignments
        (onRevokePartitions [{| tp_topic := example_topic; tp_partition := 1 |}] two_sessions)
        !! partition
      = partitionAssignments two_sessions !! partition.
Proof.
  apply (onRevokePartitions_keeps_others
           [{| tp_topic := example_topic; tp_partition := 1 |}] two_sessions).
  apply (bool_decide_unpack (NoDup (JSObject.keys (sessions two_sessions)))).
  by vm_compute.
Defined.

(** X2.  With the revoke optimization on, a revoke starts a flush for every
    session manager of a revoked partition exactly once and for no other
    manager, whatever the timestamps in the buffers are. *)
Theorem onRevokePartitions_flushes_each_once
    (topicPartitions : list TopicPartition) (s : Ingester) :
  SESSION_RECORDING_PARTITION_REVOKE_OPTIMIZATION (serverConfig s) = true →
  topicPartitions ≠ [] →
  ∃ es, effects (onRevokePartitions topicPartitions s) = effects s ++ es
        ∧ flushes es
          ≡ₚ (filter (λ entry, SessionManager.partition entry.2
                               ∈ tp_partition <$> topicPartitions) (sessions s)).*1.
Proof.
  intros Hopt Hne. unfold onRevokePartitions.
  rewrite bool_decide_eq_false_2
    by (rewrite length_fmap; destruct topicPartitions; [done|discriminate]).
  rewrite Hopt. set (sessionsToDrop := filter _ (sessions s)).
  destruct (flushOnRevoke_effects (JSArray.sort revokeComparator sessionsToDrop) s)
    as (es1 & He1 & Hf1).
  set (s1 := foldl flushOnRevoke s _) in *.
  destruct (revokePartition_fold topicPartitions s1) as (_ & _ & He2 & _).
  rewrite destroySessions_effects. simpl. rewrite He2, He1.
  eexists. rewrite <- !app_assoc. split; [reflexivity|].
  rewrite !flushes_app, Hf1, flushes_Destroyed. simpl. rewrite app_nil_r.
  by rewrite (sort_Permutation revokeComparator).
Qed.

Lemma onRevokePartitions_flushes_each_once_witness :
  ∃ es, effects (onRevokePartitions both_partitions two_sessions) = effects two_sessions ++ es
        ∧ flushes es
          ≡ₚ (filter (λ entry, SessionManager.partition entry.2
                               ∈ tp_partition <$> both_partitions)
                (sessions two_sessions)).*1.
Proof.
  apply (onRevokePartitions_flushes_each_once both_partitions two_sessions).
  - reflexivity.
  - discriminate.
Defined.

(** X3.  With the revoke optimization off, a revoke starts no flush and
    leaves the high-water marks as they are: the managers of the revoked
    partitions are destroyed with whatever their buffers hold. *)
Theorem onRevokePartitions_without_optimization
    (topicPartitions : list TopicPartition) (s : Ingester) :
  SESSION_RECORDING_PARTITION_REVOKE_OPTIMIZATION (serverConfig s) = false →
  let s' := onRevokePartitions topicPartitions s in
  offsetHighWaterMarker s' = offsetHighWaterMarker s
  ∧ effects s'
    = effects s
      ++ (Destroyed <$> (filter (λ entry, SessionManager.partition entry.2
                                          ∈ tp_partition <$> topicPartitions)
                           (sessions s)).*1).
Proof.
  intros Hopt s'. subst s'. unfold onRevokePartitions. case_bool_decide as Hlen.
  - destruct topicPartitions; [|discriminate]. simpl. split; [done|].
    rewrite (filter_none (λ entry : string * SessionManager.t,
                            SessionManager.partition entry.2 ∈ @nil Z))
      by (intros x Hx; by apply elem_of_nil in Hx).
    by rewrite app_nil_r.
  - rewrite Hopt. destruct (revokePartition_fold topicPartitions s) as (_ & Hh & He & _).
    set (s2 := foldl revokePartition s topicPartitions) in *.
    match goal with |- context [destroySessions ?l s2] =>
      destruct (destroySessions_frame l s2) as (_ & Hh4 & _) end.
    by rewrite Hh4, Hh, destroySessions_effects, He.
Qed.

Lemma onRevokePartitions_without_optimization_witness :
  let quietly :=
    {| serverConfig := {| SESSION_RECORDING_PARTITION_REVOKE_OPTIMIZATION := false;
                          SIZE_LIMIT := 1000; AGE_LIMIT := 60000 |};
       sessions := sessions two_sessions;
       offsetHighWaterMarker := offsetHighWaterMarker two_sessions;
       partitionAssignments := partitionAssignments two_sessions;
       teamsRefresher := teamsRefresher two_sessions; batchConsumer := true;
       objectStorage := true; effects := [] |} in
  offsetHighWaterMarker (onRevokePartitions both_partitions quietly)
  = offsetHighWaterMarker quietly
  ∧ effects (onRevokePartitions both_partitions quietly)
    = effects quietly
      ++ (Destroyed <$> (filter (λ entry, SessionManager.partition entry.2
                                          ∈ tp_partition <$> both_partitions)
                           (sessions quietly)).*1).
Proof.
  intros quietly. apply (onRevokePartitions_without_optimization both_partitions quietly).
  reflexivity.
Defined.

(** ** Assigning, destroying, stopping *)

(** X4.  [onAssignPartitions] gives every listed partition fresh, empty
    metrics, also when the partition was assigned before and had a last known
    commit; the metrics of other partitions, the session managers (those of
    the listed partitions included) and the high-water marks stay as they
    are. *)
Theorem onAssignPartitions_resets (topicPartitions : list TopicPartition) (s : Ingester) :
  let s' := onAssignPartitions topicPartitions s in
  (∀ tp, tp ∈ topicPartitions →
     partitionAssignments s' !! tp_partition tp
     = Some {| lastMessageTimestamp := None; lastMessageOffset := None;
               lastKnownCommit := None |})
  ∧ (∀ partition, partition ∉ tp_partition <$> topicPartitions →
       partitionAssignments s' !! partition = partitionAssignments s !! partition)
  ∧ sessions s' = sessions s
  ∧ offsetHighWaterMarker s' = offsetHighWaterMarker s.
Proof.
  intros s'. subst s'.
  destruct (onAssignPartitions_frame topicPartitions s) as (Hs & Hh & Hout & _).
  split; [|by auto]. clear Hs Hh Hout. unfold onAssignPartitions. simpl.
  revert s. induction topicPartitions as [|tp0 tps IH]; intros s tp Htp;
    [by apply elem_of_nil in Htp|].
  cbn [foldl].
  destruct (decide (tp_partition tp ∈ tp_partition <$> tps)) as [Hin|Hout].
  - apply list_elem_of_fmap in Hin as (tp' & Heq & Htp'). rewrite Heq. by apply IH.
  - assert (tp_partition tp = tp_partition tp0) as Heq.
    { apply elem_of_cons in Htp as [->|Htp]; [done|].
      exfalso. apply Hout, list_elem_of_fmap. by exists tp. }
    pose proof (onAssignPartitions_frame tps
                  (with_assignments
                     (<[tp_partition tp0 :=
                          {| lastMessageTimestamp := None; lastMessageOffset := None;
                             lastKnownCommit := None |}]> (partitionAssignments s)) s))
      as (_ & _ & Hframe & _).
    unfold onAssignPartitions in Hframe. simpl in Hframe.
    rewrite (Hframe _ Hout). simpl. by rewrite Heq, lookup_insert_eq.
Qed.

(** X5.  [destroySessions] removes exactly the keys it is given from
    [sessions] and keeps the other entries in their order; it calls [destroy]
    once per entry given, in the order given, and touches neither the
    partition metrics nor the high-water marks. *)
Theorem destroySessions_removes (sessionsToDestroy : list (string * SessionManager.t))
    (s : Ingester) :
  let s' := destroySessions sessionsToDestroy s in
  sessions s' = filter (λ e, e.1 ∉ sessionsToDestroy.*1) (sessions s)
  ∧ effects s' = effects s ++ (Destroyed <$> sessionsToDestroy.*1)
  ∧ partitionAssignments s' = partitionAssignments s
  ∧ offsetHighWaterMarker s' = offsetHighWaterMarker s.
Proof.
  intros s'. subst s'.
  destruct (destroySessions_frame sessionsToDestroy s) as (Hpa & Hh & Hs).
  rewrite Hs, deleted_filter, destroySessions_effects. auto.
Qed.

Lemma onRevokePartitions_destroyed topicPartitions s :
  ∃ es0, effects (onRevokePartitions topicPartitions s)
         = effects s ++ es0
           ++ (Destroyed <$> (filter (λ entry, SessionManager.partition entry.2
                                               ∈ tp_partition <$> topicPartitions)
                                (sessions s)).*1).
Proof.
  unfold onRevokePartitions. case_bool_decide as Hlen.
  - destruct topicPartitions; [|discriminate]. simpl. exists [].
    rewrite (filter_none (λ entry : string * SessionManager.t,
                            SessionManager.partition entry.2 ∈ @nil Z))
      by (intros x Hx; by apply elem_of_nil in Hx).
    by rewrite !app_nil_r.
  - fold (flushedOnRevoke topicPartitions s).
    pose proof (quiet_flushedOnRevoke topicPartitions s) as [_ _ _ _ _ _ (es1 & He1 & _)].
    set (s1 := flushedOnRevoke topicPartitions s) in *.
    destruct (revokePartition_fold topicPartitions s1) as (_ & _ & He2 & _).
    set (s2 := foldl revokePartition s1 topicPartitions) in *.
    rewrite destroySessions_effects.
    destruct (SESSION_RECORDING_PARTITION_REVOKE_OPTIMIZATION _); simpl;
      rewrite He2, He1.
    + exists (es1 ++ [Released ((λ x, (tp_topic x, tp_partition x)) <$> topicPartitions)]).
      by rewrite <- !app_assoc.
    + exists es1. by rewrite <- !app_assoc.
Qed.

Lemma assignedPartitions_lookup s partition :
  partition ∈ assignedPartitions s ↔ is_Some (partitionAssignments s !! partition).
Proof.
  unfold assignedPartitions. rewrite merge_sort_Permutation, list_elem_of_fmap. split.
  - intros ([p m] & -> & H). apply elem_of_map_to_list in H. eauto.
  - intros [m H]. exists (partition, m). split; [done|]. by apply elem_of_map_to_list.
Qed.

Lemma onRevokePartitions_consumer topicPartitions s :
  batchConsumer (onRevokePartitions topicPartitions s) = batchConsumer s.
Proof.
  unfold onRevokePartitions. case_bool_decide; [done|].
  fold (flushedOnRevoke topicPartitions s).
  pose proof (quiet_flushedOnRevoke topicPartitions s) as [_ _ _ Hb1 _ _ _].
  set (s1 := flushedOnRevoke topicPartitions s) in *.
  assert (batchConsumer (foldl revokePartition s1 topicPartitions) = batchConsumer s1) as Hb2
    by (by apply (foldl_invariant (λ t, batchConsumer t = batchConsumer s1))).
  match goal with |- context [destroySessions ?l ?s3] =>
    pose proof (quiet_destroySessions l s3) as [_ _ _ -> _ _ _] end.
  destruct (SESSION_RECORDING_PARTITION_REVOKE_OPTIMIZATION _); simpl; by rewrite Hb2, Hb1.
Qed.

Lemma stop_effects (topic : string) (s : Ingester) :
  let s' := stop topic s in
  sessions s' = []
  ∧ partitionAssignments s' = ∅
  ∧ batchConsumer s' = batchConsumer s
  ∧ ∃ es, effects s' = effects s ++ es
          ∧ ∀ key, key ∈ JSObject.keys (sessions s) → Destroyed key ∈ es.
Proof.
  intros s'. subst s'. unfold stop.
  set (s0 := if batchConsumer s then _ else s).
  assert (∃ es0, s0 = log es0 s) as [es0 Hs0].
  { subst s0. destruct (batchConsumer s); [eauto|]. exists []. by rewrite log_nil. }
  clearbody s0. subst s0.
  change (assignedPartitions (log es0 s)) with (assignedPartitions s).
  set (topicPartitions := _ <$> assignedPartitions s).
  assert (tp_partition <$> topicPartitions = assignedPartitions s) as Hparts.
  { subst topicPartitions.
    induction (assignedPartitions s) as [|p l IH]; [done|].
    rewrite !fmap_cons. simpl. by rewrite IH. }
  set (s1 := onRevokePartitions topicPartitions (log es0 s)).
  set (s2 := log [RealtimeUnsubscribed; ReplayStopped] s1).
  destruct (destroySessions_frame (sessions s2) s2) as (Hpa2 & _ & _).
  pose proof (quiet_destroySessions (sessions s2) s2) as [_ _ _ Hb2 _ _ _].
  split; [done|]. split; [|split].
  - cbn [with_sessions partitionAssignments]. rewrite Hpa2.
    apply map_eq. intros partition. rewrite lookup_empty.
    subst s2 s1. cbn [log partitionAssignments].
    rewrite onRevokePartitions_assignments, Hparts.
    destruct (decide _) as [|Hnot]; [done|]. cbn [log partitionAssignments].
    destruct (partitionAssignments s !! partition) eqn:Hm; [|done].
    exfalso. apply Hnot, assignedPartitions_lookup. eauto.
  - cbn [with_sessions batchConsumer]. rewrite Hb2. subst s2 s1. cbn [log batchConsumer].
    by rewrite onRevokePartitions_consumer.
  - cbn [with_sessions effects]. rewrite destroySessions_effects.
    destruct (onRevokePartitions_destroyed topicPartitions (log es0 s)) as (es1 & He).
    fold s1 in He. subst s2. cbn [log effects sessions]. rewrite He.
    cbn [log effects sessions].
    eexists. rewrite <- !app_assoc. split; [reflexivity|].
    intros key Hkey.
    set (dropped := (filter _ (sessions s)).*1).
    destruct (decide (key ∈ dropped)) as [Hin|Hout].
    + apply elem_of_app. right. apply elem_of_app. right. apply elem_of_app. left.
      apply list_elem_of_fmap. by exists key.
    + apply elem_of_app. right. apply elem_of_app. right. apply elem_of_app. right.
      apply elem_of_cons. right. apply elem_of_cons. right.
      apply list_elem_of_fmap. exists key. split; [done|].
      unfold JSObject.keys in Hkey. apply list_elem_of_fmap in Hkey as (entry & -> & Hentry).
      apply list_elem_of_fmap. exists entry. split; [done|].
      subst s1. rewrite onRevokePartitions_sessions. apply list_elem_of_filter. done.
Qed.

(** X6.  After [stop] the consumer holds no session manager and no partition
    metrics, and [destroy] has been called for every session manager it held,
    whether or not its partition was assigned. *)
Theorem stop_clears (topic : string) (s : Ingester) :
  let s' := stop topic s in
  sessions s' = []
  ∧ partitionAssignments s' = ∅
  ∧ ∃ es, effects s' = effects s ++ es
          ∧ ∀ key, key ∈ JSObject.keys (sessions s) → Destroyed key ∈ es.
Proof. destruct (stop_effects topic s) as (? & ? & _ & ?). auto. Qed.

(** X7.  Stopping a stopped consumer leaves every field of it as it is and
    only repeats the shutdown calls: the batch consumer, if there is one, is
    stopped again, the realtime manager unsubscribed and the replay ingester
    stopped.  Nothing is revoked, flushed, destroyed, committed or
    released. *)
Theorem stop_again_only_shuts_down (topic : string) (s : Ingester) :
  stop topic (stop topic s)
  = log ((if batchConsumer s then [ConsumerStopped] else [])
         ++ [RealtimeUnsubscribed; ReplayStopped]) (stop topic s).
Proof.
  assert (∀ t, sessions t = [] → partitionAssignments t = ∅ →
            stop topic t
            = log ((if batchConsumer t then [ConsumerStopped] else [])
                   ++ [RealtimeUnsubscribed; ReplayStopped]) t) as Hidle.
  { intros t Hs Hpa. unfold stop.
    set (t0 := if batchConsumer t then _ else t).
    assert (t0 = log (if batchConsumer t then [ConsumerStopped] else []) t) as ->
      by (subst t0; destruct (batchConsumer t); [done|by rewrite log_nil]).
    change (assignedPartitions (log _ t)) with (assignedPartitions t).
    unfold assignedPartitions. rewrite Hpa, map_to_list_empty.
    change (onRevokePartitions _ ?x) with x. rewrite log_log. simpl. rewrite Hs.
    unfold log, with_sessions. simpl. by rewrite Hs. }
  destruct (stop_effects topic s) as (Hs & Hpa & Hb & _). cbv zeta in *.
  rewrite <- Hb. by apply Hidle.
Qed.

(** ** More on [commitOffset] *)

(** X8.  On an assigned partition [commitOffset] is idempotent: a second
    call with the same arguments finds its own offset as the last known
    commit and does nothing. *)
Theorem commitOffset_idempotent (topic : string) (partition offset : Z) (s : Ingester) :
  is_Some (partitionAssignments s !! partition) →
  commitOffset topic partition offset (commitOffset topic partition offset s)
  = commitOffset topic partition offset s.
Proof.
  intros [metrics Hm].
  destruct (Z.le_gt_cases (highestOffsetToCommit topic partition offset (sessions s))
              (JS.or_0 (partitionAssignments s !! partition ≫= lastKnownCommit))) as [Hle|Hlt].
  { rewrite (commitOffset_skips topic partition offset s Hle).
    exact (commitOffset_skips topic partition offset s Hle). }
  destruct (commitOffset_commits topic partition offset s Hlt) as (_ & Hpa & _ & Hs & _).
  apply commitOffset_skips. rewrite Hs, Hpa, Hm, lookup_insert_eq, JS_or_0_default.
  simpl. lia.
Qed.

Lemma commitOffset_idempotent_witness :
  commitOffset example_topic 0 20 (commitOffset example_topic 0 20 (assigned [0]))
  = commitOffset example_topic 0 20 (assigned [0]).
Proof.
  apply (commitOffset_idempotent example_topic 0 20 (assigned [0])).
  vm_compute. eauto.
Defined.

(** X9.  On a partition without metrics, [commitOffset] records nothing in
    [partitionAssignments], so the gate never closes: every call that
    settles on a positive offset hands it to the broker again. *)
Theorem commitOffset_unassigned (topic : string) (partition offset : Z) (s : Ingester) :
  partitionAssignments s !! partition = None →
  let highest := highestOffsetToCommit topic partition offset (sessions s) in
  let s' := commitOffset topic partition offset s in
  partitionAssignments s' = partitionAssignments s
  ∧ (0 < highest → batchConsumer s = true →
     effects (commitOffset topic partition offset s')
     = effects s ++ [Commit topic partition (highest + 1);
                     Commit topic partition (highest + 1)]).
Proof.
  intros Hnone highest s'.
  destruct (Z.le_gt_cases highest 0) as [Hle|Hlt].
  { subst s'. rewrite commitOffset_skips by (rewrite Hnone; exact Hle).
    split; [done|]. intros; lia. }
  destruct (commitOffset_commits topic partition offset s) as (He & Hpa & _ & Hs & _ & _ & Hb & _).
  { rewrite Hnone. exact Hlt. }
  fold s' in He, Hpa, Hs, Hb. rewrite Hnone in Hpa. split; [exact Hpa|].
  intros _ Hstarted.
  destruct (commitOffset_commits topic partition offset s') as (He' & _).
  { rewrite Hs, Hpa, Hnone. exact Hlt. }
  rewrite He', He, Hs, Hb, Hstarted. fold highest. by rewrite <- app_assoc.
Qed.

Lemma commitOffset_unassigned_witness :
  effects (commitOffset example_topic 3 20 (commitOffset example_topic 3 20 started))
  = [Commit example_topic 3 21; Commit example_topic 3 21].
Proof.
  destruct (commitOffset_unassigned example_topic 3 20 started) as [_ Htwice];
    [reflexivity|].
  apply Htwice; [by vm_compute|reflexivity].
Defined.

(** X10.  An offset that is zero or negative is never committed, unless a
    negative last known commit has been recorded: the first offset of a
    partition cannot be committed by itself. *)
Theorem commitOffset_not_at_zero (topic : string) (partition offset : Z) (s : Ingester) :
  offset ≤ 0 →
  (∀ v, partitionAssignments s !! partition ≫= lastKnownCommit = Some v → 0 ≤ v) →
  commitOffset topic partition offset s = s.
Proof.
  intros Hoffset Hknown. apply commitOffset_skips.
  pose proof (highestOffsetToCommit_le_offset topic partition offset (sessions s)) as Hle.
  rewrite JS_or_0_default.
  destruct (_ ≫= lastKnownCommit) as [v|]; simpl; [specialize (Hknown v eq_refl)|]; lia.
Qed.

Lemma commitOffset_not_at_zero_witness :
  commitOffset example_topic 0 0 (assigned [0]) = assigned [0].
Proof.
  apply (commitOffset_not_at_zero example_topic 0 0 (assigned [0])).
  - lia.
  - intros v Hv. vm_compute in Hv. discriminate.
Defined.

(** ** What a batch commits *)

Lemma within_silent messages es : silent es → within messages es.
Proof.
  unfold silent. intros Hs topic partition offset Hin. exfalso.
  induction es as [|e es IH]; [by apply elem_of_nil in Hin|].
  simpl in Hs. apply andb_prop in Hs as [He Hes].
  apply elem_of_cons in Hin as [<-|Hin]; [discriminate|auto].
Qed.

Lemma within_app messages es1 es2 :
  within messages es1 → within messages es2 → within messages (es1 ++ es2).
Proof.
  intros H1 H2 topic partition offset Hin. apply elem_of_app in Hin as [Hin|Hin]; eauto.
Qed.

Lemma commit_loop_within messages l :
  (∀ m, m ∈ l → m ∈ messages) →
  ∀ s, ∃ es, effects (foldl commitEach s l) = effects s ++ es ∧ within messages es.
Proof.
  induction l as [|m l IH]; intros Hl s.
  { exists []. split; [by rewrite app_nil_r|]. intros ? ? ? H. by apply elem_of_nil in H. }
  cbn [foldl].
  destruct (IH (λ x Hx, Hl x (proj2 (elem_of_cons l x m) (or_intror Hx))) (commitEach s m))
    as (es & He & Hw).
  assert (∃ es0, effects (commitEach s m) = effects s ++ es0 ∧ within messages es0)
    as (es0 & He0 & Hw0).
  { unfold commitEach.
    destruct (Z.le_gt_cases
                (highestOffsetToCommit (m_topic m) (m_partition m) (m_offset m) (sessions s))
                (JS.or_0 (partitionAssignments s !! m_partition m ≫= lastKnownCommit)))
      as [Hle|Hlt].
    - rewrite commitOffset_skips by done. exists []. split; [by rewrite app_nil_r|].
      intros ? ? ? H. by apply elem_of_nil in H.
    - destruct (commitOffset_commits _ _ _ s Hlt) as (He0 & _). rewrite He0.
      eexists. split; [reflexivity|]. intros topic partition offset Hin.
      destruct (batchConsumer s); [|by apply elem_of_nil in Hin].
      apply list_elem_of_singleton in Hin. injection Hin as -> -> ->.
      exists m. split; [apply Hl, elem_of_cons; by left|].
      pose proof (highestOffsetToCommit_le_offset (m_topic m) (m_partition m) (m_offset m)
                    (sessions s)).
      repeat split; lia. }
  exists (es0 ++ es). rewrite He, He0, app_assoc. split; [done|by apply within_app].
Qed.

Lemma completed_commits_within (messages : list Message) (s : Ingester) :
  ∃ es, effects (completed messages s) = effects s ++ es ∧ within messages es.
Proof.
  unfold completed, claimed.
  set (s0 := if SESSION_RECORDING_PARTITION_REVOKE_OPTIMIZATION (serverConfig s)
             then _ else s).
  assert (∃ es, effects s0 = effects s ++ es ∧ silent es) as (es0 & He0 & Hs0).
  { subst s0. destruct (SESSION_RECORDING_PARTITION_REVOKE_OPTIMIZATION _); simpl.
    - eexists. split; [reflexivity|done].
    - exists []. by rewrite app_nil_r. }
  pose proof (foldl_invariant
                (λ acc, ∃ es, effects acc.1 = effects s0 ++ es ∧ silent es) parseStep) as Hparse.
  destruct (Hparse) with (l := messages) (a := (s0, @nil IncomingRecordingMessage))
    as (es1 & He1 & Hs1).
  { intros acc m (es & He & Hs). destruct (parseStep_frame acc m) as (_ & _ & _ & _ & _ & _ & _ & es' & He' & Hs').
    exists (es ++ es'). rewrite He', He, app_assoc. split; [done|by apply silent_app]. }
  { exists []. by rewrite app_nil_r. }
  clear Hparse.
  destruct (foldl parseStep (s0, []) messages) as [s1 recordingMessages]. simpl in He1.
  set (s2 := foldl (λ s message, consume message s) s1 recordingMessages).
  assert (quiet s1 s2) as [_ _ _ _ _ _ (es2 & He2 & Hs2)]
    by (apply (foldl_preorder quiet); intros a b; apply quiet_consume).
  destruct (commit_loop_within messages messages (λ m H, H) s2) as (es3 & He3 & Hw3).
  set (s3 := foldl commitEach s2 messages) in *.
  assert (quiet s3 (flushAllReadySessions
                      (ReplayEventsIngester.consumeBatch recordingMessages s3)))
    as [_ _ _ _ _ _ (es4 & He4 & Hs4)]
    by (etransitivity; [apply quiet_consumeBatch|apply quiet_flushAllReadySessions]).
  exists (es0 ++ es1 ++ es2 ++ es3 ++ es4).
  rewrite He4, He3, He2, He1, He0, <- !app_assoc. split; [done|].
  repeat apply within_app; try (by apply within_silent); done.
Qed.

(** X11.  Whatever a batch commits, it commits for the topic-partition of a
    message of that batch and never beyond that message: the offset handed to
    the broker is at most the message's offset plus one. *)
Theorem handleEachBatch_commits_within_batch (messages : list Message) (s : Ingester) :
  ∃ es, effects (handleEachBatch messages s) = effects s ++ es ∧ within messages es.
Proof.
  rewrite handleEachBatch_cases. destruct (existsb nullData messages);
    [|apply completed_commits_within].
  destruct (aborted_frame messages s) as (_ & _ & _ & _ & _ & _ & _ & es & He & Hs).
  exists es. split; [done|by apply within_silent].
Qed.

(** ** What [flushAllReadySessions] keeps *)

Lemma flush_identity key reason stored sm h :
  identity (SessionManager.flush key reason stored sm h).1.1 = identity sm.
Proof.
  unfold SessionManager.flush.
  destruct (SessionManager.offsets _) as [[lo hi]|]; [destruct stored|]; reflexivity.
Qed.

Lemma flushIfSessionBufferIsOld_identity cfg key stored reference sm h :
  identity (SessionManager.flushIfSessionBufferIsOld cfg key stored reference sm h).1.1
  = identity sm.
Proof.
  unfold SessionManager.flushIfSessionBufferIsOld.
  destruct (SessionManager.isReady _ _ _); [apply flush_identity|reflexivity].
Qed.

Lemma add_identity cfg key stored msg sm h :
  identity (SessionManager.add cfg key stored msg sm h).1.1 = identity sm.
Proof.
  unfold SessionManager.add.
  destruct (SIZE_LIMIT cfg <=? _); [|reflexivity].
  pose proof (flush_identity key "buffer_size" stored
                (SessionManager.with_buffer
                   (SessionManager.append msg (SessionManager.buffer sm)) sm) h) as H.
  by destruct (SessionManager.flush _ _ _ _ _) as [[sm2 h2] es].
Qed.

Lemma flushes_flushIfSessionBufferIsOld cfg key stored reference sm h k :
  k ∈ flushes (SessionManager.flushIfSessionBufferIsOld cfg key stored reference sm h).2 →
  k = key ∧ SessionManager.isReady cfg reference sm = true.
Proof.
  unfold SessionManager.flushIfSessionBufferIsOld.
  destruct (SessionManager.isReady _ _ _).
  - rewrite flushes_flush. intros H. apply list_elem_of_singleton in H. done.
  - intros H. by apply elem_of_nil in H.
Qed.

Lemma hasReference_quiet s s' sm : quiet s s' → hasReference s' sm = hasReference s sm.
Proof. intros [_ Hpa _ _ _ _ _]. unfold hasReference, referenceTime. by rewrite Hpa. Qed.

Lemma flushReady_step t key sm :
  let t' := flushReady t (key, sm) in
  (∀ k, k ≠ key → JSObject.get k (sessions t') = JSObject.get k (sessions t))
  ∧ (hasReference t sm = false →
     sessions t' = sessions t ∧ offsetHighWaterMarker t' = offsetHighWaterMarker t)
  ∧ (hasReference t sm = true →
     ∀ sm', JSObject.get key (sessions t') = Some sm' → SessionManager.isEmpty sm' = false)
  ∧ ∃ es, effects t' = effects t ++ es
          ∧ ∀ k, k ∈ flushes es →
              k = key ∧ ∃ reference, referenceTime t sm = Some reference
                                    ∧ JS.truthy (Some reference) = true
                                    ∧ SessionManager.isReady (serverConfig t) reference sm = true.
Proof.
  unfold flushReady, hasReference, referenceTime.
  destruct (_ ≫= lastMessageTimestamp) as [reference|] eqn:Href.
  2:{ repeat split; try done. eexists. split; [done|].
      intros k H. by apply elem_of_nil in H. }
  destruct (JS.truthy (Some reference)) eqn:Htruthy.
  2:{ repeat split; try done. eexists. split; [done|].
      intros k H. by apply elem_of_nil in H. }
  pose proof (flushes_flushIfSessionBufferIsOld (serverConfig t) key (objectStorage t)
                reference sm (offsetHighWaterMarker t)) as Hflushes.
  destruct (SessionManager.flushIfSessionBufferIsOld _ _ _ _ _ _) as [[sm1 h1] es1] eqn:Hr.
  simpl in *.
  destruct (SessionManager.isEmpty sm1) eqn:Hempty; simpl.
  - split; [|split; [done|split]].
    + intros k Hk. rewrite JSObject_get_delete, decide_False by done.
      by rewrite JSObject_get_set, decide_False.
    + intros _ sm'. rewrite JSObject_get_delete, decide_True by done. discriminate.
    + exists (es1 ++ [Destroyed key]). rewrite <- app_assoc. split; [done|].
      intros k Hk. rewrite flushes_app in Hk. simpl in Hk. rewrite app_nil_r in Hk.
      destruct (Hflushes k Hk) as [-> Hready]. eauto.
  - split; [|split; [done|split]].
    + intros k Hk. by rewrite JSObject_get_set, decide_False.
    + intros _ sm'. rewrite JSObject_get_set, decide_True by done. by intros [= <-].
    + exists es1. split; [done|]. intros k Hk.
      destruct (Hflushes k Hk) as [-> Hready]. eauto.
Qed.

Lemma flushReady_fold todo :
  ∀ t, NoDup todo.*1 →
    let t' := foldl flushReady t todo in
    quiet t t'
    ∧ (∀ k, k ∉ todo.*1 → JSObject.get k (sessions t') = JSObject.get k (sessions t))
    ∧ (∀ k v, (k, v) ∈ todo → JSObject.get k (sessions t) = Some v →
         (hasReference t v = false → JSObject.get k (sessions t') = Some v)
         ∧ (hasReference t v = true →
            ∀ sm', JSObject.get k (sessions t') = Some sm' →
                   SessionManager.isEmpty sm' = false))
    ∧ ∃ es, effects t' = effects t ++ es
            ∧ ∀ k, k ∈ flushes es →
                ∃ v reference, (k, v) ∈ todo
                               ∧ referenceTime t v = Some reference
                               ∧ JS.truthy (Some reference) = true
                               ∧ SessionManager.isReady (serverConfig t) reference v = true.
Proof.
  induction todo as [|[key sm] todo IH]; intros t Hnd.
  { simpl. split; [reflexivity|]. split; [done|]. split.
    - intros k v H. by apply elem_of_nil in H.
    - exists []. rewrite app_nil_r. split; [done|]. intros k H. by apply elem_of_nil in H. }
  rewrite fmap_cons in Hnd. apply NoDup_cons in Hnd as [Hkey Hnd]. cbn [foldl].
  pose proof (quiet_flushReady t (key, sm)) as Hq.
  destruct (flushReady_step t key sm) as (Hother & Hidle & Hkept & es1 & He1 & Hf1).
  set (t1 := flushReady t (key, sm)) in *.
  destruct (IH t1 Hnd) as (Hq' & Hout & Hin & es & He & Hf).
  set (t' := foldl flushReady t1 todo) in *.
  assert (∀ v, referenceTime t1 v = referenceTime t v) as Href.
  { intros v. destruct Hq as [_ Hpa _ _ _ _ _]. unfold referenceTime. by rewrite Hpa. }
  split; [by etransitivity|]. split; [|split].
  - intros k Hk. rewrite fmap_cons in Hk. apply not_elem_of_cons in Hk as [Hne Hk].
    rewrite (Hout k Hk). by apply Hother.
  - intros k v Hentry Hget. apply elem_of_cons in Hentry as [[= -> ->]|Hentry].
    + rewrite (Hout key Hkey). split.
      * intros Hno. destruct (Hidle Hno) as [-> _]. done.
      * intros Hyes. by apply Hkept.
    + assert (k ≠ key) as Hne.
      { intros ->. apply Hkey. apply list_elem_of_fmap. by exists (key, v). }
      rewrite <- (Hother k Hne) in Hget.
      destruct (Hin k v Hentry Hget) as [Hno Hyes].
      rewrite (hasReference_quiet t t1 v Hq) in Hno, Hyes. done.
  - exists (es1 ++ es). rewrite He, He1, app_assoc. split; [done|].
    intros k Hk. rewrite flushes_app in Hk. apply elem_of_app in Hk as [Hk|Hk].
    + destruct (Hf1 k Hk) as (-> & reference & ? & ? & ?).
      exists sm, reference. split; [apply elem_of_cons; by left|done].
    + destruct (Hf k Hk) as (v & reference & Hentry & Hr & Htruthy & Hready).
      exists v, reference. rewrite Href in Hr. destruct Hq as [Hc _ _ _ _ _ _].
      rewrite Hc in Hready. split; [apply elem_of_cons; by right|done].
Qed.

(** X12.  After [flushAllReadySessions], no empty session manager is left on
    a partition that has a reference time: whatever [this.sessions[key]]
    yields for such a partition holds un-flushed messages. *)
Theorem flushAllReadySessions_leaves_no_empty (s : Ingester) (key : string)
    (sm : SessionManager.t) :
  NoDup (JSObject.keys (sessions s)) →
  JSObject.get key (sessions (flushAllReadySessions s)) = Some sm →
  hasReference (flushAllReadySessions s) sm = true →
  SessionManager.isEmpty sm = false.
Proof.
  intros Hnd Hget Href. unfold flushAllReadySessions in *.
  destruct (flushReady_fold (sessions s) s Hnd) as (Hq & Hout & Hin & _).
  rewrite (hasReference_quiet _ _ sm Hq) in Href.
  destruct (decide (key ∈ (sessions s).*1)) as [Hkey|Hkey].
  - apply list_elem_of_fmap in Hkey as ([k v] & -> & Hentry). simpl in *.
    destruct (Hin k v Hentry (JSObject_get_elem_of _ _ _ Hnd Hentry)) as [Hno Hyes].
    destruct (hasReference s v) eqn:Hv.
    + by apply Hyes.
    + rewrite (Hno eq_refl) in Hget. injection Hget as <-. congruence.
  - rewrite (Hout key Hkey) in Hget.
    apply JSObject_get_None in Hkey. congruence.
Qed.

(** X13.  [flushAllReadySessions] starts a flush only for a session manager
    whose partition has a reference time and whose buffer is old or large
    against it, and it leaves a manager whose partition has no reference time
    (not assigned, or no timestamped message seen yet) exactly as it is. *)
Theorem flushAllReadySessions_needs_reference (s : Ingester) :
  NoDup (JSObject.keys (sessions s)) →
  let s' := flushAllReadySessions s in
  (∀ key sm, (key, sm) ∈ sessions s → hasReference s sm = false →
     JSObject.get key (sessions s') = Some sm)
  ∧ ∃ es, effects s' = effects s ++ es
          ∧ ∀ key, key ∈ flushes es →
              ∃ sm reference,
                (key, sm) ∈ sessions s
                ∧ referenceTime s sm = Some reference
                ∧ JS.truthy (Some reference) = true
                ∧ SessionManager.isReady (serverConfig s) reference sm = true.
Proof.
  intros Hnd s'. subst s'. unfold flushAllReadySessions.
  destruct (flushReady_fold (sessions s) s Hnd) as (_ & _ & Hin & He).
  split; [|exact He].
  intros key sm Hentry Hno.
  by apply (Hin key sm Hentry (JSObject_get_elem_of _ _ _ Hnd Hentry)).
Qed.

Lemma flushAllReadySessions_leaves_no_empty_witness :
  ∃ sm, JSObject.get "2-x" (sessions (flushAllReadySessions two_sessions)) = Some sm
        ∧ SessionManager.isEmpty sm = false.
Proof.
  eexists. split; [by vm_compute|].
  apply (flushAllReadySessions_leaves_no_empty two_sessions "2-x").
  - apply (bool_decide_unpack (NoDup (JSObject.keys (sessions two_sessions)))).
    by vm_compute.
  - by vm_compute.
  - by vm_compute.
Defined.

Lemma flushAllReadySessions_needs_reference_witness :
  ∃ es, effects (flushAllReadySessions stalled) = effects stalled ++ es
        ∧ ∀ key, key ∈ flushes es →
            ∃ sm reference,
              (key, sm) ∈ sessions stalled
              ∧ referenceTime stalled sm = Some reference
              ∧ JS.truthy (Some reference) = true
              ∧ SessionManager.isReady (serverConfig stalled) reference sm = true.
Proof.
  apply (flushAllReadySessions_needs_reference stalled).
  apply (bool_decide_unpack (NoDup (JSObject.keys (sessions stalled)))).
  by vm_compute.
Defined.

(** ** The empty batch *)

(** A manager that is not due is passed over, with a warning when its
    partition has no reference time. *)
Lemma flushReady_idle s key sm :
  due s sm = false → JSObject.get key (sessions s) = Some sm →
  ∃ es, flushReady s (key, sm) = log es s.
Proof.
  unfold due, flushReady. intros Hdue Hget.
  destruct (_ ≫= lastMessageTimestamp) as [referenceTime|]; [|eauto].
  destruct (JS.truthy _); [|eauto]. simpl in Hdue.
  apply orb_false_elim in Hdue as [Hready Hempty].
  unfold SessionManager.flushIfSessionBufferIsOld. rewrite Hready. simpl.
  rewrite Hempty. rewrite (JSObject_set_get _ _ _ Hget). exists []. by destruct s.
Qed.

Lemma flushAllReadySessions_idle s :
  NoDup (JSObject.keys (sessions s)) →
  (∀ entry, entry ∈ sessions s → due s entry.2 = false) →
  ∃ es, flushAllReadySessions s = log es s.
Proof.
  intros Hnd Hdue. unfold flushAllReadySessions.
  assert (∀ l es0, (∀ entry, entry ∈ l → entry ∈ sessions s) →
            ∃ es, foldl flushReady (log es0 s) l = log es s) as H.
  { induction l as [|[key sm] l IH]; intros es0 Hl; [by exists es0|].
    cbn [foldl]. destruct (flushReady_idle (log es0 s) key sm) as [es1 ->].
    - apply (Hdue (key, sm)), Hl, elem_of_cons. by left.
    - apply (JSObject_get_elem_of key sm (sessions s)); [done|].
      apply Hl, elem_of_cons. by left.
    - rewrite log_log. apply IH. intros entry Hentry. apply Hl, elem_of_cons. by right. }
  destruct (H (sessions s) []) as [es He]; [done|].
  rewrite log_nil in He. eauto.
Qed.

Lemma settled_later cfg stored reference key sm t t' es1 es :
  JSObject.get key (sessions t') = JSObject.get key (sessions t) →
  marks_le (offsetHighWaterMarker t) (offsetHighWaterMarker t') →
  settled cfg stored reference key sm t es1 →
  settled cfg stored reference key sm t' (es1 ++ es).
Proof.
  intros Hget Hle (Hstart & Hempty & Hup). split; [|split].
  - intros H. apply elem_of_app. left. by apply Hstart.
  - intros H. destruct (Hempty H) as [? ?]. rewrite Hget.
    split; [done|]. apply elem_of_app. by left.
  - intros lo hi Hr Hs Ho. destruct (Hup lo hi Hr Hs Ho) as (? & ? & ? & m & Hm & ?).
    rewrite Hget. repeat split; try (apply elem_of_app; by left); try done.
    destruct (Hle _ _ Hm) as (m' & Hm' & ?). exists m'. split; [done|lia].
Qed.

Lemma settled_earlier cfg stored reference key sm t' es1 es :
  settled cfg stored reference key sm t' es →
  settled cfg stored reference key sm t' (es1 ++ es).
Proof.
  intros (Hstart & Hempty & Hup). split; [|split].
  - intros H. apply elem_of_app. right. by apply Hstart.
  - intros H. destruct (Hempty H) as [? ?]. split; [done|]. apply elem_of_app. by right.
  - intros lo hi Hr Hs Ho. destruct (Hup lo hi Hr Hs Ho) as (? & ? & ? & ?).
    repeat split; try (apply elem_of_app; by right); done.
Qed.

(** One turn of the loop settles the manager it is about. *)
Lemma flushReady_settles t key sm reference :
  referenceTime t sm = Some reference → JS.truthy (Some reference) = true →
  ∃ es, effects (flushReady t (key, sm)) = effects t ++ es
        ∧ settled (serverConfig t) (objectStorage t) reference key sm
            (flushReady t (key, sm)) es.
Proof.
  unfold referenceTime, flushReady, settled. intros -> ->.
  unfold SessionManager.flushIfSessionBufferIsOld, SessionManager.flush,
    SessionManager.isEmpty.
  destruct (SessionManager.isReady _ _ _);
    destruct (SessionManager.offsets (SessionManager.buffer sm)) as [[lo hi]|] eqn:Ho;
    [destruct (objectStorage t)|..];
    cbn [fst snd SessionManager.buffer SessionManager.with_buffer
         SessionManager.offsets SessionManager.empty_buffer];
    rewrite ?Ho;
    rewrite ?(bool_decide_eq_true_2 (@None (Z * Z) = None)) by done;
    rewrite ?(bool_decide_eq_false_2 (Some (lo, hi) = None)) by done;
    cbn [stored_back destroySessions foldl log with_sessions with_marker effects sessions
         offsetHighWaterMarker fst snd].
  - exists [FlushStarted key "buffer_age"; Uploaded key lo hi; Destroyed key].
    rewrite <- app_assoc. split; [done|]. split; [|split].
    + intros _. apply elem_of_cons. by left.
    + discriminate.
    + intros lo' hi' _ _ [= <- <-].
      rewrite JSObject_get_delete, decide_True by done.
      repeat split; try (by repeat constructor).
      rewrite mark_add, decide_True by done. eexists. split; [done|].
      destruct (OffsetHighWaterMarker.mark _ _ _); lia.
  - exists [FlushStarted key "buffer_age"]. split; [done|]. split; [|split].
    + intros _. apply elem_of_cons. by left.
    + discriminate.
    + discriminate.
  - exists [FlushStarted key "buffer_age"; Destroyed key].
    rewrite <- app_assoc. split; [done|]. split; [|split].
    + intros _. apply elem_of_cons. by left.
    + intros _. rewrite JSObject_get_delete, decide_True by done.
      split; [done|]. by repeat constructor.
    + discriminate.
  - exists []. rewrite app_nil_r. split; [done|]. split; [|split].
    + discriminate.
    + discriminate.
    + discriminate.
  - exists [Destroyed key]. rewrite <- app_assoc. split; [done|]. split; [|split].
    + discriminate.
    + intros _. rewrite JSObject_get_delete, decide_True by done.
      split; [done|]. by repeat constructor.
    + discriminate.
Qed.

(** The loop settles every manager it finds on a partition with a
    reference time. *)
Lemma flushReady_fold_settles todo :
  ∀ t, NoDup todo.*1 →
    ∃ es, effects (foldl flushReady t todo) = effects t ++ es
          ∧ ∀ key sm reference,
              (key, sm) ∈ todo →
              referenceTime t sm = Some reference → JS.truthy (Some reference) = true →
              settled (serverConfig t) (objectStorage t) reference key sm
                (foldl flushReady t todo) es.
Proof.
  induction todo as [|[key0 sm0] todo IH]; intros t Hnd.
  { exists []. rewrite app_nil_r. split; [done|]. intros ? ? ? H. by apply elem_of_nil in H. }
  rewrite fmap_cons in Hnd. apply NoDup_cons in Hnd as [Hkey Hnd]. cbn [foldl].
  destruct (quiet_flushReady t (key0, sm0)) as [Hc Hpa _ _ Ho _ (es1 & He1 & _)].
  set (t1 := flushReady t (key0, sm0)) in *.
  destruct (IH t1 Hnd) as (es & He & Hall).
  destruct (flushReady_fold todo t1 Hnd) as (Hq & Hout & _).
  exists (es1 ++ es). rewrite He, He1, app_assoc. split; [done|].
  intros key sm reference Hentry Href Htruthy.
  apply elem_of_cons in Hentry as [[= -> ->]|Hentry].
  - destruct (flushReady_settles t key0 sm0 reference Href Htruthy) as (es1' & He1' & Hsettled).
    fold t1 in He1', Hsettled.
    assert (es1' = es1) as -> by (rewrite He1 in He1'; by apply app_inv_head in He1').
    apply (settled_later _ _ _ _ _ t1); [by apply Hout|by destruct Hq|done].
  - apply settled_earlier. rewrite <- Hc, <- Ho. apply Hall; [done| |done].
    unfold referenceTime in *. by rewrite Hpa.
Qed.

(** C10, as amended.  An empty batch issues no offset commit and leaves
    [partitionAssignments] as it is, but [flushAllReadySessions] still runs.
    With one entry per key in [sessions]: when no session is due, that is,
    when no session on a partition with a reference time has an old, large
    or empty buffer, the sessions map, the buffers and the high-water marks
    are unchanged; and every session on a partition with a reference time is
    settled: a flush is started for it if its buffer is old or large, an
    empty manager is destroyed and removed from [sessions], and when the
    object store takes the upload the emptied manager is destroyed and
    removed and the mark of its partition is raised to the highest offset of
    the buffer. *)
Theorem handleEachBatch_empty (s : Ingester) :
  let s' := handleEachBatch [] s in
  partitionAssignments s' = partitionAssignments s
  ∧ ∃ es, effects s' = effects s ++ es
          ∧ silent es
          ∧ (NoDup (JSObject.keys (sessions s)) →
             ((∀ entry, entry ∈ sessions s → due s entry.2 = false) →
              sessions s' = sessions s ∧ offsetHighWaterMarker s' = offsetHighWaterMarker s)
             ∧ ∀ key sm reference,
                 (key, sm) ∈ sessions s →
                 referenceTime s sm = Some reference → JS.truthy (Some reference) = true →
                 settled (serverConfig s) (objectStorage s) reference key sm s' es).
Proof.
  intros s'. subst s'. unfold handleEachBatch. simpl.
  set (s0 := if SESSION_RECORDING_PARTITION_REVOKE_OPTIMIZATION (serverConfig s)
             then _ else s).
  assert (∃ es0, s0 = log es0 s ∧ silent es0) as (es0 & Hs0 & Hsil0).
  { subst s0. destruct (SESSION_RECORDING_PARTITION_REVOKE_OPTIMIZATION _).
    - eexists. split; [reflexivity|done].
    - exists []. by rewrite log_nil. }
  clearbody s0. subst s0.
  destruct (quiet_flushAllReadySessions (log es0 s)) as [_ Hpa _ _ _ _ (es1 & He1 & Hsil1)].
  split; [exact Hpa|].
  exists (es0 ++ es1). split; [by rewrite He1, app_assoc|]. split; [by apply silent_app|].
  intros Hnd. split.
  - intros Hdue. destruct (flushAllReadySessions_idle (log es0 s)) as [es ->]; done.
  - intros key sm reference Hentry Href Htruthy. unfold flushAllReadySessions in *.
    destruct (flushReady_fold_settles (sessions (log es0 s)) (log es0 s) Hnd)
      as (es & He & Hall).
    assert (es = es1) as -> by (rewrite He1 in He; by apply app_inv_head in He).
    apply settled_earlier. by apply Hall.
Qed.

(** C10, as stated, fails on [stalled]: the empty batch flushes session [a],
    removes it from [sessions] and raises the partition-global mark. *)
Lemma handleEachBatch_empty_flushes :
  JSObject.keys (sessions stalled) = ["2-a"]
  ∧ JSObject.keys (sessions (handleEachBatch [] stalled)) = []
  ∧ OffsetHighWaterMarker.mark (example_topic, 0) HIGH_WATERMARK_KEY
      (offsetHighWaterMarker stalled) = None
  ∧ OffsetHighWaterMarker.mark (example_topic, 0) HIGH_WATERMARK_KEY
      (offsetHighWaterMarker (handleEachBatch [] stalled)) = Some 10.
Proof. vm_compute. auto. Qed.

Lemma handleEachBatch_empty_witness :
  JSObject.get "2-a" (sessions (handleEachBatch [] stalled)) = None.
Proof.
  destruct (handleEachBatch_empty stalled) as (_ & es & _ & _ & H).
  destruct H as [_ Hdue].
  { apply (bool_decide_unpack (NoDup (JSObject.keys (sessions stalled)))). by vm_compute. }
  destruct (Hdue "2-a"
              (default (SessionManager.new 0 "" 0 "") (JSObject.get "2-a" (sessions stalled)))
              62000) as (_ & _ & Hup).
  - vm_compute. apply list_elem_of_here.
  - by vm_compute.
  - by vm_compute.
  - destruct (Hup 10 10) as (_ & Hget & _); [by vm_compute..|]. exact Hget.
Defined.

(** ** What [consume] touches *)

Lemma add_effects cfg key stored msg sm h :
  ∃ es, (SessionManager.add cfg key stored msg sm h).2
        = Added key (md_offset (metadata msg)) :: es.
Proof.
  unfold SessionManager.add. destruct (SIZE_LIMIT cfg <=? _); [|by exists []].
  destruct (SessionManager.flush _ _ _ _ _) as [[sm2 h2] es]. by exists es.
Qed.

(** X14.  An event that passes both high-water-mark checks touches the entry
    of its own key only.  Afterwards [this.sessions[key]] is defined; it is
    the manager that was already there, still bound to the team, session,
    partition and topic it was created with even when the event arrived on
    another partition, or else a new manager bound to the event's.  The new
    manager is logged before the event is added. *)
Theorem consume_touches_one_key (event : IncomingRecordingMessage) (s : Ingester) :
  let session := session_id_string (session_id event) in
  let key := session_key (team_id event) session in
  let md := metadata event in
  OffsetHighWaterMarker.isBelowHighWaterMark md session (md_offset md)
    (offsetHighWaterMarker s) = false →
  OffsetHighWaterMarker.isBelowHighWaterMark md HIGH_WATERMARK_KEY (md_offset md)
    (offsetHighWaterMarker s) = false →
  let s' := consume event s in
  (∀ k, k ≠ key → JSObject.get k (sessions s') = JSObject.get k (sessions s))
  ∧ (∃ sm', JSObject.get key (sessions s') = Some sm'
            ∧ identity sm'
              = match JSObject.get key (sessions s) with
                | Some sm => identity sm
                | None => (team_id event, session, md_partition md, md_topic md)
                end)
  ∧ ∃ es, effects s'
          = effects s
            ++ (match JSObject.get key (sessions s) with
                | Some _ => []
                | None => [Created key]
                end)
            ++ Added key (md_offset md) :: es.
Proof.
  intros session key md Hsession Hpartition s'. subst s'. unfold consume.
  fold session. fold key. fold md. rewrite Hsession, Hpartition.
  destruct (JSObject.get key (sessions s)) as [sm|] eqn:Hget.
  - rewrite Hget.
    pose proof (add_identity (serverConfig s) key (objectStorage s) event sm
                  (offsetHighWaterMarker s)) as Hid.
    destruct (add_effects (serverConfig s) key (objectStorage s) event sm
                (offsetHighWaterMarker s)) as (es & Hes).
    destruct (SessionManager.add _ _ _ _ _ _) as [[sm' h'] es']. simpl in *. subst es'.
    split; [|split].
    + intros k Hk. by rewrite JSObject_get_set, decide_False.
    + exists sm'. by rewrite JSObject_get_set, decide_True.
    + by exists es.
  - cbn [sessions with_sessions log]. rewrite JSObject_get_set, decide_True by done.
    set (sm := SessionManager.new _ _ _ _).
    cbn [serverConfig objectStorage offsetHighWaterMarker with_sessions log].
    pose proof (add_identity (serverConfig s) key (objectStorage s) event sm
                  (offsetHighWaterMarker s)) as Hid.
    destruct (add_effects (serverConfig s) key (objectStorage s) event sm
                (offsetHighWaterMarker s)) as (es & Hes).
    destruct (SessionManager.add _ _ _ _ _ _) as [[sm' h'] es']. simpl in *. subst es'.
    split; [|split].
    + intros k Hk. by rewrite !JSObject_get_set, !decide_False.
    + exists sm'. by rewrite JSObject_get_set, decide_True.
    + exists es. by rewrite <- app_assoc.
Qed.

Lemma consume_touches_one_key_witness :
  ∃ sm', JSObject.get "2-x" (sessions (consume (recording 0 8 2500 "x") two_sessions))
         = Some sm'
         ∧ identity sm' = (Team 2, "x", 1, example_topic).
Proof.
  destruct (consume_touches_one_key (recording 0 8 2500 "x") two_sessions)
    as (_ & (sm' & Hget & Hid) & _).
  - by vm_compute.
  - by vm_compute.
  - exists sm'. split; [exact Hget|]. rewrite Hid. by vm_compute.
Defined.

(** ** Managers sit under their own key *)

Lemma JSObject_elem_of_set_inv {V} key (v : V) o entry :
  entry ∈ JSObject.set key v o → entry = (key, v) ∨ entry ∈ o.
Proof.
  induction o as [|[k v0] o IH]; simpl.
  - intros H. apply list_elem_of_singleton in H. by left.
  - case_bool_decide as Hk.
    + intros H. apply elem_of_cons in H as [->|H]; [left; by subst|].
      right. apply elem_of_cons. by right.
    + intros H. apply elem_of_cons in H as [->|H]; [right; apply elem_of_cons; by left|].
      destruct (IH H) as [?|?]; [by left|right; apply elem_of_cons; by right].
Qed.

Lemma keyed_sessions s s' : sessions s' = sessions s → keyed s → keyed s'.
Proof. unfold keyed. by intros ->. Qed.

Lemma keyed_stored_back key r s :
  key = session_key (SessionManager.teamId r.1.1) (SessionManager.sessionId r.1.1) →
  keyed s → keyed (stored_back key r s).
Proof.
  destruct r as [[sm h] es]. simpl. intros Hkey Hs k v Hentry.
  unfold stored_back in Hentry. simpl in Hentry.
  apply JSObject_elem_of_set_inv in Hentry as [[= -> ->]|Hentry]; [done|by apply Hs].
Qed.

Lemma keyed_destroySessions l s : keyed s → keyed (destroySessions l s).
Proof.
  intros Hs k v Hentry.
  destruct (destroySessions_frame l s) as (_ & _ & Heq).
  rewrite Heq, deleted_filter in Hentry.
  apply list_elem_of_filter in Hentry as [_ Hentry]. by apply Hs.
Qed.

Lemma identity_key sm sm' key :
  identity sm' = identity sm →
  key = session_key (SessionManager.teamId sm) (SessionManager.sessionId sm) →
  key = session_key (SessionManager.teamId sm') (SessionManager.sessionId sm').
Proof. unfold identity. intros [= -> -> _ _]. done. Qed.

Lemma keyed_consume event s : keyed s → keyed (consume event s).
Proof.
  intros Hs. unfold consume.
  destruct (OffsetHighWaterMarker.isBelowHighWaterMark _ _ _ _); [done|].
  destruct (OffsetHighWaterMarker.isBelowHighWaterMark _ _ _ _); [done|].
  set (session := session_id_string (session_id event)).
  set (key := session_key (team_id event) session).
  destruct (JSObject.get key (sessions s)) as [sm|] eqn:Hget.
  - rewrite Hget. apply keyed_stored_back; [|done].
    eapply identity_key; [apply add_identity|].
    by apply Hs, JSObject_get_Some.
  - cbn [sessions with_sessions log]. rewrite JSObject_get_set, decide_True by done.
    apply keyed_stored_back.
    + eapply identity_key; [apply add_identity|]. reflexivity.
    + intros k v Hentry. cbn [sessions with_sessions log] in Hentry.
      apply JSObject_elem_of_set_inv in Hentry as [[= -> ->]|Hentry]; [done|by apply Hs].
Qed.

Lemma keyed_flushReady t entry :
  entry.1 = session_key (SessionManager.teamId entry.2) (SessionManager.sessionId entry.2) →
  keyed t → keyed (flushReady t entry).
Proof.
  destruct entry as [key sm]. simpl. intros Hkey Ht. unfold flushReady.
  destruct (_ ≫= lastMessageTimestamp) as [reference|]; [|done].
  destruct (JS.truthy _); [|done].
  set (r := SessionManager.flushIfSessionBufferIsOld _ _ _ _ _ _).
  assert (keyed (stored_back key r t)) as H1.
  { apply keyed_stored_back; [|done].
    eapply identity_key; [apply flushIfSessionBufferIsOld_identity|done]. }
  destruct (SessionManager.isEmpty _); [|done].
  exact (keyed_destroySessions [(key, r.1.1)] (stored_back key r t) H1).
Qed.

Lemma keyed_flushAllReadySessions s : keyed s → keyed (flushAllReadySessions s).
Proof.
  intros Hs. unfold flushAllReadySessions.
  assert (∀ l t, (∀ e, e ∈ l → e ∈ sessions s) → keyed t → keyed (foldl flushReady t l)) as H.
  { induction l as [|e l IH]; intros t Hl Ht; [done|]. cbn [foldl]. apply IH.
    - intros x Hx. apply Hl, elem_of_cons. by right.
    - apply keyed_flushReady; [|done]. destruct e as [k v]. simpl.
      apply Hs, Hl, elem_of_cons. by left. }
  by apply H.
Qed.

Lemma commitOffset_sessions topic partition offset s :
  sessions (commitOffset topic partition offset s) = sessions s.
Proof.
  destruct (Z.le_gt_cases (highestOffsetToCommit topic partition offset (sessions s))
              (JS.or_0 (partitionAssignments s !! partition ≫= lastKnownCommit))) as [Hle|Hlt].
  - by rewrite commitOffset_skips.
  - by destruct (commitOffset_commits topic partition offset s Hlt) as (_ & _ & _ & Hs & _).
Qed.

Lemma consumeBatch_sessions messages s :
  sessions (ReplayEventsIngester.consumeBatch messages s) = sessions s.
Proof.
  unfold ReplayEventsIngester.consumeBatch.
  apply (foldl_invariant (λ t, sessions t = sessions s)); [|done].
  intros t m Ht. unfold ReplayEventsIngester.consumeMessage.
  by destruct (OffsetHighWaterMarker.isBelowHighWaterMark _ _ _ _).
Qed.

Lemma keyed_handleEachBatch messages s : keyed s → keyed (handleEachBatch messages s).
Proof.
  intros Hs. rewrite handleEachBatch_cases. destruct (existsb nullData messages).
  { apply (keyed_sessions s); [|done]. by destruct (aborted_frame messages s) as (? & _). }
  unfold completed, claimed.
  set (s0 := if SESSION_RECORDING_PARTITION_REVOKE_OPTIMIZATION (serverConfig s)
             then _ else s).
  assert (sessions s0 = sessions s) as H0
    by (subst s0; by destruct (SESSION_RECORDING_PARTITION_REVOKE_OPTIMIZATION _)).
  pose proof (foldl_invariant (λ acc, sessions acc.1 = sessions s) parseStep
                (λ acc m H, eq_trans (proj1 (parseStep_frame acc m)) H)
                messages (s0, []) H0) as H1.
  destruct (foldl parseStep (s0, []) messages) as [s1 recordingMessages]. simpl in H1.
  apply keyed_flushAllReadySessions.
  apply (keyed_sessions _ _ (consumeBatch_sessions _ _)).
  apply (foldl_invariant keyed).
  { intros t m Ht. unfold commitEach. apply (keyed_sessions t); [|done].
    apply commitOffset_sessions. }
  apply (foldl_invariant keyed); [intros t m; apply keyed_consume|].
  by apply (keyed_sessions s).
Qed.

Lemma keyed_call s c : keyed s → keyed (call s c).
Proof.
  intros Hs. destruct c; simpl.
  - by apply keyed_handleEachBatch.
  - by apply keyed_consume.
  - apply (keyed_sessions s); [apply commitOffset_sessions|done].
  - by apply keyed_flushAllReadySessions.
  - apply (keyed_sessions s); [|done].
    by destruct (onAssignPartitions_frame topicPartitions s) as (? & _).
  - intros k v Hentry. rewrite onRevokePartitions_sessions in Hentry.
    apply list_elem_of_filter in Hentry as [_ Hentry]. by apply Hs.
Qed.

(** X15.  Through any sequence of batches, direct calls and rebalances, every
    session manager stays under the key [`${team_id}-${session_id}`] of the
    team and session it was created for. *)
Theorem managers_stay_keyed (calls : list Call) (s : Ingester) :
  keyed s → keyed (run calls s).
Proof.
  unfold run. revert s. induction calls as [|c calls IH]; intros s Hs; [done|].
  cbn [foldl]. by apply IH, keyed_call.
Qed.

Lemma managers_stay_keyed_witness :
  keyed (run [OnAssignPartitions both_partitions;
              HandleEachBatch [snapshot 1 7 2000 "x"; snapshot 0 3 1000 "y"];
              OnRevokePartitions [{| tp_topic := example_topic; tp_partition := 1 |}]]
           started).
Proof.
  apply (managers_stay_keyed _ started).
  intros key sm Hentry. vm_compute in Hentry. by apply elem_of_nil in Hentry.
Defined.

(** ** What the parser logs *)

(** X16.  [parseKafkaMessage] logs nothing exactly when it returns a message
    or throws.  Whenever it returns without a message the log ends with a
    warning, and the dropped counter is incremented for one kind of
    rejection only: an envelope in order, with a non-empty [$snapshot_items]
    event, that names a team or a token but no token that resolves.  An
    empty value, a bad timestamp, malformed JSON, a non-snapshot event and an
    envelope without team and token are warned about and not counted. *)
Theorem parseKafkaMessage_logs (message : Message) (getTeamFn : string → option TeamId) :
  let r := parseKafkaMessage message getTeamFn in
  (r.2 = [] ↔ is_Some (returned r.1) ∨ r.1 = JS.Throws JS.TypeError)
  ∧ (r.1 = JS.Returns None → ∃ reason, last r.2 = Some (Warned reason))
  ∧ (∀ cause, Dropped cause ∈ r.2 →
       cause = "team_missing_or_disabled"
       ∧ ∃ messagePayload,
           well_formed message messagePayload
           ∧ (is_Some (rem_team_id messagePayload)
              ∨ JS.truthy_str (rem_token messagePayload) = true)).
Proof.
  intros r. subst r. unfold parseKafkaMessage, statusWarn, well_formed.
  assert (∀ reason cause, Dropped cause ∈ [Warned reason] → False) as Hwarn.
  { intros reason cause H. apply list_elem_of_singleton in H. discriminate. }
  destruct (m_value message) as [value|] eqn:Hv.
  2:{ destruct (m_timestamp message); parse_warned Hwarn. }
  destruct (m_timestamp message) as [timestamp|] eqn:Ht; [|parse_warned Hwarn].
  destruct (JS.truthy (Some timestamp)) eqn:Hts; [|parse_warned Hwarn].
  cbn [negb].
  destruct (JSON_parse value) as [[messagePayload|]|] eqn:Hp; try parse_warned Hwarn.
  destruct (JSON_parse (rem_data messagePayload)) as [[event|]|] eqn:He;
    try parse_warned Hwarn.
  2:{ simpl. split; [split; [by right|done]|]. split; [discriminate|].
      intros cause H. by apply elem_of_nil in H. }
  destruct (bool_decide (pe_event event = "$snapshot_items")) eqn:Hevent;
    [|parse_warned Hwarn].
  apply bool_decide_eq_true in Hevent.
  destruct (no_snapshot_items event) eqn:Hitems; [parse_warned Hwarn|].
  destruct (bool_decide (rem_team_id messagePayload = None)
            && negb (JS.truthy_str (rem_token messagePayload))) eqn:Hteam;
    [parse_warned Hwarn|].
  assert (is_Some (rem_team_id messagePayload)
          ∨ JS.truthy_str (rem_token messagePayload) = true) as Hnamed.
  { apply andb_false_iff in Hteam as [Hid|Htok].
    - left. apply bool_decide_eq_false in Hid.
      destruct (rem_team_id messagePayload); [eauto|done].
    - right. by apply negb_false_iff in Htok. }
  set (teamId := match rem_token messagePayload with
                 | Some tok => _
                 | None => None
                 end).
  destruct teamId as [teamId|]; simpl.
  - split; [split; [intros _; left; eauto|done]|]. split; [discriminate|].
    intros cause H. by apply elem_of_nil in H.
  - split; [split; [discriminate|intros [[? ?]|?]; discriminate]|]. split; [eauto|].
    intros cause H. apply elem_of_cons in H as [[= ->]|H]; [|by apply Hwarn in H].
    split; [done|]. exists messagePayload. split; [|done].
    unfold no_snapshot_items in Hitems.
    destruct (pe_properties event) as [properties|] eqn:Hprops; [|discriminate].
    simpl in Hitems.
    destruct (p_snapshot_items properties) as [items|] eqn:Hi; [|discriminate].
    apply bool_decide_eq_false in Hitems.
    exists value, timestamp, event, properties, items.
    repeat split; try done.
    + intros ->. discriminate.
    + intros ->. by apply Hitems.
Qed.

(** ** Which partitions are assigned, and what the metrics remember *)

Lemma updateMetrics_assigned message s partition :
  is_Some (partitionAssignments (updateMetrics message s) !! partition)
  ↔ is_Some (partitionAssignments s !! partition).
Proof.
  unfold updateMetrics.
  destruct (m_timestamp message) as [timestamp|]; [|done].
  destruct (partitionAssignments s !! m_partition message) as [metrics|] eqn:Hm; [|done].
  destruct (JS.truthy _); [|done]. simpl.
  destruct (decide (m_partition message = partition)) as [<-|Hne].
  - rewrite lookup_insert_eq, Hm. split; eauto.
  - by rewrite lookup_insert_ne.
Qed.

Lemma commitOffset_assigned topic p offset s partition :
  is_Some (partitionAssignments (commitOffset topic p offset s) !! partition)
  ↔ is_Some (partitionAssignments s !! partition).
Proof.
  destruct (Z.le_gt_cases (highestOffsetToCommit topic p offset (sessions s))
              (JS.or_0 (partitionAssignments s !! p ≫= lastKnownCommit))) as [Hle|Hlt].
  { by rewrite commitOffset_skips. }
  destruct (commitOffset_commits topic p offset s Hlt) as (_ & -> & _).
  destruct (partitionAssignments s !! p) as [metrics|] eqn:Hm; [|done].
  destruct (decide (p = partition)) as [<-|Hne].
  - rewrite lookup_insert_eq, Hm. split; eauto.
  - by rewrite lookup_insert_ne.
Qed.

Lemma handleEachBatch_assigned messages s partition :
  is_Some (partitionAssignments (handleEachBatch messages s) !! partition)
  ↔ is_Some (partitionAssignments s !! partition).
Proof.
  rewrite handleEachBatch_cases. destruct (existsb nullData messages).
  { destruct (aborted_frame messages s) as (_ & _ & _ & _ & _ & _ & -> & _).
    unfold claimed.
    apply (foldl_invariant
             (λ acc, is_Some (partitionAssignments acc.1 !! partition)
                     ↔ is_Some (partitionAssignments s !! partition)) parseStep).
    - intros acc m Hacc.
      destruct (parseStep_frame acc m) as (_ & _ & _ & _ & _ & _ & -> & _).
      by rewrite updateMetrics_assigned.
    - simpl. by destruct (SESSION_RECORDING_PARTITION_REVOKE_OPTIMIZATION _). }
  unfold completed, claimed.
  set (s0 := if SESSION_RECORDING_PARTITION_REVOKE_OPTIMIZATION (serverConfig s)
             then _ else s).
  assert (partitionAssignments s0 = partitionAssignments s) as H0
    by (subst s0; by destruct (SESSION_RECORDING_PARTITION_REVOKE_OPTIMIZATION _)).
  pose proof (foldl_invariant
                (λ acc, is_Some (partitionAssignments acc.1 !! partition)
                        ↔ is_Some (partitionAssignments s !! partition)) parseStep) as Hparse.
  specialize (Hparse) with (l := messages) (a := (s0, @nil IncomingRecordingMessage)).
  destruct (foldl parseStep (s0, []) messages) as [s1 recordingMessages]. simpl in Hparse.
  destruct (quiet_flushAllReadySessions
              (ReplayEventsIngester.consumeBatch recordingMessages
                 (foldl commitEach
                    (foldl (λ s message, consume message s) s1 recordingMessages) messages)))
    as [_ -> _ _ _ _ _].
  destruct (quiet_consumeBatch recordingMessages
              (foldl commitEach
                 (foldl (λ s message, consume message s) s1 recordingMessages) messages))
    as [_ -> _ _ _ _ _].
  apply (foldl_invariant
           (λ t, is_Some (partitionAssignments t !! partition)
                 ↔ is_Some (partitionAssignments s !! partition))).
  { intros t m Ht. unfold commitEach. by rewrite commitOffset_assigned. }
  assert (quiet s1 (foldl (λ s message, consume message s) s1 recordingMessages))
    as [_ -> _ _ _ _ _]
    by (apply (foldl_preorder quiet); intros a b; apply quiet_consume).
  apply Hparse.
  - intros acc m Hacc. destruct (parseStep_frame acc m) as (_ & _ & _ & _ & _ & _ & -> & _).
    by rewrite updateMetrics_assigned.
  - simpl. by rewrite H0.
Qed.

(** X17.  Only a rebalance changes which partitions are assigned: through any
    sequence of calls that does not assign or revoke a partition, the
    partition has metrics afterwards exactly when it had them before.  In
    particular no batch and no commit creates metrics for an unassigned
    partition. *)
Theorem assignment_only_by_rebalance (partition : Z) (calls : list Call) (s : Ingester) :
  Forall (keeps_assigned partition) calls →
  is_Some (partitionAssignments (run calls s) !! partition)
  ↔ is_Some (partitionAssignments s !! partition).
Proof.
  unfold run. revert s. induction calls as [|c calls IH]; intros s Hkeep; [done|].
  apply Forall_cons in Hkeep as [Hc Hkeep]. cbn [foldl]. rewrite (IH _ Hkeep).
  destruct c; cbn [call keeps_assigned] in *.
  - apply handleEachBatch_assigned.
  - by destruct (quiet_consume event s) as [_ -> _ _ _ _ _].
  - apply commitOffset_assigned.
  - by destruct (quiet_flushAllReadySessions s) as [_ -> _ _ _ _ _].
  - destruct (onAssignPartitions_frame topicPartitions s) as (_ & _ & Hpa & _).
    by rewrite (Hpa _ Hc).
  - by rewrite onRevokePartitions_assignments, decide_False.
Qed.

Lemma assignment_only_by_rebalance_witness :
  is_Some (partitionAssignments
             (run [HandleEachBatch [snapshot 5 7 2000 "x"];
                   CommitOffset example_topic 5 7;
                   OnAssignPartitions both_partitions] started) !! 5)
  ↔ is_Some (partitionAssignments started !! 5).
Proof.
  apply (assignment_only_by_rebalance 5 _ started).
  repeat constructor. simpl.
  apply (bool_decide_unpack (5 ∉ [0; 1])). by vm_compute.
Defined.

(** ** Which sessions a batch can create *)

Lemma parse_loop_messages messages :
  ∀ s acc,
    (foldl parseStep (s, acc) messages).2
    = acc ++ omap (λ m, returned (parseKafkaMessage m (getTeamFn s)).1) messages.
Proof.
  induction messages as [|m messages IH]; intros s acc; [simpl; by rewrite app_nil_r|].
  cbn [foldl].
  assert (∃ s', parseStep (s, acc) m
                = (s', acc ++ match returned (parseKafkaMessage m (getTeamFn s)).1 with
                              | Some parsed => [parsed]
                              | None => []
                              end)
                ∧ teamsRefresher s' = teamsRefresher s) as (s' & -> & Ht).
  { pose proof (parseStep_frame (s, acc) m) as (_ & _ & _ & Ht & _).
    exists (parseStep (s, acc) m).1. split; [|exact Ht].
    rewrite (surjective_pairing (parseStep (s, acc) m)) at 1. f_equal.
    unfold parseStep.
    assert (teamsRefresher (updateMetrics m s) = teamsRefresher s) as Hu.
    { unfold updateMetrics.
      destruct (m_timestamp m); destruct (partitionAssignments s !! m_partition m);
        try destruct (JS.truthy _); reflexivity. }
    rewrite (getTeamFn_teams s (updateMetrics m s) Hu).
    destruct (parseKafkaMessage m (getTeamFn s)) as [completion es]; simpl.
    destruct (returned completion); [done|by rewrite app_nil_r]. }
  rewrite IH, (getTeamFn_teams s s' Ht). simpl.
  destruct (returned (parseKafkaMessage m (getTeamFn s)).1); simpl; by rewrite <- app_assoc.
Qed.

Lemma consume_keys event s k :
  k ∈ JSObject.keys (sessions (consume event s)) →
  k = session_key (team_id event) (session_id_string (session_id event))
  ∨ k ∈ JSObject.keys (sessions s).
Proof.
  unfold consume, JSObject.keys.
  destruct (OffsetHighWaterMarker.isBelowHighWaterMark _ _ _ _); [by right|].
  destruct (OffsetHighWaterMarker.isBelowHighWaterMark _ _ _ _); [by right|].
  set (key := session_key _ _).
  intros Hk. apply list_elem_of_fmap in Hk as (entry & -> & Hentry).
  assert (∀ o : list (string * SessionManager.t), entry.1 = key ∨ entry ∈ o →
            entry.1 = key ∨ entry.1 ∈ o.*1) as Hkeys.
  { intros o [?|?]; [by left|right]. apply list_elem_of_fmap. by exists entry. }
  destruct (JSObject.get key (sessions s)) as [sm|] eqn:Hget.
  - rewrite Hget in Hentry. unfold stored_back in Hentry.
    destruct (SessionManager.add _ _ _ _ _ _) as [[sm' h'] es']. simpl in Hentry.
    apply JSObject_elem_of_set in Hentry. by apply Hkeys.
  - cbn [sessions with_sessions log] in Hentry.
    rewrite JSObject_get_set, decide_True in Hentry by done.
    unfold stored_back in Hentry.
    destruct (SessionManager.add _ _ _ _ _ _) as [[sm' h'] es']. simpl in Hentry.
    apply JSObject_elem_of_set in Hentry as [?|Hentry]; [by left|].
    apply JSObject_elem_of_set in Hentry. by apply Hkeys.
Qed.

Lemma flushAllReadySessions_keys s k :
  k ∈ JSObject.keys (sessions (flushAllReadySessions s)) → k ∈ JSObject.keys (sessions s).
Proof.
  unfold flushAllReadySessions, JSObject.keys.
  assert (∀ l t, (∀ e, e ∈ l → e.1 ∈ (sessions s).*1) →
            (∀ x, x ∈ (sessions t).*1 → x ∈ (sessions s).*1) →
            k ∈ (sessions (foldl flushReady t l)).*1 → k ∈ (sessions s).*1) as H.
  { induction l as [|[key sm] l IH]; intros t Hl Ht; [by apply Ht|].
    cbn [foldl]. apply IH.
    - intros e He. apply Hl, elem_of_cons. by right.
    - intros x Hx. apply list_elem_of_fmap in Hx as (entry & -> & Hentry).
      assert (entry.1 = key ∨ entry ∈ sessions t) as [->|Hold].
      { unfold flushReady in Hentry.
        destruct (_ ≫= lastMessageTimestamp) as [reference|]; [|by right].
        destruct (JS.truthy _); [|by right].
        destruct (SessionManager.flushIfSessionBufferIsOld _ _ _ _ _ _) as [[sm1 h1] es1].
        simpl in Hentry. destruct (SessionManager.isEmpty sm1); simpl in Hentry.
        - apply JSObject_elem_of_delete in Hentry as [_ Hentry].
          by apply JSObject_elem_of_set in Hentry.
        - by apply JSObject_elem_of_set in Hentry. }
      + apply (Hl (key, sm)), elem_of_cons. by left.
      + apply Ht, list_elem_of_fmap. by exists entry. }
  apply H; [|done]. intros e He. apply list_elem_of_fmap. by exists e.
Qed.

(** X18.  A batch creates session managers only for messages the parser lets
    through: every key in [sessions] after the batch was there before or is
    the key of an accepted message of the batch.  Rejected messages never
    create a manager. *)
Theorem handleEachBatch_creates_for_accepted (messages : list Message) (s : Ingester)
    (k : string) :
  k ∈ JSObject.keys (sessions (handleEachBatch messages s)) →
  k ∈ JSObject.keys (sessions s) ∨ k ∈ acceptedKeys messages s.
Proof.
  rewrite handleEachBatch_cases. destruct (existsb nullData messages).
  { destruct (aborted_frame messages s) as (-> & _). by left. }
  unfold completed, claimed, acceptedKeys.
  set (s0 := if SESSION_RECORDING_PARTITION_REVOKE_OPTIMIZATION (serverConfig s)
             then _ else s).
  assert (sessions s0 = sessions s ∧ teamsRefresher s0 = teamsRefresher s) as [H0 Ht0]
    by (subst s0; by destruct (SESSION_RECORDING_PARTITION_REVOKE_OPTIMIZATION _)).
  pose proof (parse_loop_messages messages s0 []) as Hrm.
  pose proof (foldl_invariant (λ acc, sessions acc.1 = sessions s) parseStep
                (λ acc m H, eq_trans (proj1 (parseStep_frame acc m)) H)
                messages (s0, []) H0) as H1.
  destruct (foldl parseStep (s0, []) messages) as [s1 recordingMessages].
  simpl in Hrm, H1. rewrite (getTeamFn_teams s s0 Ht0) in Hrm. rewrite <- Hrm.
  intros Hk. apply flushAllReadySessions_keys in Hk.
  rewrite consumeBatch_sessions in Hk.
  assert (sessions (foldl commitEach
                      (foldl (λ s message, consume message s) s1 recordingMessages) messages)
          = sessions (foldl (λ s message, consume message s) s1 recordingMessages)) as Hc.
  { apply (foldl_invariant (λ t, sessions t = sessions _)); [|done].
    intros t m Ht. unfold commitEach. by rewrite commitOffset_sessions. }
  rewrite Hc in Hk. clear Hc Hrm. rewrite <- H1. clear H1 H0.
  revert s1 Hk. induction recordingMessages as [|event events IH]; intros s1 Hk; [by left|].
  cbn [foldl] in Hk. destruct (IH _ Hk) as [Hin|Hin].
  - apply consume_keys in Hin as [->|Hin]; [|by left].
    right. rewrite fmap_cons. apply elem_of_cons. by left.
  - right. rewrite fmap_cons. apply elem_of_cons. by right.
Qed.

Lemma handleEachBatch_creates_for_accepted_witness :
  "2-d" ∈ JSObject.keys (sessions (assigned [0]))
  ∨ "2-d" ∈ acceptedKeys [malformed 0 99 1000; snapshot 0 100 1000 "d"] (assigned [0]).
Proof.
  apply (handleEachBatch_creates_for_accepted
           [malformed 0 99 1000; snapshot 0 100 1000 "d"] (assigned [0]) "2-d").
  apply (bool_decide_unpack
           ("2-d" ∈ JSObject.keys
                      (sessions (handleEachBatch [malformed 0 99 1000; snapshot 0 100 1000 "d"]
                                   (assigned [0]))))).
  by vm_compute.
Defined.

(** ** What the metrics remember of a batch *)

Lemma updateMetrics_lastSeen message s partition :
  is_Some (partitionAssignments s !! partition) →
  lastSeen partition (updateMetrics message s)
  = if decide (m_partition message = partition ∧ JS.truthy (m_timestamp message) = true)
    then (m_timestamp message, Some (m_offset message))
    else lastSeen partition s.
Proof.
  intros [metrics Hm]. unfold updateMetrics, lastSeen.
  destruct (decide _) as [[<- Ht]|Hno].
  - destruct (m_timestamp message) as [timestamp|]; [|done].
    rewrite Hm, Ht. simpl. by rewrite lookup_insert_eq.
  - destruct (m_timestamp message) as [timestamp|]; [|done].
    destruct (partitionAssignments s !! m_partition message) eqn:Hp; [|done].
    destruct (JS.truthy (Some timestamp)) eqn:Ht; [|done]. simpl.
    rewrite lookup_insert_ne; [done|]. intros Heq. by apply Hno.
Qed.

Lemma commitOffset_lastSeen topic p offset s partition :
  lastSeen partition (commitOffset topic p offset s) = lastSeen partition s.
Proof.
  destruct (Z.le_gt_cases (highestOffsetToCommit topic p offset (sessions s))
              (JS.or_0 (partitionAssignments s !! p ≫= lastKnownCommit))) as [Hle|Hlt].
  { by rewrite commitOffset_skips. }
  destruct (commitOffset_commits topic p offset s Hlt) as (_ & Hpa & _).
  unfold lastSeen. rewrite Hpa.
  destruct (partitionAssignments s !! p) as [metrics|] eqn:Hm; [|done].
  destruct (decide (p = partition)) as [<-|Hne].
  - by rewrite lookup_insert_eq, Hm.
  - by rewrite lookup_insert_ne.
Qed.

Lemma parse_loop_lastSeen partition messages s acc :
  is_Some (partitionAssignments s !! partition) →
  is_Some (partitionAssignments (foldl parseStep (s, acc) messages).1 !! partition)
  ∧ lastSeen partition (foldl parseStep (s, acc) messages).1
    = match lastTimestamped partition messages with
      | Some m => (m_timestamp m, Some (m_offset m))
      | None => lastSeen partition s
      end.
Proof.
  intros Hs. induction messages as [|m messages [IHa IH]] using rev_ind; [done|].
  rewrite foldl_app. cbn [foldl].
  destruct (parseStep_frame (foldl parseStep (s, acc) messages) m)
    as (_ & _ & _ & _ & _ & _ & Hpa & _).
  split; [by rewrite Hpa, updateMetrics_assigned|].
  assert (∀ t t', partitionAssignments t' = partitionAssignments t →
            lastSeen partition t' = lastSeen partition t) as Hsame
    by (intros t t' Ht; unfold lastSeen; by rewrite Ht).
  rewrite (Hsame _ _ Hpa), (updateMetrics_lastSeen _ _ _ IHa).
  unfold lastTimestamped in *. rewrite filter_app, filter_cons, filter_nil.
  destruct (decide _) as [Hyes|Hno].
  - by rewrite last_snoc.
  - by rewrite app_nil_r.
Qed.

Lemma completed_remembers_last (partition : Z) (messages : list Message) (s : Ingester) :
  is_Some (partitionAssignments s !! partition) →
  lastSeen partition (completed messages s)
  = match lastTimestamped partition messages with
    | Some m => (m_timestamp m, Some (m_offset m))
    | None => lastSeen partition s
    end.
Proof.
  intros Hs. unfold completed, claimed.
  set (s0 := if SESSION_RECORDING_PARTITION_REVOKE_OPTIMIZATION (serverConfig s)
             then _ else s).
  assert (partitionAssignments s0 = partitionAssignments s) as H0
    by (subst s0; by destruct (SESSION_RECORDING_PARTITION_REVOKE_OPTIMIZATION _)).
  assert (∀ t t', partitionAssignments t' = partitionAssignments t →
            lastSeen partition t' = lastSeen partition t) as Hsame
    by (intros t t' Ht; unfold lastSeen; by rewrite Ht).
  rewrite <- H0 in Hs.
  destruct (parse_loop_lastSeen partition messages s0 [] Hs) as [_ Hparse].
  rewrite (Hsame _ _ H0) in Hparse. rewrite <- Hparse. clear Hparse.
  destruct (foldl parseStep (s0, []) messages) as [s1 recordingMessages]. simpl.
  rewrite (Hsame _ _ (quiet_assignments _ _ (quiet_flushAllReadySessions _))).
  rewrite (Hsame _ _ (quiet_assignments _ _ (quiet_consumeBatch recordingMessages _))).
  transitivity (lastSeen partition
                  (foldl (λ s message, consume message s) s1 recordingMessages)).
  - apply (foldl_invariant (λ t, lastSeen partition t = lastSeen partition _)); [|done].
    intros t m Ht. unfold commitEach. by rewrite commitOffset_lastSeen.
  - apply Hsame, quiet_assignments.
    apply (foldl_preorder quiet); intros a b; apply quiet_consume.
Qed.

(** X19.  After a batch the metrics of an assigned partition remember the
    last message on that partition that carries a timestamp among the
    messages the batch got to, which are all of them unless a parse threw:
    its timestamp becomes [lastMessageTimestamp] and its offset
    [lastMessageOffset], whatever the earlier messages carried; without such
    a message both stay as they were.  The reference time of the age check
    is therefore the latest arrival, not the largest timestamp. *)
Theorem handleEachBatch_remembers_last (partition : Z) (messages : list Message)
    (s : Ingester) :
  is_Some (partitionAssignments s !! partition) →
  lastSeen partition (handleEachBatch messages s)
  = match lastTimestamped partition (reached messages) with
    | Some m => (m_timestamp m, Some (m_offset m))
    | None => lastSeen partition s
    end.
Proof.
  intros Hs. rewrite handleEachBatch_cases.
  destruct (existsb nullData messages) eqn:Hthrows.
  - destruct (aborted_frame messages s) as (_ & _ & _ & _ & _ & _ & Hpa & _).
    destruct (quiet_claimed messages s) as [_ Hpa0 _ _ _ _ _].
    rewrite <- Hpa0 in Hs.
    destruct (parse_loop_lastSeen partition (reached messages) (claimed messages s) [] Hs)
      as [_ Hparse].
    unfold lastSeen in *. by rewrite Hpa, Hparse, Hpa0.
  - rewrite (reached_all _ Hthrows). by apply completed_remembers_last.
Qed.

Lemma handleEachBatch_remembers_last_witness :
  lastSeen 0 (handleEachBatch [snapshot 0 1 2000 "a"; null_data 0 2 1000; snapshot 0 3 3000 "b"]
                (assigned [0]))
  = (Some 1000, Some 2).
Proof.
  rewrite (handleEachBatch_remembers_last 0 _ (assigned [0])); [reflexivity|].
  vm_compute. eauto.
Defined.
